(** * CSS token post-processor and quality validator

    A shallow embedding of the two pieces of the repository that carry the
    CSS repair and validation logic:

    - [tmp/test_postprocessor.py]: [post_process_css] (duplicate [:root]
      stripping followed by [var()] name normalisation) together with the
      tables [VALID_VARIABLES] and [NORMALIZATION_MAP]; and, in module
      [Analysis], the functions [main] measures a text with
      ([extract_css_from_html], [count_root_declarations],
      [find_invalid_variables], [find_brand_color_conflicts]) and [main]
      itself;
    - [tmp/test_css_quality.py]: the class [CSSQualityValidator].

    Both are written with Python's [re] module.  Module [Re] below embeds the
    fragment of [re] the program uses as a backtracking matcher in
    continuation-passing style, so that every pattern of the source is
    transcribed constructor by constructor.

    Text model: a Python [str] is a list of code points; the development
    covers code points below 256, represented by [ascii].  On that range the
    classes [\s] and [\d], [str.isspace], [str.lower] and [repr] are the
    finite tables given here. *)

From Stdlib Require Import Ascii String DecimalString ZArith Lia Bool Arith List.
Import ListNotations.

Set Implicit Arguments.

Definition text := list ascii.

(** A source string literal. *)
Definition txt (s : string) : text := list_ascii_of_string s.

Definition text_eqb (a b : text) : bool :=
  if list_eq_dec ascii_dec a b then true else false.

(** [x in xs] for a set or list of strings. *)
Definition mem (x : text) (xs : list text) : bool := existsb (text_eqb x) xs.

(** [s.startswith(p)], returning what follows the prefix. *)
Fixpoint strip_prefix (p s : text) : option text :=
  match p with
  | [] => Some s
  | a :: p' =>
      match s with
      | [] => None
      | c :: s' => if Ascii.eqb a c then strip_prefix p' s' else None
      end
  end.

Definition startswith (p s : text) : bool :=
  match strip_prefix p s with Some _ => true | None => false end.

(** [needle in s] on strings. *)
Fixpoint contains (needle s : text) : bool :=
  startswith needle s ||
  match s with
  | [] => false
  | _ :: s' => contains needle s'
  end.

Fixpoint drop_while (p : ascii -> bool) (s : text) : text :=
  match s with
  | c :: s' => if p c then drop_while p s' else s
  | [] => []
  end.

Fixpoint take_while (p : ascii -> bool) (s : text) : text :=
  match s with
  | c :: s' => if p c then c :: take_while p s' else []
  | [] => []
  end.

(** The text consumed between a position [s] and a later position [s']
    (both given as the rest of the subject). *)
Definition taken (s s' : text) : text := firstn (length s - length s') s.

(** ** The fragment of Python's [re] used by the program *)

Module Re.

Definition code (c : ascii) : N := N_of_ascii c.

Definition in_range (lo hi : N) (c : ascii) : bool :=
  ((lo <=? code c) && (code c <=? hi))%N.

Definition is_chr (a : string) (c : ascii) : bool :=
  match a with
  | String x EmptyString => Ascii.eqb x c
  | _ => false
  end.

Definition non (p : ascii -> bool) (c : ascii) : bool := negb (p c).

(** [\s] on code points below 256 (also [str.isspace]). *)
Definition is_space (c : ascii) : bool :=
  in_range 9 13 c || in_range 28 32 c || (code c =? 133)%N || (code c =? 160)%N.

(** [\d] on code points below 256. *)
Definition is_digit (c : ascii) : bool := in_range 48 57 c.

(** [[a-zA-Z0-9-]] *)
Definition is_name_chr (c : ascii) : bool :=
  in_range 97 122 c || in_range 65 90 c || in_range 48 57 c || is_chr "-" c.

(** [[0-9a-fA-F]] *)
Definition is_hex (c : ascii) : bool :=
  in_range 48 57 c || in_range 97 102 c || in_range 65 70 c.

(** Patterns.  Repetition is only ever applied to a character class in the
    source ([\s*], [[^}]*], [[^)]+], [\d+], [[0-9a-fA-F]{3,6}]), which is what
    [Rep] offers: greedy, between [lo] and [hi] characters. *)
Inductive regex : Type :=
| Lit (s : text)
| Cls (p : ascii -> bool)
| Rep (p : ascii -> bool) (lo : nat) (hi : option nat)
| Seq (r1 r2 : regex)
| Alt (r1 r2 : regex)
| Opt (r : regex)
| Grp (n : nat) (r : regex)
| NotAhead (r : regex)
| Eos.

Definition groups := list (nat * text).

Definition newline : ascii := "010"%char.

Definition more (hi : option nat) : bool :=
  match hi with
  | None => true
  | Some h => negb (h =? 0)
  end.

(** Greedy repetition of a class: take a character when allowed, fall back
    to stopping here when the continuation fails further on. *)
Fixpoint rep (A : Type) (p : ascii -> bool) (lo : nat) (hi : option nat)
         (s : text) (k : text -> option A) : option A :=
  let stop := match lo with O => k s | S _ => None end in
  match s with
  | c :: s' =>
      if p c && more hi then
        match rep p (pred lo) (option_map pred hi) s' k with
        | Some x => Some x
        | None => stop
        end
      else stop
  | [] => stop
  end.

(** The backtracking matcher.  [exec r s g k] matches [r] at the head of [s]
    with the groups [g] closed so far and hands the rest of the subject to
    [k]; alternatives are tried in priority order until [k] succeeds.  The
    most recently closed group is at the head of the group list. *)
Fixpoint exec (r : regex) (A : Type) (s : text) (g : groups)
         (k : text -> groups -> option A) {struct r} : option A :=
  match r with
  | Lit l =>
      match strip_prefix l s with
      | Some s' => k s' g
      | None => None
      end
  | Cls p =>
      match s with
      | c :: s' => if p c then k s' g else None
      | [] => None
      end
  | Rep p lo hi => rep p lo hi s (fun s' => k s' g)
  | Seq r1 r2 => exec r1 s g (fun s' g' => exec r2 s' g' k)
  | Alt r1 r2 =>
      match exec r1 s g k with
      | Some x => Some x
      | None => exec r2 s g k
      end
  | Opt r1 =>
      match exec r1 s g k with
      | Some x => Some x
      | None => k s g
      end
  | Grp n r1 => exec r1 s g (fun s' g' => k s' ((n, taken s s') :: g'))
  | NotAhead r1 =>
      match exec r1 s g (fun _ _ => Some tt) with
      | Some _ => None
      | None => k s g
      end
  | Eos =>
      match s with
      | [] => k s g
      | [c] => if Ascii.eqb newline c then k s g else None
      | _ => None
      end
  end.

(** A match object: [group(0)] and the capturing groups that took part. *)
Record mobj : Type := MObj { m_text : text; m_groups : groups }.

Fixpoint assoc (n : nat) (g : groups) : option text :=
  match g with
  | [] => None
  | (i, t) :: g' => if i =? n then Some t else assoc n g'
  end.

(** [m.group(n)]: [None] when the group did not take part. *)
Definition group (m : mobj) (n : nat) : option text := assoc n (m_groups m).

(** [m.lastindex] *)
Definition lastindex (m : mobj) : option nat :=
  match m_groups m with
  | [] => None
  | (i, _) :: _ => Some i
  end.

(** [pattern.match(s)]: a match anchored at the head of [s], with the rest. *)
Definition match_at (r : regex) (s : text) : option (mobj * text) :=
  exec r s [] (fun s' g => Some (MObj (taken s s') g, s')).

Definition cons_gap (c : ascii) (x : list (text * mobj) * text)
  : list (text * mobj) * text :=
  match x with
  | ([], tl) => ([], c :: tl)
  | ((gap, m) :: ms, tl) => ((c :: gap, m) :: ms, tl)
  end.

(** The leftmost, non-overlapping matches of [r] in [s], each with the text
    between the previous match and itself, and the text after the last one.
    After a match the scan resumes where the match ended.  The patterns this
    program scans with never match the empty string ([consumes],
    [scanned_patterns_consume]), so the rule of [re] for empty matches is not
    modelled, and [S (length s)] units of fuel always take the scan to the end
    of [s] ([scan_all_eq]). *)
Fixpoint scan (fuel : nat) (r : regex) (s : text) : list (text * mobj) * text :=
  match fuel with
  | O => ([], s)
  | S fuel' =>
      match match_at r s with
      | Some (m, rest) =>
          let '(ms, tl) := scan fuel' r rest in (([], m) :: ms, tl)
      | None =>
          match s with
          | [] => ([], [])
          | c :: s' => cons_gap c (scan fuel' r s')
          end
      end
  end.

Definition scan_all (r : regex) (s : text) : list (text * mobj) * text :=
  scan (S (length s)) r s.

(** [re.finditer] *)
Definition finditer (r : regex) (s : text) : list mobj :=
  map snd (fst (scan_all r s)).

(** [re.findall] for a pattern without capturing group. *)
Definition findall0 (r : regex) (s : text) : list text :=
  map m_text (finditer r s).

Definition group_or_empty (m : mobj) (n : nat) : text :=
  match group m n with Some t => t | None => [] end.

(** [re.findall] for a pattern with one capturing group. *)
Definition findall1 (r : regex) (s : text) : list text :=
  map (fun m => group_or_empty m 1) (finditer r s).

(** [re.search] *)
Definition search (r : regex) (s : text) : option mobj :=
  hd_error (finditer r s).

(** [re.split] for a pattern with one capturing group: the texts between the
    matches, each followed by the group of the match that ends it. *)
Definition split1 (r : regex) (s : text) : list text :=
  let '(ms, tl) := scan_all r s in
  flat_map (fun gm => [fst gm; group_or_empty (snd gm) 1]) ms ++ [tl].

(** [re.sub] with a function as replacement. *)
Definition sub (r : regex) (f : mobj -> text) (s : text) : text :=
  let '(ms, tl) := scan_all r s in
  concat (map (fun gm => fst gm ++ f (snd gm)) ms) ++ tl.

End Re.

Infix ">>" := Re.Seq (at level 61, right associativity).

(** ** [tmp/test_postprocessor.py] *)

Module PostProcessor.
Import Re.

Definition VALID_VARIABLES : list text := map txt
  [ "--ctc-primary"; "--ctc-primary-light"; "--ctc-primary-dark";
    "--ctc-secondary"; "--ctc-accent";
    "--ctc-neutral-darkest"; "--ctc-neutral-dark"; "--ctc-neutral-medium";
    "--ctc-neutral-light"; "--ctc-neutral-lightest";
    "--ctc-success"; "--ctc-warning"; "--ctc-error"; "--ctc-info";
    "--ctc-font-heading"; "--ctc-font-body";
    "--ctc-font-size-base"; "--ctc-font-scale-ratio";
    "--ctc-heading-weight"; "--ctc-body-weight"; "--ctc-body-line-height";
    "--ctc-font-size-xs"; "--ctc-font-size-sm"; "--ctc-font-size-md";
    "--ctc-font-size-lg"; "--ctc-font-size-xl"; "--ctc-font-size-2xl";
    "--ctc-font-size-3xl";
    "--ctc-spacing-unit";
    "--ctc-spacing-xs"; "--ctc-spacing-sm"; "--ctc-spacing-md";
    "--ctc-spacing-lg"; "--ctc-spacing-xl"; "--ctc-spacing-2xl";
    "--ctc-spacing-3xl";
    "--ctc-radius-sm"; "--ctc-radius-md"; "--ctc-radius-lg";
    "--ctc-radius-full";
    "--ctc-shadow-card"; "--ctc-shadow-button"; "--ctc-shadow-elevated";
    "--ctc-transition-speed"; "--ctc-easing" ]%string.

(** The dict [NORMALIZATION_MAP], in source order (its keys are distinct). *)
Definition NORMALIZATION_MAP : list (text * text) :=
  map (fun kv => (txt (fst kv), txt (snd kv)))
  [ ("--ctc-neutral-0", "--ctc-neutral-lightest");
    ("--ctc-neutral-1", "--ctc-neutral-lightest");
    ("--ctc-neutral-2", "--ctc-neutral-light");
    ("--ctc-neutral-3", "--ctc-neutral-light");
    ("--ctc-neutral-4", "--ctc-neutral-medium");
    ("--ctc-neutral-5", "--ctc-neutral-medium");
    ("--ctc-neutral-6", "--ctc-neutral-dark");
    ("--ctc-neutral-7", "--ctc-neutral-darkest");
    ("--ctc-neutral-50", "--ctc-neutral-lightest");
    ("--ctc-neutral-100", "--ctc-neutral-lightest");
    ("--ctc-neutral-200", "--ctc-neutral-light");
    ("--ctc-neutral-300", "--ctc-neutral-light");
    ("--ctc-neutral-400", "--ctc-neutral-medium");
    ("--ctc-neutral-500", "--ctc-neutral-medium");
    ("--ctc-neutral-600", "--ctc-neutral-dark");
    ("--ctc-neutral-700", "--ctc-neutral-dark");
    ("--ctc-neutral-800", "--ctc-neutral-darkest");
    ("--ctc-neutral-900", "--ctc-neutral-darkest");
    ("--ctc-neutral-950", "--ctc-neutral-darkest");
    ("--ctc-spacing-0", "0");
    ("--ctc-spacing-1", "--ctc-spacing-xs");
    ("--ctc-spacing-2", "--ctc-spacing-sm");
    ("--ctc-spacing-3", "--ctc-spacing-md");
    ("--ctc-spacing-4", "--ctc-spacing-lg");
    ("--ctc-spacing-5", "--ctc-spacing-xl");
    ("--ctc-spacing-6", "--ctc-spacing-2xl");
    ("--ctc-spacing-8", "--ctc-spacing-3xl");
    ("--ctc-spacing-9", "--ctc-spacing-3xl");
    ("--ctc-spacing-10", "--ctc-spacing-3xl");
    ("--ctc-spacing-11", "--ctc-spacing-3xl");
    ("--ctc-spacing-12", "--ctc-spacing-3xl");
    ("--ctc-spacing-14", "--ctc-spacing-3xl");
    ("--ctc-spacing-16", "--ctc-spacing-3xl");
    ("--ctc-spacing-20", "--ctc-spacing-3xl");
    ("--ctc-spacing-24", "--ctc-spacing-3xl");
    ("--ctc-space-4", "--ctc-spacing-lg");
    ("--ctc-space-8", "--ctc-spacing-3xl");
    ("--ctc-radius-0", "0");
    ("--ctc-radius-1", "--ctc-radius-sm");
    ("--ctc-radius-2", "--ctc-radius-md") ]%string.

(** [NORMALIZATION_MAP[name]], [None] when [name not in NORMALIZATION_MAP]. *)
Fixpoint lookup (name : text) (m : list (text * text)) : option text :=
  match m with
  | [] => None
  | (k, v) :: m' => if text_eqb name k then Some v else lookup name m'
  end.

(** [r':root\s*\{[^}]*\}'] *)
Definition root_re : regex :=
  Lit (txt ":root") >> Rep is_space 0 None >> Lit (txt "{") >>
  Rep (non (is_chr "}")) 0 None >> Lit (txt "}").

(** [r'(:root\s*\{[^}]*\})'], the pattern given to [re.split]. *)
Definition root_split_re : regex := Grp 1 root_re.

(** [r':root\s*\{'], the test applied to every part of the split. *)
Definition root_open_re : regex :=
  Lit (txt ":root") >> Rep is_space 0 None >> Lit (txt "{").

Definition MARKER : text := txt "/* [PostProcessor] Stripped duplicate :root */".

(** [count_root_declarations], with the pattern [r':root\s*\{']. *)
Definition count_root_declarations (css : text) : nat :=
  length (findall0 root_open_re css).

(** One turn of the loop over [parts] (lines 168-176); the state is
    [kept_first] and the list [result]. *)
Definition strip_step (st : bool * list text) (part : text) : bool * list text :=
  let '(kept_first, result) := st in
  match match_at root_open_re part with
  | Some _ =>
      if negb kept_first then (true, result ++ [part])
      else (kept_first, result ++ [MARKER])
  | None => (kept_first, result ++ [part])
  end.

(** Step 1 of [post_process_css] as it takes effect (lines 161-177).  What
    lines 141-149 compute is overwritten by [processed = css] on line 152, and
    [replace_root] (lines 153-159) is never called. *)
Definition strip_duplicate_roots (css : text) : text :=
  let root_count := length (findall0 root_re css) in
  if 1 <? root_count then
    let parts := split1 root_split_re css in
    concat (snd (fold_left strip_step parts (false, [])))
  else css.

(** [r'var\(\s*(--ctc-[a-zA-Z0-9-]+)\s*(?:,\s*([^)]+))?\s*\)'] *)
Definition var_re : regex :=
  Lit (txt "var(") >> Rep is_space 0 None >>
  Grp 1 (Lit (txt "--ctc-") >> Rep is_name_chr 1 None) >>
  Rep is_space 0 None >>
  Opt (Lit (txt ",") >> Rep is_space 0 None >>
       Grp 2 (Rep (non (is_chr ")")) 1 None)) >>
  Rep is_space 0 None >> Lit (txt ")").

(** The callback [normalize_var].  [fallback] is [None] or a string; a
    string is truthy when it is not empty. *)
Definition normalize_var (m : mobj) : text :=
  let var_name := group_or_empty m 1 in
  let fallback :=
    match lastindex m with
    | Some i => if 2 <=? i then group m 2 else None
    | None => None
    end in
  match lookup var_name NORMALIZATION_MAP with
  | Some normalized =>
      if negb (startswith (txt "--") normalized) then normalized
      else
        match fallback with
        | Some (c :: fb) =>
            txt "var(" ++ normalized ++ txt ", " ++ (c :: fb) ++ txt ")"
        | _ => txt "var(" ++ normalized ++ txt ")"
        end
  | None => m_text m
  end.

(** Step 2 (lines 193-197). *)
Definition normalize_vars (css : text) : text := sub var_re normalize_var css.

Definition post_process_css (css : text) : text :=
  normalize_vars (strip_duplicate_roots css).

End PostProcessor.

(** ** Python built-ins used to build the messages *)

Module Py.
Import Re.

(** [str(n)] for a length. *)
Definition str_of_nat (n : nat) : text :=
  txt (NilEmpty.string_of_uint (Nat.to_uint n)).

(** [sep.join(xs)] *)
Fixpoint join (sep : text) (xs : list text) : text :=
  match xs with
  | [] => []
  | [x] => x
  | x :: xs' => x ++ sep ++ join sep xs'
  end.

(** [s.lower()] on code points below 256: A-Z, and the upper-case letters of
    0xC0-0xDE except the multiplication sign 0xD7. *)
Definition lower_chr (c : ascii) : ascii :=
  if in_range 65 90 c || (in_range 192 222 c && negb (code c =? 215)%N)
  then ascii_of_N (code c + 32) else c.

Definition lower (s : text) : text := map lower_chr s.

(** [s.strip()] *)
Definition strip (s : text) : text :=
  rev (drop_while is_space (rev (drop_while is_space s))).

(** Order of [str] values: lexicographic on code points. *)
Fixpoint text_leb (a b : text) : bool :=
  match a, b with
  | [], _ => true
  | _ :: _, [] => false
  | x :: a', y :: b' =>
      if (code x <? code y)%N then true
      else if (code y <? code x)%N then false
      else text_leb a' b'
  end.

Fixpoint insert_sorted (x : text) (xs : list text) : list text :=
  match xs with
  | [] => [x]
  | y :: ys => if text_leb x y then x :: xs else y :: insert_sorted x ys
  end.

(** [sorted(xs)] *)
Definition sorted (xs : list text) : list text :=
  fold_right insert_sorted [] xs.

(** A [set] of strings, kept as a list without repetition; [set_add] is
    [s.add(x)] and [length] is [len(s)]. *)
Definition set_add (x : text) (s : list text) : list text :=
  if mem x s then s else s ++ [x].

(** [len(set(xs))] *)
Definition count_distinct (xs : list text) : nat :=
  length (nodup (list_eq_dec ascii_dec) xs).

Definition hex_digit (n : N) : ascii :=
  if (n <? 10)%N then ascii_of_N (48 + n) else ascii_of_N (87 + n).

(** [str.isprintable] on one code point below 256. *)
Definition is_printable (c : ascii) : bool :=
  (in_range 32 126 c || in_range 161 255 c) && negb (code c =? 173)%N.

Definition dquote : ascii := "034"%char.

Definition repr_chr (quote c : ascii) : text :=
  if Ascii.eqb c quote || is_chr "\" c then ["\"%char; c]
  else if (code c =? 9)%N then txt "\t"
  else if (code c =? 10)%N then txt "\n"
  else if (code c =? 13)%N then txt "\r"
  else if is_printable c then [c]
  else ["\"%char; "x"%char; hex_digit (code c / 16); hex_digit (code c mod 16)].

(** [repr(s)] of a [str]: single quotes unless the string has a single quote
    and no double quote. *)
Definition repr_str (s : text) : text :=
  let quote :=
    if existsb (is_chr "'") s && negb (existsb (Ascii.eqb dquote) s)
    then dquote else "'"%char in
  quote :: flat_map (repr_chr quote) s ++ [quote].

(** [repr(xs)] of a list of [str], as an f-string prints it. *)
Definition repr_list (xs : list text) : text :=
  txt "[" ++ join (txt ", ") (map repr_str xs) ++ txt "]".

End Py.

(** ** [tmp/test_css_quality.py] *)

Module Quality.
Import Re Py.

Definition VALID_VARIABLES : list text := PostProcessor.VALID_VARIABLES.

Definition INVALID_PATTERNS : list regex :=
  [ Lit (txt "--ctc-neutral-") >> Rep is_digit 1 None;
    Lit (txt "--ctc-spacing-") >> Rep is_digit 1 None >> Eos;
    Lit (txt "--ctc-radius-") >> Rep is_digit 1 None >> Eos;
    Lit (txt "--ctc-space-") >> Rep is_digit 1 None;
    Lit (txt "--ctc-text") >> NotAhead (Lit (txt "-"));
    Lit (txt "--ctc-bg") >> NotAhead (Lit (txt "-"));
    Lit (txt "--ctc-font-display");
    Lit (txt "--ctc-rounded") ].

(** [r':root\s*\{[^}]*\}'] *)
Definition root_re : regex := PostProcessor.root_re.

(** [r':root\s*\{(BODY)\}'] where BODY is the class repetition [[^}]*]. *)
Definition root_body_re : regex :=
  Lit (txt ":root") >> Rep is_space 0 None >> Lit (txt "{") >>
  Grp 1 (Rep (non (is_chr "}")) 0 None) >> Lit (txt "}").

(** [r'--ctc-primary:\s*([^;]+)'] *)
Definition primary_re : regex :=
  Lit (txt "--ctc-primary:") >> Rep is_space 0 None >>
  Grp 1 (Rep (non (is_chr ";")) 1 None).

(** [r'var\(\s*(--ctc-[a-zA-Z0-9-]+)\s*(?:,\s*[^)]+)?\s*\)'] *)
Definition var_usage_re : regex :=
  Lit (txt "var(") >> Rep is_space 0 None >>
  Grp 1 (Lit (txt "--ctc-") >> Rep is_name_chr 1 None) >>
  Rep is_space 0 None >>
  Opt (Lit (txt ",") >> Rep is_space 0 None >>
       Rep (non (is_chr ")")) 1 None) >>
  Rep is_space 0 None >> Lit (txt ")").

(** [r'(?:color|background|border-color):\s*(#[0-9a-fA-F]{3,6})'] *)
Definition hardcoded_re : regex :=
  Alt (Lit (txt "color"))
      (Alt (Lit (txt "background")) (Lit (txt "border-color"))) >>
  Lit (txt ":") >> Rep is_space 0 None >>
  Grp 1 (Lit (txt "#") >> Rep is_hex 3 (Some 6)).

(** The validator object: [self.css], [self.issues], [self.warnings]. *)
Record validator : Type :=
  Validator { css : text; issues : list text; warnings : list text }.

(** [CSSQualityValidator(css)] *)
Definition init (c : text) : validator := Validator c [] [].

Definition add_issue (msg : text) (v : validator) : validator :=
  Validator (css v) (issues v ++ [msg]) (warnings v).

Definition add_warning (msg : text) (v : validator) : validator :=
  Validator (css v) (issues v) (warnings v ++ [msg]).

Definition msg_duplicate_roots (n : nat) : text :=
  txt "CRITICAL: Found " ++ str_of_nat n ++
  txt " :root declarations (should be 1)".

Definition msg_conflicting_primary (primaries : list text) : text :=
  txt "CRITICAL: Brand color --ctc-primary has conflicting values: " ++
  repr_list primaries.

Definition msg_unknown_variable (var_name : text) : text :=
  txt "Unknown variable: " ++ var_name.

Definition msg_invalid_variables (invalid_vars : list text) : text :=
  txt "CRITICAL: Found " ++ str_of_nat (length invalid_vars) ++
  txt " invalid CSS variables: " ++ join (txt ", ") (sorted invalid_vars).

Definition msg_no_root : text := txt "CRITICAL: No :root declaration found".

Definition msg_missing_color (color : text) : text :=
  txt "Missing recommended color: " ++ color.

Definition msg_generic_arial : text :=
  txt "Typography uses generic Arial - may not match brand".

Definition msg_missing_font_heading : text :=
  txt "Missing --ctc-font-heading definition".

Definition msg_missing_font_body : text :=
  txt "Missing --ctc-font-body definition".

Definition msg_hardcoded (n : nat) : text :=
  txt "Found " ++ str_of_nat n ++
  txt " hardcoded colors - should use CSS variables".

(** The list [primaries] of [_check_duplicate_roots]: for each matched
    block that has a [--ctc-primary:] declaration, its value stripped and
    lower-cased, in source order. *)
Definition primaries_of (root_matches : list text) : list text :=
  flat_map
    (fun root =>
       match search primary_re root with
       | Some m => [lower (strip (group_or_empty m 1))]
       | None => []
       end)
    root_matches.

Definition check_duplicate_roots (v : validator) : validator :=
  let root_matches := findall0 root_re (css v) in
  if 1 <? length root_matches then
    let v1 := add_issue (msg_duplicate_roots (length root_matches)) v in
    let primaries := primaries_of root_matches in
    if 1 <? count_distinct primaries
    then add_issue (msg_conflicting_primary primaries) v1
    else v1
  else v.

(** [any(re.match(pattern, var_name) for pattern in INVALID_PATTERNS)], the
    inner loop with its [break]. *)
Definition matches_invalid_pattern (var_name : text) : bool :=
  existsb
    (fun pattern =>
       match match_at pattern var_name with Some _ => true | None => false end)
    INVALID_PATTERNS.

(** One turn of the loop over [var_usages]; the state is the set
    [invalid_vars] and the validator (for its warnings). *)
Definition invalid_step (st : list text * validator) (var_name : text)
  : list text * validator :=
  let '(invalid_vars, v) := st in
  let invalid_vars' :=
    if matches_invalid_pattern var_name
    then set_add var_name invalid_vars else invalid_vars in
  if negb (mem var_name VALID_VARIABLES) && negb (mem var_name invalid_vars')
  then (invalid_vars', add_warning (msg_unknown_variable var_name) v)
  else (invalid_vars', v).

Definition check_invalid_variables (v : validator) : validator :=
  let var_usages := findall1 var_usage_re (css v) in
  let '(invalid_vars, v1) := fold_left invalid_step var_usages ([], v) in
  match invalid_vars with
  | [] => v1
  | _ :: _ => add_issue (msg_invalid_variables invalid_vars) v1
  end.

Definition required_colors : list text :=
  [txt "--ctc-primary"; txt "--ctc-secondary"; txt "--ctc-accent"].

Definition check_brand_colors (v : validator) : validator :=
  match search root_body_re (css v) with
  | None => add_issue msg_no_root v
  | Some root_match =>
      let root_content := group_or_empty root_match 1 in
      fold_left
        (fun v' color =>
           if negb (contains color root_content)
           then add_warning (msg_missing_color color) v' else v')
        required_colors v
  end.

Definition check_typography (v : validator) : validator :=
  match search root_body_re (css v) with
  | None => v
  | Some root_match =>
      let root_content := group_or_empty root_match 1 in
      let v1 :=
        if contains (txt "Arial, sans-serif") root_content
           || contains (txt "font-family: Arial") (css v)
        then add_warning msg_generic_arial v else v in
      let v2 :=
        if negb (contains (txt "--ctc-font-heading") root_content)
        then add_warning msg_missing_font_heading v1 else v1 in
      if negb (contains (txt "--ctc-font-body") root_content)
      then add_warning msg_missing_font_body v2 else v2
  end.

Definition check_generic_styles (v : validator) : validator :=
  let hardcoded_colors := findall1 hardcoded_re (css v) in
  if 10 <? length hardcoded_colors
  then add_warning (msg_hardcoded (length hardcoded_colors)) v else v.

Definition calculate_score (v : validator) : Z :=
  let score := 100%Z in
  let score := (score - Z.of_nat (length (issues v)) * 25)%Z in
  let score := (score - Z.of_nat (length (warnings v)) * 5)%Z in
  Z.max 0 score.

(** The dict returned by [validate]. *)
Record report : Type :=
  Report { passed : bool; r_issues : list text; r_warnings : list text;
           score : Z }.

Definition run_checks (v : validator) : validator :=
  check_generic_styles
    (check_typography
       (check_brand_colors
          (check_invalid_variables
             (check_duplicate_roots v)))).

(** [validator.validate()] *)
Definition validate_from (v : validator) : report :=
  let v' := run_checks v in
  Report (length (issues v') =? 0) (issues v') (warnings v')
         (calculate_score v').

(** [CSSQualityValidator(css).validate()] *)
Definition validate (c : text) : report := validate_from (init c).

(** The sample and the verdict of [test_css_validator_directly]. *)
Definition sample_css : text :=
  join [newline] (map txt
  [ "";
    ":root {";
    "  --ctc-primary: #00637B;";
    "  --ctc-primary-light: #ADD8E6;";
    "  --ctc-primary-dark: #00334A;";
    "  --ctc-secondary: #FFFFFF;";
    "  --ctc-accent: #00637B;";
    "  --ctc-neutral-darkest: #000000;";
    "  --ctc-neutral-dark: #333333;";
    "  --ctc-neutral-medium: #666666;";
    "  --ctc-neutral-light: #999999;";
    "  --ctc-neutral-lightest: #F0F8FF;";
    "  --ctc-font-heading: Arial, sans-serif;";
    "  --ctc-font-body: Arial, sans-serif;";
    "}";
    "";
    "/* Button using INVALID variables (should be caught) */";
    ".ctc-button {";
    "  color: var(--ctc-neutral-7);";
    "  background-color: var(--ctc-neutral-1);";
    "  border-radius: var(--ctc-radius-0);";
    "  padding: var(--ctc-spacing-2) var(--ctc-spacing-4);";
    "}";
    "";
    "/* Duplicate :root (should be caught) */";
    ":root {";
    "  --ctc-primary: #0047AB;";
    "  --ctc-neutral-100: #F5F5F5;";
    "  --ctc-neutral-700: #616161;";
    "}";
    "";
    ".ctc-timeline {";
    "  color: var(--ctc-neutral-700);";
    "  background: var(--ctc-neutral-100);";
    "}";
    "    " ]%string).

Definition test_css_validator_directly : bool :=
  let results := validate sample_css in
  let issues_text := lower (join (txt " ") (r_issues results)) in
  let found_root_issue :=
    contains (txt ":root") issues_text
    || contains (txt "root declaration") issues_text in
  let found_invalid_vars :=
    contains (txt "invalid") issues_text
    && contains (txt "variables") issues_text in
  found_root_issue && found_invalid_vars.

End Quality.

(** ** [tmp/test_postprocessor.py]: the functions [main] analyses a text with *)

Module Analysis.
Import Re Py.

(** [INVALID_PATTERNS] of [tmp/test_postprocessor.py] (lines 38-43). *)
Definition INVALID_PATTERNS : list regex :=
  [ Lit (txt "--ctc-neutral-") >> Rep is_digit 1 None;
    Lit (txt "--ctc-spacing-") >> Rep is_digit 1 None >> Eos;
    Lit (txt "--ctc-radius-") >> Rep is_digit 1 None >> Eos;
    Lit (txt "--ctc-space-") >> Rep is_digit 1 None ].

(** [var_pattern] of [find_invalid_variables] (line 109), the same pattern
    text as in [_check_invalid_variables]:
    [r'var\(\s*(--ctc-[a-zA-Z0-9-]+)\s*(?:,\s*[^)]+)?\s*\)']. *)
Definition var_pattern : regex := Quality.var_usage_re.

(** The inner loop of [find_invalid_variables] with its [break]. *)
Definition matches_invalid_pattern (var_name : text) : bool :=
  existsb
    (fun pattern =>
       match match_at pattern var_name with Some _ => true | None => false end)
    INVALID_PATTERNS.

(** [find_invalid_variables]; the set [invalid] is kept as a list without
    repetition. *)
Definition find_invalid_variables (css : text) : list text :=
  fold_left
    (fun invalid var_name =>
       if matches_invalid_pattern var_name
       then set_add var_name invalid else invalid)
    (findall1 var_pattern css) [].

(** [root_pattern] of [find_brand_color_conflicts] (line 124), the pattern
    of [_check_brand_colors]: [:root\s*\{(BODY)\}] with BODY the class
    repetition [[^}]*]. *)
Definition root_pattern : regex := Quality.root_body_re.

(** [find_brand_color_conflicts]: for each block body that has a
    [--ctc-primary:] declaration (pattern [r'--ctc-primary:\s*([^;]+)']), its
    value stripped and lower-cased, in source order. *)
Definition find_brand_color_conflicts (css : text) : list text :=
  flat_map
    (fun root =>
       match search Quality.primary_re root with
       | Some m => [lower (strip (group_or_empty m 1))]
       | None => []
       end)
    (findall1 root_pattern css).

(** [(.*?)] under [re.DOTALL], a lazy repetition of any character: the
    subject is handed to the continuation first, and one more character is
    taken only when the continuation fails. *)
Fixpoint lazy_any (A : Type) (s : text) (k : text -> option A) : option A :=
  match k s with
  | Some x => Some x
  | None =>
      match s with
      | _ :: s' => lazy_any s' k
      | [] => None
      end
  end.

(** The pieces of [style_pattern], [r'<style[^>]*>(.*?)</style>'], before
    and after its group. *)
Definition style_open_re : regex :=
  Lit (txt "<style") >> Rep (non (is_chr ">")) 0 None >> Lit (txt ">").

Definition style_close_re : regex := Lit (txt "</style>").

(** A match of [style_pattern] at the head of [s], with the rest: the
    opening piece, the lazy group 1, the closing piece. *)
Definition style_match_at (s : text) : option (mobj * text) :=
  exec style_open_re s []
    (fun s1 g1 =>
       lazy_any s1
         (fun s2 =>
            exec style_close_re s2 ((1, taken s1 s2) :: g1)
              (fun s3 g3 => Some (MObj (taken s s3) g3, s3)))).

(** The leftmost, non-overlapping matches of [style_pattern]; a match is
    never empty, so [S (length s)] units of fuel take the scan to the end. *)
Fixpoint scan_style (fuel : nat) (s : text) : list mobj :=
  match fuel with
  | O => []
  | S fuel' =>
      match style_match_at s with
      | Some (m, rest) => m :: scan_style fuel' rest
      | None =>
          match s with
          | [] => []
          | _ :: s' => scan_style fuel' s'
          end
      end
  end.

(** [matches = re.findall(style_pattern, html_content, re.DOTALL)] *)
Definition style_matches (html_content : text) : list text :=
  map (fun m => group_or_empty m 1)
      (scan_style (S (length html_content)) html_content).

(** [extract_css_from_html] *)
Definition extract_css_from_html (html_content : text) : text :=
  join [newline] (style_matches html_content).

(** [main].  The world it runs in is the content of [CSS_FILE], [None] when
    the file does not exist; what it does is what it prints (one string per
    call of [print]), what it writes to [tmp/processed_css.css], and the exit
    status of the process ([sys.exit(1)] on line 210, [sys.exit(main())] on
    line 309).  Reading and writing are taken to succeed. *)
Definition CSS_FILE : text :=
  txt "tmp/stylizer_new/example_output_mvgm_vvebeheer_2.html".

Record outcome : Type :=
  Outcome { stdout : list text; saved : option text; exit_code : Z }.

(** ["=" * 70] *)
Definition rule : text := repeat "="%char 70.

(** The three calls [print("\n" + "=" * 70)], [print(title)],
    [print("=" * 70)]. *)
Definition banner (title : text) : list text :=
  [newline :: rule; title; rule].

(** The lists [before_issues] and [after_issues] (lines 235-241 and
    274-280). *)
Definition issues_of (root_count : nat) (invalid_vars brand_colors : list text)
  : list text :=
  (if 1 <? root_count
   then [txt "Duplicate :root (" ++ str_of_nat root_count ++ txt ")"]
   else []) ++
  (match invalid_vars with
   | [] => []
   | _ :: _ =>
       [txt "Invalid variables (" ++ str_of_nat (length invalid_vars) ++ txt ")"]
   end) ++
  (if 1 <? count_distinct brand_colors then [txt "Brand color conflict"] else []).

(** The lines on the counts taken before and after the pass (lines 227-231
    and 268-272). *)
Definition print_counts (root_count : nat) (invalid_vars brand_colors : list text)
  : list text :=
  [newline :: txt ":root declarations: " ++ str_of_nat root_count ++
     txt " (should be 1)";
   txt "Invalid variables: " ++ str_of_nat (length invalid_vars)] ++
  (match invalid_vars with
   | [] => []
   | _ :: _ => [txt "  Variables: " ++ join (txt ", ") (sorted invalid_vars)]
   end) ++
  [txt "Brand colors found: " ++ repr_list brand_colors].

Definition yes_no (b : bool) : text := if b then txt "YES" else txt "NO".

Definition main (file : option text) : outcome :=
  let head := [rule; txt "CSS POST-PROCESSOR VALIDATION TEST"; rule] in
  match file with
  | None =>
      Outcome (head ++ [txt "ERROR: File not found: " ++ CSS_FILE]) None 1
  | Some html_content =>
      let css := extract_css_from_html html_content in
      let root_count := PostProcessor.count_root_declarations css in
      let invalid_vars := find_invalid_variables css in
      let brand_colors := find_brand_color_conflicts css in
      let before_issues := issues_of root_count invalid_vars brand_colors in
      let processed_css := PostProcessor.post_process_css css in
      let root_count_after :=
        PostProcessor.count_root_declarations processed_css in
      let invalid_vars_after := find_invalid_variables processed_css in
      let brand_colors_after := find_brand_color_conflicts processed_css in
      let after_issues :=
        issues_of root_count_after invalid_vars_after brand_colors_after in
      let fixed_roots := (1 <? root_count) && (root_count_after =? 1) in
      let fixed_vars := length invalid_vars_after <? length invalid_vars in
      let passes :=
        (root_count_after =? 1) && (length invalid_vars_after =? 0) in
      Outcome
        (head ++
         [newline :: txt "Extracted " ++ str_of_nat (length css) ++
            txt " characters of CSS from " ++ CSS_FILE] ++
         banner (txt "BEFORE POST-PROCESSING") ++
         print_counts root_count invalid_vars brand_colors ++
         (if 1 <? count_distinct brand_colors
          then [txt "  WARNING: Conflicting brand colors!"] else []) ++
         [newline :: txt "Issues found: " ++ str_of_nat (length before_issues)] ++
         map (fun issue => txt "  - " ++ issue) before_issues ++
         banner (txt "APPLYING POST-PROCESSOR") ++
         [newline :: txt "Saved processed CSS to tmp/processed_css.css"] ++
         banner (txt "AFTER POST-PROCESSING") ++
         print_counts root_count_after invalid_vars_after brand_colors_after ++
         banner (txt "SUMMARY") ++
         [newline :: txt "Before: " ++ str_of_nat (length before_issues) ++
            txt " issues";
          txt "After:  " ++ str_of_nat (length after_issues) ++ txt " issues";
          newline :: txt "Fixed duplicate :root: " ++ yes_no fixed_roots;
          txt "Fixed invalid variables: " ++ yes_no fixed_vars ++ txt " (" ++
            str_of_nat (length invalid_vars) ++ txt " -> " ++
            str_of_nat (length invalid_vars_after) ++ txt ")"] ++
         banner (if passes
                 then txt "[PASS] CSS POST-PROCESSOR WORKS CORRECTLY"
                 else txt "[PARTIAL] Some issues remain - review the output"))
        (Some processed_css)
        (if passes then 0 else 1)
  end.

End Analysis.

(** ** Definitions used to state the properties *)

Module Shape.
Import Re PostProcessor.

(** A syntactic guarantee that a match of [r] is never empty. *)
Fixpoint consumes (r : regex) : bool :=
  match r with
  | Lit [] => false
  | Lit (_ :: _) => true
  | Cls _ => true
  | Rep _ lo _ => 0 <? lo
  | Seq r1 r2 => consumes r1 || consumes r2
  | Alt r1 r2 => consumes r1 && consumes r2
  | Opt _ => false
  | Grp _ r1 => consumes r1
  | NotAhead _ => false
  | Eos => false
  end.

(** No match of [r] starts inside [g] when [g] is followed by [y]. *)
Definition quiet (r : regex) (g y : text) : Prop :=
  forall a b, g = a ++ b -> b <> [] -> match_at r (b ++ y) = None.

(** Put [g] in front of the first gap of a scan result. *)
Definition prepend (g : text) (x : list (text * mobj) * text)
  : list (text * mobj) * text :=
  match x with
  | ([], tl) => ([], g ++ tl)
  | ((gap, m) :: ms, tl) => ((g ++ gap, m) :: ms, tl)
  end.

(** What [:root\s*\{] leaves of [s] when it matches at its head. *)
Definition root_open (s : text) : option text :=
  match strip_prefix (txt ":root") s with
  | Some s1 => strip_prefix (txt "{") (drop_while is_space s1)
  | None => None
  end.

(** What [:root\s*\{[^}]*\}] leaves of [s] when it matches at its head. *)
Definition root_at (s : text) : option text :=
  match root_open s with
  | Some s3 => strip_prefix (txt "}") (drop_while (non (is_chr "}")) s3)
  | None => None
  end.

(** A character at which an attempt of [:root\s*\{] begun earlier fails. *)
Definition stopper (c : ascii) : bool :=
  negb (is_space c || is_chr "r" c || is_chr "o" c || is_chr "t" c
        || is_chr "{" c).

(** The text a scan was made of: gaps and matches in order, then the tail. *)
Definition unscanned (ms : list (text * mobj)) (tl : text) : text :=
  concat (map (fun gm => fst gm ++ m_text (snd gm)) ms) ++ tl.

(** What the loop of [strip_duplicate_roots] makes of the text after the
    last block once a block has been kept: the loop applies [:root\s*\{] to
    that text too, so a [:root {] left open there goes the way of a
    duplicate. *)
Definition tail_part (tl : text) : text :=
  match root_open tl with
  | Some _ => MARKER
  | None => tl
  end.

(** What the loop makes of the blocks [ms] that follow the kept one and of
    the tail: the gaps stay, every block becomes the marker. *)
Definition stripped_rest (ms : list (text * mobj)) (tl : text) : text :=
  concat (map (fun gm => fst gm ++ MARKER) ms) ++ tail_part tl.

(** The text a reference is written with: [var(] spaces name spaces, an
    optional [,] spaces fallback, and [)]. *)
Definition reference (w1 name w2 : text) (fb : option (text * text)) : text :=
  txt "var(" ++ w1 ++ name ++ w2 ++
  match fb with
  | Some (w3, fallback) => txt "," ++ w3 ++ fallback
  | None => []
  end ++ txt ")".

(** [reaches r f pre out s]: [re.sub(r, f, pre ++ s)], working from the
    left, arrives at [s] having written [out], either by copying a character
    at which [r] does not match or by replacing a match that ends inside
    [pre]. *)
Inductive reaches (r : regex) (f : mobj -> text) : text -> text -> text -> Prop :=
| reach_here s : reaches r f [] [] s
| reach_skip c pre out s :
    match_at r (c :: pre ++ s) = None ->
    reaches r f pre out s -> reaches r f (c :: pre) (c :: out) s
| reach_match m pre1 pre2 out s :
    match_at r (pre1 ++ pre2 ++ s) = Some (m, pre2 ++ s) ->
    reaches r f pre2 out s -> reaches r f (pre1 ++ pre2) (f m ++ out) s.

(** The groups a match of [var_re] on such a reference closes. *)
Definition reference_groups (name : text) (fb : option (text * text)) : groups :=
  match fb with
  | Some (_, fallback) => [(2, fallback); (1, name)]
  | None => [(1, name)]
  end.

Definition all (p : ascii -> bool) (s : text) : Prop :=
  Forall (fun c => p c = true) s.

(** The reference is written the way the pattern reads it: the name is
    [--ctc-] and at least one character of [[a-zA-Z0-9-]]; the fallback, when
    there is one, starts on a character that is not a space and runs up to the
    first closing parenthesis. *)
Definition reference_ok (w1 name w2 : text) (fb : option (text * text)) : Prop :=
  all is_space w1 /\
  (exists n, name = txt "--ctc-" ++ n /\ n <> [] /\ all is_name_chr n) /\
  all is_space w2 /\
  match fb with
  | Some (w3, fallback) =>
      all is_space w3 /\ all (non (is_chr ")")) fallback /\
      match fallback with
      | c :: _ => is_space c = false
      | [] => False
      end
  | None => True
  end.

(** The reference pattern read as a direct scanner: the name a match at the
    head of [s] reads, with the text that follows the name and the spaces
    after it. *)
Definition var_name_at (s : text) : option (text * text) :=
  match strip_prefix (txt "var(") s with
  | Some s1 =>
      match strip_prefix (txt "--ctc-") (drop_while is_space s1) with
      | Some s3 =>
          match take_while is_name_chr s3 with
          | [] => None
          | n =>
              Some (txt "--ctc-" ++ n,
                    drop_while is_space (drop_while is_name_chr s3))
          end
      | None => None
      end
  | None => None
  end.

(** What is left after the closing parenthesis, from the text that follows
    the name: either the parenthesis comes at once, or a comma, at least one
    character, and the first parenthesis after them. *)
Definition var_tail_at (s5 : text) : option text :=
  match s5 with
  | c :: s6 =>
      if is_chr ")" c then Some s6
      else if is_chr "," c then
        match s6 with
        | d :: _ =>
            if is_chr ")" d then None
            else strip_prefix (txt ")") (drop_while (non (is_chr ")")) s6)
        | [] => None
        end
      else None
  | [] => None
  end.

(** The name and the rest of a match of [var_re] at the head of [s]. *)
Definition var_at (s : text) : option (text * text) :=
  match var_name_at s with
  | Some (name, s5) =>
      match var_tail_at s5 with
      | Some rest => Some (name, rest)
      | None => None
      end
  | None => None
  end.

(** [normalizes x y]: [y] is what [re.sub(var_re, normalize_var, x)]
    writes, step by step: a character at which the pattern does not match is
    copied, a match is replaced by what the callback returns. *)
Inductive normalizes : text -> text -> Prop :=
| nz_nil : normalizes [] []
| nz_copy c x y :
    match_at var_re (c :: x) = None ->
    normalizes x y -> normalizes (c :: x) (c :: y)
| nz_ref mo x y :
    match_at var_re (m_text mo ++ x) = Some (mo, x) ->
    normalizes x y -> normalizes (m_text mo ++ x) (normalize_var mo ++ y).

(** The callback collapses this match to a literal. *)
Definition maps_to_literal (mo : mobj) : bool :=
  match lookup (group_or_empty mo 1) NORMALIZATION_MAP with
  | Some normalized => negb (startswith (txt "--") normalized)
  | None => false
  end.

(** No reference that the scan of [x] matches is collapsed to a literal. *)
Definition no_literal (x : text) : bool :=
  forallb (fun mo => negb (maps_to_literal mo)) (finditer var_re x).

(** A value of the table is a canonical name: [--ctc-] and characters of
    the name class, and not itself a key of the table. *)
Definition canonical_ok (v : text) : bool :=
  match strip_prefix (txt "--ctc-") v with
  | Some n =>
      match n with [] => false | _ :: _ => true end
      && forallb is_name_chr n
      && match lookup v NORMALIZATION_MAP with None => true | Some _ => false end
  | None => false
  end.

(** How far a left-to-right search gets towards two disjoint [:root]
    blocks, from state [k]: in an even state it waits for a place where
    [:root\s*\{] matches, in an odd state for a closing brace.  Two blocks
    are there exactly when the search started in state 0 reaches state 4. *)
Fixpoint prog (k : nat) (s : text) : nat :=
  match s with
  | [] => k
  | c :: s' =>
      prog (if Nat.even k
            then match root_open s with Some _ => S k | None => k end
            else if is_chr "}" c then S k else k)
           s'
  end.

(** A character that takes no part in [prog]. *)
Definition plain (c : ascii) : bool := negb (is_chr ":" c || is_chr "}" c).

(** A literal value of the table is made of plain characters and starts
    with a character at which an attempt of [:root\s*\{] stops. *)
Definition literal_ok (v : text) : bool :=
  forallb plain v && match v with c :: _ => stopper c | [] => false end.

(** The references [_check_invalid_variables] warns about: the name is not
    in [VALID_VARIABLES] and matches none of [INVALID_PATTERNS]. *)
Definition unknown_name (x : text) : bool :=
  negb (mem x Quality.VALID_VARIABLES) &&
  negb (Quality.matches_invalid_pattern x).

(** The number of places of [s] at which [:root\s*\{] matches. *)
Fixpoint opens (s : text) : nat :=
  match s with
  | [] => 0
  | c :: s' =>
      match root_open s with Some _ => 1 | None => 0 end + opens s'
  end.

(** The body of a block, from the text of the block. *)
Definition body_of (block : text) : text :=
  match root_open block with
  | Some s3 => take_while (non (is_chr "}")) s3
  | None => []
  end.

(** The name a reference has after the normalisation, when it is not
    collapsed to a literal. *)
Definition canonical_name (name : text) : text :=
  match lookup name NORMALIZATION_MAP with
  | Some normalized => normalized
  | None => name
  end.

(** A pattern with the parentheses of group [n] made non-capturing, and what
    is left of the groups of a match. *)
Fixpoint erase_group (n : nat) (r : regex) : regex :=
  match r with
  | Seq r1 r2 => Seq (erase_group n r1) (erase_group n r2)
  | Alt r1 r2 => Alt (erase_group n r1) (erase_group n r2)
  | Opt r1 => Opt (erase_group n r1)
  | Grp m r1 => if m =? n then erase_group n r1 else Grp m (erase_group n r1)
  | NotAhead r1 => NotAhead (erase_group n r1)
  | _ => r
  end.

Definition drop_group (n : nat) (g : groups) : groups :=
  filter (fun p => negb (fst p =? n)) g.

Definition erase_mobj (n : nat) (m : mobj) : mobj :=
  MObj (m_text m) (drop_group n (m_groups m)).

(** [extends v v']: [v'] is [v] after some checks, which only ever append
    to the two lists and leave the text alone. *)
Definition extends (v v' : Quality.validator) : Prop :=
  Quality.css v' = Quality.css v /\
  (exists i, Quality.issues v' = Quality.issues v ++ i) /\
  (exists w, Quality.warnings v' = Quality.warnings v ++ w).

End Shape.

(** * Properties *)

Import Re PostProcessor Py Quality Shape.

Unset Implicit Arguments.

Lemma text_eqb_eq a b : text_eqb a b = true <-> a = b.
Proof.
  unfold text_eqb. destruct (list_eq_dec ascii_dec a b); split; congruence.
Qed.

Lemma text_eqb_refl a : text_eqb a a = true.
Proof. apply text_eqb_eq. reflexivity. Qed.

Lemma mem_In x xs : mem x xs = true <-> In x xs.
Proof.
  unfold mem. rewrite existsb_exists. split.
  - intros [y [Hy He]]. apply text_eqb_eq in He. subst. exact Hy.
  - intros H. exists x. split; [exact H | apply text_eqb_refl].
Qed.

(** ** The matcher *)

Lemma strip_prefix_one a c t :
  strip_prefix (txt (String a EmptyString)) (c :: t) =
  if Ascii.eqb a c then Some t else None.
Proof. reflexivity. Qed.

Lemma strip_prefix_cons a p c s :
  strip_prefix (a :: p) (c :: s) =
  if Ascii.eqb a c then strip_prefix p s else None.
Proof. reflexivity. Qed.

Lemma strip_prefix_app p s : strip_prefix p (p ++ s) = Some s.
Proof.
  induction p as [|a p IH]; simpl; [reflexivity|].
  rewrite Ascii.eqb_refl. exact IH.
Qed.

Lemma strip_prefix_inv p s s' : strip_prefix p s = Some s' -> s = p ++ s'.
Proof.
  revert s. induction p as [|a p IH]; simpl; intros s H.
  - congruence.
  - destruct s as [|c s]; [discriminate|].
    destruct (Ascii.eqb a c) eqn:E; [|discriminate].
    apply Ascii.eqb_eq in E. subst c. f_equal. apply IH. exact H.
Qed.

Lemma strip_prefix_more_app p s s' z :
  strip_prefix p s = Some s' -> strip_prefix p (s ++ z) = Some (s' ++ z).
Proof.
  intros H. apply strip_prefix_inv in H. subst s.
  rewrite <- app_assoc. apply strip_prefix_app.
Qed.

Lemma taken_app a b : taken (a ++ b) b = a.
Proof.
  unfold taken. rewrite length_app.
  replace (length a + length b - length b) with (length a) by lia.
  rewrite firstn_app, firstn_all, Nat.sub_diag. simpl. apply app_nil_r.
Qed.

(** Greedy repetition in front of a continuation that refuses to start on a
    character of the class: the longest run is the only candidate. *)
Lemma rep_skip (A : Type) p (k : text -> option A) s :
  (forall c t, p c = true -> k (c :: t) = None) ->
  rep p 0 None s k = k (drop_while p s).
Proof.
  intros Hk. induction s as [|c s IH]; simpl; [reflexivity|].
  destruct (p c) eqn:Hp; simpl; [|reflexivity].
  rewrite IH. destruct (k (drop_while p s)); [reflexivity|].
  apply Hk. exact Hp.
Qed.

(** Greedy repetition takes a whole run when the continuation accepts what
    follows it. *)
Lemma rep_take (A : Type) p (k : text -> option A) w s lo x :
  Forall (fun c => p c = true) w -> lo <= length w ->
  k s = Some x ->
  match s with c :: _ => p c = false | [] => True end ->
  rep p lo None (w ++ s) k = Some x.
Proof.
  intros Hw. revert lo. induction Hw as [|a w Ha Hw IH]; intros lo Hlo Hk Hs.
  - simpl in Hlo. assert (lo = 0) by lia. subst lo. simpl.
    destruct s as [|c s]; simpl; [exact Hk|]. rewrite Hs. simpl. exact Hk.
  - simpl. rewrite Ha. simpl. rewrite IH; auto. simpl in Hlo. lia.
Qed.

(** The continuation only ever receives a suffix of the subject. *)
Lemma rep_suffix (A : Type) p lo hi s (k : text -> option A) x :
  rep p lo hi s k = Some x -> exists a s', s = a ++ s' /\ k s' = Some x.
Proof.
  revert lo hi. induction s as [|c s IH]; intros lo hi; simpl.
  - destruct lo; [|discriminate]. intros H. exists [], []. auto.
  - destruct (p c && more hi).
    + destruct (rep p (pred lo) (option_map pred hi) s k) eqn:E.
      * intros H. inversion H; subst. apply IH in E.
        destruct E as [a [s' [-> Hk]]]. exists (c :: a), s'. auto.
      * destruct lo; [|discriminate]. intros H. exists [], (c :: s). auto.
    + destruct lo; [|discriminate]. intros H. exists [], (c :: s). auto.
Qed.

Lemma exec_suffix r : forall (A : Type) s g (k : text -> groups -> option A) x,
  exec r s g k = Some x ->
  exists a s' g', s = a ++ s' /\ k s' g' = Some x.
Proof.
  induction r; intros A s0 g k x H; cbn [exec] in H.
  - destruct (strip_prefix s s0) eqn:E; [|discriminate].
    apply strip_prefix_inv in E. eauto.
  - destruct s0 as [|c s0]; [discriminate|].
    destruct (p c); [|discriminate]. exists [c], s0, g. auto.
  - apply rep_suffix in H. destruct H as [a [s' [-> Hk]]]. eauto.
  - apply IHr1 in H. destruct H as [a [s' [g' [-> H]]]].
    apply IHr2 in H. destruct H as [a2 [s2 [g2 [-> H]]]].
    exists (a ++ a2), s2, g2. rewrite app_assoc. auto.
  - destruct (exec r1 s0 g k) eqn:E.
    + inversion H; subst. eapply IHr1; eauto.
    + eapply IHr2; eauto.
  - destruct (exec r s0 g k) eqn:E.
    + inversion H; subst. eapply IHr; eauto.
    + exists [], s0, g. auto.
  - apply IHr in H. destruct H as [a [s' [g' [-> H]]]]. eauto.
  - destruct (exec r s0 g (fun _ _ => Some tt)); [discriminate|].
    exists [], s0, g. auto.
  - destruct s0 as [|c [|c' s0]].
    + exists [], [], g. auto.
    + destruct (Ascii.eqb newline c); [|discriminate]. exists [], [c], g. auto.
    + discriminate.
Qed.

(** A match object carries the text it consumed. *)
Lemma match_at_text r s m rest :
  match_at r s = Some (m, rest) -> s = m_text m ++ rest.
Proof.
  unfold match_at. intros H. apply exec_suffix in H.
  destruct H as [a [s' [g' [-> H]]]]. inversion H; subst. simpl.
  rewrite taken_app. reflexivity.
Qed.

(** Changing what the final continuation returns does not change which
    path the matcher takes. *)
Lemma rep_map (A B : Type) (f : A -> B) p s : forall lo hi (k : text -> option A),
  rep p lo hi s (fun s' => option_map f (k s')) = option_map f (rep p lo hi s k).
Proof.
  induction s as [|c s IH]; intros lo hi k; simpl.
  - destruct lo; reflexivity.
  - destruct (p c && more hi).
    + rewrite IH. destruct (rep p (pred lo) (option_map pred hi) s k); simpl;
        [reflexivity | destruct lo; reflexivity].
    + destruct lo; reflexivity.
Qed.

Lemma rep_ext (A : Type) p s : forall lo hi (k k' : text -> option A),
  (forall s', k s' = k' s') -> rep p lo hi s k = rep p lo hi s k'.
Proof.
  induction s as [|c s IH]; intros lo hi k k' Hk; simpl.
  - rewrite Hk. reflexivity.
  - rewrite (IH _ _ k k' Hk), Hk. reflexivity.
Qed.

Lemma exec_ext r : forall (A : Type) s g (k k' : text -> groups -> option A),
  (forall s' g', k s' g' = k' s' g') -> exec r s g k = exec r s g k'.
Proof.
  induction r; intros A s0 g k k' Hk; cbn [exec].
  - destruct (strip_prefix s s0); auto.
  - destruct s0; auto. destruct (p a); auto.
  - apply rep_ext. intros. apply Hk.
  - apply IHr1. intros. apply IHr2. exact Hk.
  - rewrite (IHr1 _ s0 g k k' Hk), (IHr2 _ s0 g k k' Hk). reflexivity.
  - rewrite (IHr _ s0 g k k' Hk), Hk. reflexivity.
  - apply IHr. intros. apply Hk.
  - rewrite Hk. reflexivity.
  - rewrite Hk. reflexivity.
Qed.

Lemma exec_map r : forall (A B : Type) (f : A -> B) s g
                          (k : text -> groups -> option A),
  exec r s g (fun s' g' => option_map f (k s' g')) = option_map f (exec r s g k).
Proof.
  induction r; intros A B f s0 g k; cbn [exec].
  - destruct (strip_prefix s s0); reflexivity.
  - destruct s0; [reflexivity|]. destruct (p a); reflexivity.
  - apply (rep_map _ _ f p s0 lo hi (fun s' => k s' g)).
  - rewrite <- IHr1. apply exec_ext. intros. apply IHr2.
  - rewrite IHr1, IHr2. destruct (exec r1 s0 g k); reflexivity.
  - rewrite IHr. destruct (exec r s0 g k); reflexivity.
  - rewrite <- IHr. reflexivity.
  - destruct (exec r s0 g (fun _ _ => Some tt)); reflexivity.
  - destruct s0 as [|c [|c' s0]]; try reflexivity.
    destruct (Ascii.eqb newline c); reflexivity.
Qed.

(** ** The scan *)

Lemma quiet_nil r y : quiet r [] y.
Proof.
  intros a b H Hb. symmetry in H. apply app_eq_nil in H. tauto.
Qed.

Lemma quiet_cons r c g y :
  match_at r ((c :: g) ++ y) = None -> quiet r g y -> quiet r (c :: g) y.
Proof.
  intros H Hq a b E Hb. destruct a as [|c' a]; simpl in E.
  - subst b. exact H.
  - inversion E; subst. eapply Hq; eauto.
Qed.

Lemma quiet_cons_inv r c g y :
  quiet r (c :: g) y -> match_at r ((c :: g) ++ y) = None /\ quiet r g y.
Proof.
  intros Hq. split.
  - apply (Hq [] (c :: g)); [reflexivity | discriminate].
  - intros a b E Hb. apply (Hq (c :: a) b); [simpl; congruence | exact Hb].
Qed.

Lemma quiet_app r a b y : quiet r a (b ++ y) -> quiet r b y -> quiet r (a ++ b) y.
Proof.
  induction a as [|c a IH]; intros Ha Hb; simpl; [exact Hb|].
  apply quiet_cons_inv in Ha. destruct Ha as [H Ha].
  apply quiet_cons.
  - simpl. rewrite <- app_assoc. exact H.
  - apply IH; assumption.
Qed.

Section Scan.

Variable r : regex.

(** Every match of [r] consumes at least one character. *)
Hypothesis r_consumes :
  forall s m rest, match_at r s = Some (m, rest) -> length rest < length s.

Lemma scan_fuel : forall n n' s,
  length s < n -> length s < n' -> scan n r s = scan n' r s.
Proof.
  induction n as [|n IH]; intros n' s Hn Hn'; [lia|].
  destruct n' as [|n']; [lia|]. simpl.
  destruct (match_at r s) as [[m rest]|] eqn:E.
  - apply r_consumes in E. rewrite (IH n' rest); [reflexivity | lia | lia].
  - destruct s as [|c s]; [reflexivity|]. simpl in Hn, Hn'.
    rewrite (IH n' s); [reflexivity | lia | lia].
Qed.

(** With enough fuel the scan is the leftmost, non-overlapping search. *)
Lemma scan_all_eq s :
  scan_all r s =
  match match_at r s with
  | Some (m, rest) => let '(ms, tl) := scan_all r rest in (([], m) :: ms, tl)
  | None =>
      match s with
      | [] => ([], [])
      | c :: s' => cons_gap c (scan_all r s')
      end
  end.
Proof.
  unfold scan_all at 1. simpl.
  destruct (match_at r s) as [[m rest]|] eqn:E.
  - apply r_consumes in E. unfold scan_all.
    rewrite (scan_fuel (length s) (S (length rest))); [reflexivity | lia | lia].
  - destruct s as [|c s]; reflexivity.
Qed.

Lemma scan_match s m rest :
  match_at r s = Some (m, rest) ->
  scan_all r s = (([], m) :: fst (scan_all r rest), snd (scan_all r rest)).
Proof.
  intros E. rewrite scan_all_eq, E. destruct (scan_all r rest); reflexivity.
Qed.

Lemma scan_gap g y : quiet r g y -> scan_all r (g ++ y) = prepend g (scan_all r y).
Proof.
  induction g as [|c g IH]; intros Hq.
  - simpl. destruct (scan_all r y) as [[|[gap m] ms] tl]; reflexivity.
  - apply quiet_cons_inv in Hq. destruct Hq as [H Hq].
    rewrite scan_all_eq, H. simpl. rewrite (IH Hq).
    destruct (scan_all r y) as [[|[gap m] ms] tl]; reflexivity.
Qed.

Lemma scan_nil_inv s tl : scan_all r s = ([], tl) -> tl = s /\ quiet r s [].
Proof.
  revert tl. induction s as [|c s IH]; intros tl H; rewrite scan_all_eq in H.
  - destruct (match_at r []) as [[m rest]|] eqn:E.
    + destruct (scan_all r rest); discriminate.
    + inversion H. split; [reflexivity | apply quiet_nil].
  - destruct (match_at r (c :: s)) as [[m rest]|] eqn:E.
    + destruct (scan_all r rest); discriminate.
    + destruct (scan_all r s) as [[|[gap m] ms] tl'] eqn:Es; simpl in H;
        [|discriminate].
      inversion H; subst. destruct (IH tl' eq_refl) as [-> Hq].
      split; [reflexivity|]. apply quiet_cons; [|exact Hq].
      rewrite app_nil_r. exact E.
Qed.

Lemma scan_cons_inv s g m ms tl :
  scan_all r s = ((g, m) :: ms, tl) ->
  exists rest,
    s = g ++ m_text m ++ rest /\ quiet r g (m_text m ++ rest) /\
    match_at r (m_text m ++ rest) = Some (m, rest) /\
    scan_all r rest = (ms, tl).
Proof.
  revert g. induction s as [|c s IH]; intros g H; rewrite scan_all_eq in H.
  - destruct (match_at r []) as [[m' rest]|] eqn:E; [|discriminate].
    apply r_consumes in E. simpl in E. lia.
  - destruct (match_at r (c :: s)) as [[m' rest]|] eqn:E.
    + destruct (scan_all r rest) as [ms' tl'] eqn:Es. inversion H; subst.
      exists rest. pose proof (match_at_text _ _ _ _ E) as Ht. simpl.
      rewrite <- Ht. repeat split; auto. apply quiet_nil.
    + destruct (scan_all r s) as [[|[gap m'] ms'] tl'] eqn:Es; simpl in H;
        [discriminate|].
      inversion H; subst.
      destruct (IH gap eq_refl) as [rest [Hs [Hq [Hm Hr]]]].
      exists rest. repeat split; auto.
      * simpl. congruence.
      * apply quiet_cons; [|exact Hq]. simpl. rewrite <- Hs. exact E.
Qed.

Lemma scan_all_nil : scan_all r [] = ([], []).
Proof.
  rewrite scan_all_eq. destruct (match_at r []) as [[m rest]|] eqn:E;
    [|reflexivity].
  apply r_consumes in E. simpl in E. lia.
Qed.

Lemma scan_quiet s : quiet r s [] -> scan_all r s = ([], s).
Proof.
  intros Hq. rewrite <- (app_nil_r s) at 1.
  rewrite (scan_gap _ _ Hq), scan_all_nil. simpl. rewrite app_nil_r. reflexivity.
Qed.

(** [re.sub], one step at a time. *)
Lemma sub_eq f s :
  sub r f s =
  match match_at r s with
  | Some (m, rest) => f m ++ sub r f rest
  | None =>
      match s with
      | [] => []
      | c :: s' => c :: sub r f s'
      end
  end.
Proof.
  unfold sub. rewrite scan_all_eq.
  destruct (match_at r s) as [[m rest]|].
  - destruct (scan_all r rest) as [ms tl]. simpl. rewrite <- app_assoc. reflexivity.
  - destruct s as [|c s]; [reflexivity|].
    destruct (scan_all r s) as [[|[gap m] ms] tl]; simpl; reflexivity.
Qed.

End Scan.

(** Two patterns that succeed at the same places, with the same text, give
    scans of the same shape. *)
Lemma scan_map (h : mobj -> mobj) r r' :
  (forall s, match_at r' s =
             option_map (fun x => (h (fst x), snd x)) (match_at r s)) ->
  forall n s,
    scan n r' s =
    (map (fun gm => (fst gm, h (snd gm))) (fst (scan n r s)), snd (scan n r s)).
Proof.
  intros Hm. induction n as [|n IH]; intros s; simpl; [reflexivity|].
  rewrite Hm. destruct (match_at r s) as [[m rest]|]; simpl.
  - rewrite IH. destruct (scan n r rest); reflexivity.
  - destruct s as [|c s]; [reflexivity|]. rewrite IH.
    destruct (scan n r s) as [[|[gap m] ms] tl]; reflexivity.
Qed.

Lemma match_at_grp n r s :
  match_at (Grp n r) s =
  option_map
    (fun x => (MObj (m_text (fst x)) ((n, m_text (fst x)) :: m_groups (fst x)),
               snd x))
    (match_at r s).
Proof.
  unfold match_at. cbn [exec]. rewrite <- exec_map. reflexivity.
Qed.

(** ** Matches are not empty *)

Lemma rep_suffix_min (A : Type) p s : forall lo hi (k : text -> option A) x,
  rep p lo hi s k = Some x ->
  exists a s', s = a ++ s' /\ lo <= length a /\ k s' = Some x.
Proof.
  induction s as [|c s IH]; intros lo hi k x; simpl.
  - destruct lo; [|discriminate]. intros H. exists [], []. auto.
  - destruct (p c && more hi).
    + destruct (rep p (pred lo) (option_map pred hi) s k) eqn:E.
      * intros H. inversion H; subst. apply IH in E.
        destruct E as [a [s' [-> [Hlen Hk]]]]. exists (c :: a), s'.
        repeat split; auto. simpl. lia.
      * destruct lo; [|discriminate]. intros H. exists [], (c :: s). auto.
    + destruct lo; [|discriminate]. intros H. exists [], (c :: s). auto.
Qed.

Lemma exec_consumes r : consumes r = true ->
  forall (A : Type) s g (k : text -> groups -> option A) x,
    exec r s g k = Some x ->
    exists a s' g', s = a ++ s' /\ a <> [] /\ k s' g' = Some x.
Proof.
  induction r; intros Hc A s0 g k x H; cbn [exec consumes] in H, Hc;
    try discriminate.
  - destruct s as [|c l]; [discriminate|].
    destruct (strip_prefix (c :: l) s0) as [s1|] eqn:E; [|discriminate].
    apply strip_prefix_inv in E. exists (c :: l), s1, g.
    repeat split; auto. discriminate.
  - destruct s0 as [|c s0]; [discriminate|].
    destruct (p c); [|discriminate]. exists [c], s0, g.
    repeat split; auto. discriminate.
  - apply rep_suffix_min in H. destruct H as [a [s' [-> [Hlen Hk]]]].
    exists a, s', g. repeat split; auto.
    apply Nat.ltb_lt in Hc. destruct a; [simpl in Hlen; lia | discriminate].
  - destruct (consumes r1) eqn:E1.
    + apply (IHr1 eq_refl) in H. destruct H as [a [s' [g' [-> [Ha H]]]]].
      apply exec_suffix in H. destruct H as [a2 [s2 [g2 [-> H]]]].
      exists (a ++ a2), s2, g2. rewrite app_assoc. repeat split; auto.
      destruct a; [congruence | discriminate].
    + simpl in Hc. apply exec_suffix in H.
      destruct H as [a [s' [g' [-> H]]]].
      apply (IHr2 Hc) in H. destruct H as [a2 [s2 [g2 [-> [Ha H]]]]].
      exists (a ++ a2), s2, g2. rewrite app_assoc. repeat split; auto.
      destruct a2; [congruence|]. intros E. apply app_eq_nil in E.
      destruct E; discriminate.
  - apply andb_true_iff in Hc. destruct Hc as [Hc1 Hc2].
    destruct (exec r1 s0 g k) eqn:E.
    + inversion H; subst. apply (IHr1 Hc1 _ _ _ _ _ E).
    + apply (IHr2 Hc2 _ _ _ _ _ H).
  - apply (IHr Hc) in H. destruct H as [a [s' [g' [-> [Ha H]]]]].
    exists a, s', ((n, taken (a ++ s') s') :: g'). auto.
Qed.

Lemma match_consumes r s m rest :
  consumes r = true ->
  match_at r s = Some (m, rest) -> length rest < length s.
Proof.
  intros Hc H. apply (exec_consumes r Hc) in H.
  destruct H as [a [s' [g' [-> [Ha H]]]]]. inversion H; subst.
  rewrite length_app. destruct a; [congruence | simpl; lia].
Qed.

(** Every pattern the program scans with consumes: the fuel of [scan_all]
    is enough for each of them. *)
Lemma scanned_patterns_consume :
  Forall (fun r => consumes r = true)
         [ PostProcessor.root_re; root_split_re; root_open_re; var_re;
           root_body_re; primary_re; var_usage_re; hardcoded_re ].
Proof. repeat constructor. Qed.

(** ** Runs of a character class *)

Lemma take_drop_while p s : s = take_while p s ++ drop_while p s.
Proof.
  induction s as [|c s IH]; simpl; [reflexivity|].
  destruct (p c); simpl; congruence.
Qed.

Lemma take_while_all p s : Forall (fun c => p c = true) (take_while p s).
Proof.
  induction s as [|c s IH]; simpl; [constructor|].
  destruct (p c) eqn:E; constructor; assumption.
Qed.

Lemma drop_while_run p w s :
  Forall (fun c => p c = true) w -> drop_while p (w ++ s) = drop_while p s.
Proof.
  induction 1 as [|a w Ha Hw IH]; simpl; [reflexivity|]. rewrite Ha. exact IH.
Qed.

Lemma drop_while_app_stop p b c y :
  p c = false -> drop_while p (b ++ c :: y) = drop_while p b ++ c :: y.
Proof.
  intros Hc. induction b as [|x b IH]; simpl.
  - rewrite Hc. reflexivity.
  - destruct (p x); [exact IH | reflexivity].
Qed.

(** A character that does not occur in [p] cannot be consumed by it. *)
Lemma strip_prefix_stop p : forall b c y s1,
  ~ In c p -> strip_prefix p (b ++ c :: y) = Some s1 ->
  exists b1, strip_prefix p b = Some b1 /\ s1 = b1 ++ c :: y.
Proof.
  induction p as [|a p IH]; intros b c y s1 Hc H.
  - simpl in H. inversion H; subst. exists b. auto.
  - destruct b as [|x b]; simpl in H |- *.
    + destruct (Ascii.eqb a c) eqn:E; [|discriminate].
      apply Ascii.eqb_eq in E. subst. exfalso. apply Hc. left. reflexivity.
    + destruct (Ascii.eqb a x); [|discriminate].
      apply (IH b c y s1); [|exact H]. intros Hin. apply Hc. right. exact Hin.
Qed.

(** ** Character classes *)

Lemma space_not_lbrace c : is_space c = true -> Ascii.eqb "{" c = false.
Proof.
  destruct c as [[] [] [] [] [] [] [] []]; vm_compute; congruence.
Qed.

Lemma non_rbrace c : non (is_chr "}") c = true -> Ascii.eqb "}" c = false.
Proof. unfold non, is_chr. apply negb_true_iff. Qed.

Lemma non_rbrace_false c : non (is_chr "}") c = false -> c = "}"%char.
Proof.
  unfold non, is_chr. intros H. apply negb_false_iff in H.
  apply Ascii.eqb_eq in H. congruence.
Qed.

Lemma stopper_spec c :
  stopper c = true ->
  is_space c = false /\ ~ In c (txt "root") /\ ~ In c (txt "{").
Proof.
  unfold stopper, is_chr. intros H. apply negb_true_iff in H.
  do 4 (apply orb_false_iff in H; destruct H as [H ?]).
  repeat match goal with
         | E : Ascii.eqb _ c = false |- _ => apply Ascii.eqb_neq in E
         end.
  split; [exact H|]. split; simpl; intuition congruence.
Qed.

(** ** The patterns on [:root] blocks, read as direct scanners *)

Lemma exec_root_open (A : Type) s g (k : text -> groups -> option A) :
  exec root_open_re s g k =
  match root_open s with Some s3 => k s3 g | None => None end.
Proof.
  unfold root_open_re, root_open. cbn [exec].
  destruct (strip_prefix (txt ":root") s) as [s1|]; [|reflexivity].
  rewrite rep_skip; [reflexivity|].
  intros c t Hc. rewrite strip_prefix_one, (space_not_lbrace _ Hc). reflexivity.
Qed.

Lemma exec_root (A : Type) s g (k : text -> groups -> option A) :
  exec PostProcessor.root_re s g k =
  match root_at s with Some rest => k rest g | None => None end.
Proof.
  unfold PostProcessor.root_re, root_at, root_open. cbn [exec].
  destruct (strip_prefix (txt ":root") s) as [s1|]; [|reflexivity].
  rewrite rep_skip.
  - destruct (strip_prefix (txt "{") (drop_while is_space s1)) as [s3|];
      [|reflexivity].
    rewrite rep_skip; [reflexivity|].
    intros c t Hc. rewrite strip_prefix_one, (non_rbrace _ Hc). reflexivity.
  - intros c t Hc. rewrite strip_prefix_one, (space_not_lbrace _ Hc). reflexivity.
Qed.

Lemma match_at_root_open s :
  match_at root_open_re s =
  match root_open s with
  | Some s3 => Some (MObj (taken s s3) [], s3)
  | None => None
  end.
Proof. unfold match_at. apply exec_root_open. Qed.

Lemma match_at_root s :
  match_at PostProcessor.root_re s =
  match root_at s with
  | Some rest => Some (MObj (taken s rest) [], rest)
  | None => None
  end.
Proof. unfold match_at. apply exec_root. Qed.

Lemma match_at_root_body_none s :
  match_at root_body_re s = None <-> root_at s = None.
Proof.
  unfold match_at, root_body_re, root_at, root_open. cbn [exec].
  destruct (strip_prefix (txt ":root") s) as [s1|]; [|tauto].
  rewrite rep_skip.
  - destruct (strip_prefix (txt "{") (drop_while is_space s1)) as [s3|];
      [|tauto].
    rewrite rep_skip.
    + destruct (strip_prefix (txt "}") (drop_while (non (is_chr "}")) s3));
        split; congruence.
    + intros c t Hc. rewrite strip_prefix_one, (non_rbrace _ Hc). reflexivity.
  - intros c t Hc. rewrite strip_prefix_one, (space_not_lbrace _ Hc). reflexivity.
Qed.

Lemma root_consumes s m rest :
  match_at PostProcessor.root_re s = Some (m, rest) -> length rest < length s.
Proof. apply match_consumes. reflexivity. Qed.

Lemma root_open_shape s s3 :
  root_open s = Some s3 ->
  exists w, Forall (fun c => is_space c = true) w /\
            s = txt ":root" ++ w ++ txt "{" ++ s3.
Proof.
  unfold root_open. intros H.
  destruct (strip_prefix (txt ":root") s) as [s1|] eqn:E1; [|discriminate].
  apply strip_prefix_inv in E1. apply strip_prefix_inv in H.
  exists (take_while is_space s1). split; [apply take_while_all|].
  rewrite E1. f_equal. rewrite <- H. apply take_drop_while.
Qed.

Lemma root_open_build w s3 :
  Forall (fun c => is_space c = true) w ->
  root_open (txt ":root" ++ w ++ txt "{" ++ s3) = Some s3.
Proof.
  intros Hw. unfold root_open. rewrite strip_prefix_app.
  rewrite drop_while_run by exact Hw. reflexivity.
Qed.

Lemma root_open_app s s3 z :
  root_open s = Some s3 -> root_open (s ++ z) = Some (s3 ++ z).
Proof.
  intros H. apply root_open_shape in H. destruct H as [w [Hw ->]].
  rewrite <- !app_assoc. apply root_open_build. exact Hw.
Qed.

(** An attempt that has begun and then meets a character it cannot use was
    already complete before that character. *)
Lemma root_open_stop x b c y s3 :
  stopper c = true -> root_open ((x :: b) ++ c :: y) = Some s3 ->
  exists b', root_open (x :: b) = Some b' /\ s3 = b' ++ c :: y.
Proof.
  intros Hc H. apply stopper_spec in Hc. destruct Hc as [Hs [Hr Hb]].
  unfold root_open in *.
  change (txt ":root") with (":"%char :: txt "root") in *.
  rewrite <- app_comm_cons, strip_prefix_cons in H. rewrite strip_prefix_cons.
  destruct (Ascii.eqb ":" x); [|discriminate].
  destruct (strip_prefix (txt "root") (b ++ c :: y)) as [s1|] eqn:E1;
    [|discriminate].
  apply strip_prefix_stop in E1; [|exact Hr].
  destruct E1 as [b1 [E1 ->]].
  rewrite E1. rewrite drop_while_app_stop in H by exact Hs.
  apply strip_prefix_stop in H; [|exact Hb].
  destruct H as [b' [H ->]]. exists b'. split; [exact H | reflexivity].
Qed.

Lemma root_at_shape s rest :
  root_at s = Some rest ->
  exists w body,
    Forall (fun c => is_space c = true) w /\
    Forall (fun c => non (is_chr "}") c = true) body /\
    s = txt ":root" ++ w ++ txt "{" ++ body ++ txt "}" ++ rest.
Proof.
  unfold root_at. intros H.
  destruct (root_open s) as [s3|] eqn:E; [|discriminate].
  apply root_open_shape in E. destruct E as [w [Hw ->]].
  apply strip_prefix_inv in H.
  exists w, (take_while (non (is_chr "}")) s3).
  split; [exact Hw|]. split; [apply take_while_all|].
  do 3 f_equal. rewrite <- H. apply take_drop_while.
Qed.

Lemma root_at_build w body rest :
  Forall (fun c => is_space c = true) w ->
  Forall (fun c => non (is_chr "}") c = true) body ->
  root_at (txt ":root" ++ w ++ txt "{" ++ body ++ txt "}" ++ rest) = Some rest.
Proof.
  intros Hw Hb. unfold root_at. rewrite root_open_build by exact Hw.
  rewrite drop_while_run by exact Hb. reflexivity.
Qed.

(** ** Duplicate [:root] blocks *)

Lemma root_at_of_open s s3 :
  root_open s = Some s3 -> In "}"%char s3 -> root_at s <> None.
Proof.
  intros Ho Hin. unfold root_at. rewrite Ho.
  assert (Hd : exists t, drop_while (non (is_chr "}")) s3 = "}"%char :: t).
  { clear Ho. induction s3 as [|c s3 IH]; [contradiction|]. simpl.
    destruct (non (is_chr "}") c) eqn:E.
    - destruct Hin as [->|Hin]; [discriminate E|]. apply IH. exact Hin.
    - apply non_rbrace_false in E. subst c. eauto. }
  destruct Hd as [t ->]. discriminate.
Qed.

(** An attempt that gets past a stopper does not depend on what the stopper
    and the text after it are, as long as a closing brace is to come. *)
Lemma root_at_transfer x b c y z :
  stopper c = true -> root_at ((x :: b) ++ c :: y) <> None ->
  In "}"%char z -> root_at ((x :: b) ++ z) <> None.
Proof.
  intros Hc H Hz. unfold root_at in H.
  destruct (root_open ((x :: b) ++ c :: y)) as [s3|] eqn:E; [|congruence].
  apply root_open_stop in E; [|exact Hc]. destruct E as [b' [E _]].
  apply root_at_of_open with (s3 := b' ++ z).
  - apply root_open_app. exact E.
  - apply in_or_app. right. exact Hz.
Qed.

Lemma match_root_none s : match_at PostProcessor.root_re s = None <-> root_at s = None.
Proof.
  rewrite match_at_root. destruct (root_at s); split; congruence.
Qed.

Lemma quiet_transfer g c y z :
  stopper c = true -> In "}"%char z ->
  quiet PostProcessor.root_re g z -> quiet PostProcessor.root_re g (c :: y).
Proof.
  intros Hc Hz Hq a b E Hb. destruct b as [|x b]; [congruence|].
  apply match_root_none.
  destruct (root_at ((x :: b) ++ c :: y)) eqn:Er; [|reflexivity].
  exfalso. apply root_at_transfer with (x:=x) (b:=b) (c:=c) (y:=y) (z:=z);
    auto; [congruence|].
  apply match_root_none. eapply Hq; eauto.
Qed.

Lemma quiet_marker z : quiet PostProcessor.root_re MARKER z.
Proof.
  unfold MARKER. cbn [txt list_ascii_of_string].
  repeat (apply quiet_cons; [apply match_root_none; reflexivity|]).
  apply quiet_nil.
Qed.

(** What a match of the block pattern looks like. *)
Lemma match_root_inv s m rest :
  match_at PostProcessor.root_re s = Some (m, rest) ->
  exists t0,
    m = MObj (t0 ++ txt "}") [] /\ s = t0 ++ txt "}" ++ rest /\
    root_open t0 <> None /\ root_at (t0 ++ txt "}") = Some [].
Proof.
  intros H. pose proof (match_at_text _ _ _ _ H) as Ht.
  rewrite match_at_root in H.
  destruct (root_at s) as [r|] eqn:E; [|discriminate].
  inversion H; subst r. clear H.
  apply root_at_shape in E. destruct E as [w [body [Hw [Hb ->]]]].
  exists (txt ":root" ++ w ++ txt "{" ++ body).
  assert (Hm : taken (txt ":root" ++ w ++ txt "{" ++ body ++ txt "}" ++ rest) rest
               = (txt ":root" ++ w ++ txt "{" ++ body) ++ txt "}").
  { replace (txt ":root" ++ w ++ txt "{" ++ body ++ txt "}" ++ rest)
      with (((txt ":root" ++ w ++ txt "{" ++ body) ++ txt "}") ++ rest)
      by (rewrite <- !app_assoc; reflexivity).
    apply taken_app. }
  rewrite Hm. repeat split.
  - rewrite <- !app_assoc. reflexivity.
  - rewrite root_open_build by exact Hw. discriminate.
  - replace ((txt ":root" ++ w ++ txt "{" ++ body) ++ txt "}")
      with (txt ":root" ++ w ++ txt "{" ++ body ++ txt "}" ++ [])
      by (rewrite <- !app_assoc; reflexivity).
    apply root_at_build; assumption.
Qed.

Lemma scan_root_split s :
  scan_all root_split_re s =
  (map (fun gm => (fst gm,
                   MObj (m_text (snd gm))
                        ((1, m_text (snd gm)) :: m_groups (snd gm))))
       (fst (scan_all PostProcessor.root_re s)),
   snd (scan_all PostProcessor.root_re s)).
Proof.
  unfold scan_all, root_split_re.
  apply (scan_map (fun m => MObj (m_text m) ((1, m_text m) :: m_groups m))).
  intros s'. apply match_at_grp.
Qed.

Lemma split_parts css :
  split1 root_split_re css =
  flat_map (fun gm => [fst gm; m_text (snd gm)])
           (fst (scan_all PostProcessor.root_re css))
  ++ [snd (scan_all PostProcessor.root_re css)].
Proof.
  unfold split1. rewrite scan_root_split. f_equal.
  induction (fst (scan_all PostProcessor.root_re css)) as [|[g m] ms IH];
    simpl; [reflexivity|].
  rewrite IH. unfold group_or_empty, group. simpl. reflexivity.
Qed.

Lemma unscanned_scan s :
  s = unscanned (fst (scan_all PostProcessor.root_re s))
                (snd (scan_all PostProcessor.root_re s)).
Proof.
  remember (length s) as n eqn:Hn. revert s Hn.
  induction n as [n IH] using lt_wf_ind. intros s Hn.
  destruct (scan_all PostProcessor.root_re s) as [[|[g m] ms] tl] eqn:E.
  - apply (@scan_nil_inv _ root_consumes) in E. destruct E as [-> _]. reflexivity.
  - apply (@scan_cons_inv _ root_consumes) in E.
    destruct E as [rest [Hs [_ [Hm Hr]]]].
    pose proof (root_consumes _ _ _ Hm) as Hlen.
    unfold unscanned. simpl. rewrite <- !app_assoc.
    rewrite Hs at 1. do 2 f_equal.
    assert (Hlt : length rest < n).
    { subst n. rewrite Hs, !length_app. rewrite length_app in Hlen. lia. }
    pose proof (IH _ Hlt rest eq_refl) as IH'. rewrite Hr in IH'. exact IH'.
Qed.

Lemma step_gap kf acc g :
  root_open g = None -> strip_step (kf, acc) g = (kf, acc ++ [g]).
Proof.
  intros H. unfold strip_step. rewrite match_at_root_open, H. reflexivity.
Qed.

Lemma step_block kf acc t :
  root_open t <> None ->
  strip_step (kf, acc) t = (true, acc ++ [if kf then MARKER else t]).
Proof.
  intros H. unfold strip_step. rewrite match_at_root_open.
  destruct (root_open t); [|congruence]. destruct kf; reflexivity.
Qed.

Lemma step_tail acc tl :
  strip_step (true, acc) tl = (true, acc ++ [tail_part tl]).
Proof.
  unfold strip_step, tail_part. rewrite match_at_root_open.
  destruct (root_open tl); reflexivity.
Qed.

(** The text before a block does not itself open a block. *)
Lemma gap_not_open g t0 rest :
  quiet PostProcessor.root_re g (t0 ++ txt "}" ++ rest) -> root_open g = None.
Proof.
  intros Hq. destruct g as [|x b]; [reflexivity|].
  destruct (root_open (x :: b)) as [b'|] eqn:E; [|reflexivity].
  exfalso.
  apply root_at_of_open with (s:=(x :: b) ++ t0 ++ txt "}" ++ rest)
                              (s3:=b' ++ t0 ++ txt "}" ++ rest).
  - apply root_open_app. exact E.
  - apply in_or_app. right. apply in_or_app. right. left. reflexivity.
  - apply match_root_none. apply (Hq [] (x :: b)); [reflexivity|discriminate].
Qed.

Lemma fold_rest : forall ms X tl acc,
  scan_all PostProcessor.root_re X = (ms, tl) ->
  fold_left strip_step
            (flat_map (fun gm => [fst gm; m_text (snd gm)]) ms ++ [tl])
            (true, acc) =
  (true, acc ++ flat_map (fun gm => [fst gm; MARKER]) ms ++ [tail_part tl]).
Proof.
  induction ms as [|[g m] ms IH]; intros X tl acc H.
  - cbn [flat_map app fold_left]. rewrite step_tail. reflexivity.
  - apply (@scan_cons_inv _ root_consumes) in H.
    destruct H as [rest [Hs [Hq [Hm Hr]]]].
    apply match_root_inv in Hm. destruct Hm as [t0 [-> [_ [Ho _]]]].
    cbn [m_text] in Hq. rewrite <- app_assoc in Hq.
    cbn [flat_map app fold_left fst snd m_text].
    rewrite (@step_gap _ _ _ (@gap_not_open _ _ _ Hq)).
    rewrite step_block.
    + rewrite (IH rest tl _ Hr). rewrite <- !app_assoc. reflexivity.
    + destruct (root_open t0) as [b'|] eqn:E; [|congruence].
      rewrite (@root_open_app _ _ _ E). discriminate.
Qed.

Lemma concat_rest ms tp :
  concat (flat_map (fun gm : text * mobj => [fst gm; MARKER]) ms ++ [tp]) =
  concat (map (fun gm => fst gm ++ MARKER) ms) ++ tp.
Proof.
  induction ms as [|[g m] ms IH]; simpl.
  - apply app_nil_r.
  - rewrite IH, <- !app_assoc. reflexivity.
Qed.

(** The effect of step 1, read off the scan of the input. *)
Lemma strip_shape css :
  strip_duplicate_roots css =
  match fst (scan_all PostProcessor.root_re css) with
  | (g0, m1) :: ((_ :: _) as ms) =>
      g0 ++ m_text m1 ++
      stripped_rest ms (snd (scan_all PostProcessor.root_re css))
  | _ => css
  end.
Proof.
  unfold strip_duplicate_roots, findall0, finditer.
  rewrite !length_map, split_parts.
  destruct (scan_all PostProcessor.root_re css) as [ms tail] eqn:E.
  cbn [fst snd].
  destruct ms as [|[g0 m1] [|gm2 ms]]; try reflexivity.
  change (1 <? length ((g0, m1) :: gm2 :: ms)) with true. cbv iota.
  remember (gm2 :: ms) as ms' eqn:Ems.
  apply (@scan_cons_inv _ root_consumes) in E.
  destruct E as [rest [Hs [Hq [Hm Hr]]]].
  apply match_root_inv in Hm. destruct Hm as [t0 [-> [_ [Ho _]]]].
  cbn [m_text] in Hq. rewrite <- app_assoc in Hq.
  cbn [flat_map fst snd app fold_left m_text].
  rewrite (@step_gap _ _ _ (@gap_not_open _ _ _ Hq)).
  rewrite step_block.
  - rewrite (@fold_rest _ _ _ _ Hr). cbn [snd app concat].
    rewrite concat_rest. unfold stripped_rest. reflexivity.
  - destruct (root_open t0) as [b'|] eqn:E; [|congruence].
    rewrite (@root_open_app _ _ _ E). discriminate.
Qed.

Lemma root_at_app s r z : root_at s = Some r -> root_at (s ++ z) = Some (r ++ z).
Proof.
  intros H. apply root_at_shape in H. destruct H as [w [body [Hw [Hb ->]]]].
  rewrite <- !app_assoc. apply root_at_build; assumption.
Qed.

Lemma colon_stopper : stopper ":" = true.
Proof. reflexivity. Qed.

Lemma marker_head : exists y, MARKER = "/"%char :: y /\ stopper "/" = true.
Proof. eexists. split; reflexivity. Qed.

(** Once the duplicates are replaced, nothing after the kept block matches. *)
Lemma quiet_stripped_rest : forall ms X tail,
  scan_all PostProcessor.root_re X = (ms, tail) ->
  quiet PostProcessor.root_re (stripped_rest ms tail) [].
Proof.
  induction ms as [|[g m] ms IH]; intros X tail H; unfold stripped_rest.
  - apply (@scan_nil_inv _ root_consumes) in H. destruct H as [-> Hq].
    simpl. unfold tail_part. destruct (root_open X); [apply quiet_marker | exact Hq].
  - apply (@scan_cons_inv _ root_consumes) in H.
    destruct H as [rest [Hs [Hq [Hm Hr]]]].
    apply match_root_inv in Hm. destruct Hm as [t0 [-> _]].
    cbn [m_text] in Hq. cbn [map concat fst].
    rewrite <- !app_assoc.
    apply quiet_app; [|apply quiet_app].
    + destruct marker_head as [y [-> Hst]]. rewrite <- app_comm_cons.
      apply quiet_transfer with (z := (t0 ++ txt "}") ++ rest); auto.
      apply in_or_app. left. apply in_or_app. right. left. reflexivity.
    + apply quiet_marker.
    + apply (IH rest tail Hr).
Qed.

(** The scan of the output of step 1, when the input had two blocks or more:
    the first block is found where it was, and nothing else. *)
Lemma scan_stripped css g0 m1 gm2 ms tail :
  scan_all PostProcessor.root_re css = ((g0, m1) :: gm2 :: ms, tail) ->
  scan_all PostProcessor.root_re
           (g0 ++ m_text m1 ++ stripped_rest (gm2 :: ms) tail) =
  ([(g0, m1)], stripped_rest (gm2 :: ms) tail).
Proof.
  intros H. apply (@scan_cons_inv _ root_consumes) in H.
  destruct H as [rest [Hs [Hq [Hm Hr]]]].
  pose proof (@quiet_stripped_rest _ _ _ Hr) as Hsr.
  set (SR := stripped_rest (gm2 :: ms) tail) in *.
  apply match_root_inv in Hm. destruct Hm as [t0 [-> [_ [Ho Hat]]]].
  cbn [m_text] in *.
  assert (Hq' : quiet PostProcessor.root_re g0 ((t0 ++ txt "}") ++ SR)).
  { destruct (root_open t0) as [b'|] eqn:E; [|congruence].
    apply root_open_shape in E. destruct E as [w [_ ->]].
    change (txt ":root") with (":"%char :: txt "root") in *.
    rewrite <- !app_comm_cons in *.
    apply quiet_transfer
      with (z := ":"%char :: ((txt "root" ++ w ++ txt "{" ++ b') ++ txt "}") ++ rest).
    - apply colon_stopper.
    - right. apply in_or_app. left. apply in_or_app. right. left. reflexivity.
    - exact Hq. }
  rewrite (@scan_gap _ root_consumes _ _ Hq').
  assert (Hm' : match_at PostProcessor.root_re ((t0 ++ txt "}") ++ SR)
                = Some (MObj (t0 ++ txt "}") [], SR)).
  { rewrite match_at_root, (@root_at_app _ _ SR Hat). simpl app.
    rewrite taken_app. reflexivity. }
  rewrite (@scan_match _ root_consumes _ _ _ Hm').
  rewrite (@scan_quiet _ root_consumes _ Hsr).
  cbn [prepend fst snd]. rewrite app_nil_r. reflexivity.
Qed.

(** C1.  Step 1 of [post_process_css] on an input in which the block
    pattern finds N blocks.  For N >= 2 the output is the input with the first
    block kept where it was and each of the N-1 later blocks replaced, in
    place, by the marker comment (gaps between blocks are kept, see
    [stripped_rest]; the text after the last block is kept too unless it opens
    an unterminated [:root {], which gets the marker as well, see
    [tail_part]); the block pattern then finds exactly one block in the
    output, the first block of the input.  For N <= 1 the output is the
    input. *)
Theorem strip_keeps_first_root_only css :
  match scan_all PostProcessor.root_re css with
  | ((g0, m1) :: ((_ :: _) as ms), tail) =>
      css = g0 ++ m_text m1 ++ unscanned ms tail /\
      strip_duplicate_roots css = g0 ++ m_text m1 ++ stripped_rest ms tail /\
      scan_all PostProcessor.root_re (strip_duplicate_roots css) =
        ([(g0, m1)], stripped_rest ms tail) /\
      findall0 PostProcessor.root_re (strip_duplicate_roots css) = [m_text m1]
  | _ => strip_duplicate_roots css = css
  end.
Proof.
  pose proof (strip_shape css) as Hshape.
  pose proof (unscanned_scan css) as Hin.
  destruct (scan_all PostProcessor.root_re css) as [ms tail] eqn:E.
  cbn [fst snd] in Hshape, Hin.
  destruct ms as [|[g0 m1] [|gm2 ms]]; try exact Hshape.
  pose proof (scan_stripped _ _ _ _ _ _ E) as Hout. rewrite <- Hshape in Hout.
  repeat split.
  - rewrite Hin at 1. unfold unscanned. cbn [map concat fst snd].
    rewrite <- !app_assoc. reflexivity.
  - exact Hshape.
  - exact Hout.
  - unfold findall0, finditer. rewrite Hout. reflexivity.
Qed.

(** ** Re-running step 1 *)

(** The duplicate-stripping step is idempotent: applied to its own output
    it changes nothing, because that output has at most one block. *)
Lemma strip_duplicate_roots_idempotent css :
  strip_duplicate_roots (strip_duplicate_roots css) = strip_duplicate_roots css.
Proof.
  pose proof (strip_shape css) as Hshape.
  destruct (scan_all PostProcessor.root_re css) as [ms tail] eqn:E.
  cbn [fst snd] in Hshape.
  destruct ms as [|[g0 m1] [|gm2 ms]].
  - rewrite Hshape. exact Hshape.
  - rewrite Hshape. exact Hshape.
  - pose proof (scan_stripped _ _ _ _ _ _ E) as Hout. rewrite <- Hshape in Hout.
    rewrite (strip_shape (strip_duplicate_roots css)), Hout. reflexivity.
Qed.

(** ** The reference pattern *)

Lemma var_consumes s m rest :
  match_at var_re s = Some (m, rest) -> length rest < length s.
Proof. apply match_consumes. reflexivity. Qed.

Lemma space_not_name c : is_space c = true -> is_name_chr c = false.
Proof.
  destruct c as [[] [] [] [] [] [] [] []]; vm_compute; congruence.
Qed.

Lemma head_after_spaces (p : ascii -> bool) w c s :
  all is_space w -> (forall x, is_space x = true -> p x = false) ->
  p c = false ->
  match w ++ c :: s with x :: _ => p x = false | [] => True end.
Proof.
  intros Hw Hp Hc. destruct Hw as [|a w Ha Hw]; simpl; auto.
Qed.

(** The rest of the pattern after the name and the spaces that follow it:
    [(?:,\s*([^)]+))?\s*\)]. *)
Lemma exec_var_tail (A : Type) fb post g (k : text -> groups -> option A) x :
  match fb with
  | Some (w3, fallback) =>
      all is_space w3 /\ all (non (is_chr ")")) fallback /\
      match fallback with c :: _ => is_space c = false | [] => False end
  | None => True
  end ->
  k post (match fb with
          | Some (_, fallback) => (2, fallback) :: g
          | None => g
          end) = Some x ->
  exec (Opt (Lit (txt ",") >> Rep is_space 0 None >>
             Grp 2 (Rep (non (is_chr ")")) 1 None)) >>
        Rep is_space 0 None >> Lit (txt ")"))
       (match fb with
        | Some (w3, fallback) => txt "," ++ w3 ++ fallback
        | None => []
        end ++ txt ")" ++ post) g k = Some x.
Proof.
  intros Hfb Hk. destruct fb as [[w3 fallback]|].
  - destruct Hfb as [Hw3 [Hfb Hc]]. cbn [exec].
    rewrite <- !app_assoc. rewrite strip_prefix_app.
    erewrite rep_take; [reflexivity | exact Hw3 | apply Nat.le_0_l | |].
    + erewrite rep_take; [reflexivity | exact Hfb | | | reflexivity].
      * destruct fallback; [contradiction | simpl; lia].
      * rewrite taken_app. simpl. exact Hk.
    + destruct fallback as [|c fallback]; [contradiction | exact Hc].
  - cbn [exec]. simpl. exact Hk.
Qed.

(** The pattern on a reference at the head of the subject: the match ends
    at the first closing parenthesis, whatever follows. *)
Lemma var_match w1 name w2 fb post :
  reference_ok w1 name w2 fb ->
  match_at var_re (reference w1 name w2 fb ++ post) =
  Some (MObj (reference w1 name w2 fb) (reference_groups name fb), post).
Proof.
  intros [Hw1 [[n [-> [Hn Hname]]] [Hw2 Hfb]]].
  unfold match_at, var_re.
  set (subject := reference w1 (txt "--ctc-" ++ n) w2 fb ++ post).
  set (opt := match fb with
              | Some (w3, fallback) => txt "," ++ w3 ++ fallback
              | None => []
              end).
  assert (Hsub : subject =
                 txt "var(" ++ w1 ++ txt "--ctc-" ++ n ++ w2 ++ opt ++ txt ")" ++ post).
  { unfold subject, reference. fold opt. rewrite <- !app_assoc. reflexivity. }
  assert (Hhead : exists c t, opt ++ txt ")" ++ post = c :: t /\
                              is_space c = false /\ is_name_chr c = false).
  { unfold opt. destruct fb as [[w3 fallback]|]; eexists; eexists;
      (split; [reflexivity | split; reflexivity]). }
  destruct Hhead as [c [t [Hopt [Hcs Hcn]]]].
  cbn [exec]. rewrite Hsub at 1. rewrite strip_prefix_app.
  erewrite rep_take; [reflexivity | exact Hw1 | apply Nat.le_0_l | | reflexivity].
  rewrite strip_prefix_app.
  erewrite rep_take; [reflexivity | exact Hname | | |].
  - destruct n; [congruence | simpl; lia].
  - erewrite rep_take; [reflexivity | exact Hw2 | apply Nat.le_0_l | |].
    + apply (exec_var_tail _ fb post
               [(1, taken (txt "--ctc-" ++ n ++ w2 ++ opt ++ txt ")" ++ post)
                          (w2 ++ opt ++ txt ")" ++ post))]
               (fun s' g => Some (MObj (taken subject s') g, s')) _ Hfb).
      unfold subject. rewrite taken_app.
      replace (txt "--ctc-" ++ n ++ w2 ++ opt ++ txt ")" ++ post)
        with ((txt "--ctc-" ++ n) ++ w2 ++ opt ++ txt ")" ++ post)
        by (rewrite <- !app_assoc; reflexivity).
      rewrite taken_app. unfold reference_groups.
      clear. destruct fb as [[w3 fallback]|]; reflexivity.
    + rewrite Hopt. exact Hcs.
  - rewrite Hopt. apply head_after_spaces; auto. apply space_not_name.
Qed.

Lemma sub_reaches r f pre out s :
  (forall s m rest, match_at r s = Some (m, rest) -> length rest < length s) ->
  reaches r f pre out s ->
  sub r f (pre ++ s) = out ++ sub r f s.
Proof.
  intros Hc H. induction H as [s | c pre out s Hn H IH | m pre1 pre2 out s Hm H IH].
  - reflexivity.
  - rewrite (sub_eq r Hc). simpl. rewrite Hn, IH. reflexivity.
  - rewrite (sub_eq r Hc). rewrite <- app_assoc, Hm, IH, app_assoc. reflexivity.
Qed.

Lemma normalize_vars_at w1 name w2 fb post :
  reference_ok w1 name w2 fb ->
  normalize_vars (reference w1 name w2 fb ++ post) =
  normalize_var (MObj (reference w1 name w2 fb) (reference_groups name fb))
  ++ normalize_vars post.
Proof.
  intros Hok. unfold normalize_vars.
  rewrite (sub_eq var_re var_consumes), (var_match _ _ _ _ post Hok). reflexivity.
Qed.

Lemma normalize_var_literal t name fb literal :
  lookup name NORMALIZATION_MAP = Some literal ->
  startswith (txt "--") literal = false ->
  normalize_var (MObj t (reference_groups name fb)) = literal.
Proof.
  intros Hl Hs. unfold normalize_var.
  assert (Hg : group_or_empty (MObj t (reference_groups name fb)) 1 = name)
    by (destruct fb as [[w3 fallback]|]; reflexivity).
  rewrite Hg, Hl, Hs. reflexivity.
Qed.

Lemma normalize_var_canonical t name w3 c fallback canonical :
  lookup name NORMALIZATION_MAP = Some canonical ->
  startswith (txt "--") canonical = true ->
  normalize_var (MObj t (reference_groups name (Some (w3, c :: fallback)))) =
  txt "var(" ++ canonical ++ txt ", " ++ (c :: fallback) ++ txt ")".
Proof.
  intros Hl Hs. unfold normalize_var.
  change (group_or_empty _ 1) with name. rewrite Hl, Hs. reflexivity.
Qed.

(** C5, as amended.  Whenever the scan arrives at a reference (with or
    without fallback) whose name the table maps to a literal, the text of the
    reference, from [var(] to the first closing parenthesis, is replaced by
    the literal alone, and the scan resumes after that parenthesis. *)
Theorem normalize_literal_collapse pre out w1 name w2 fb post literal :
  reaches var_re normalize_var pre out (reference w1 name w2 fb ++ post) ->
  reference_ok w1 name w2 fb ->
  lookup name NORMALIZATION_MAP = Some literal ->
  startswith (txt "--") literal = false ->
  normalize_vars (pre ++ reference w1 name w2 fb ++ post) =
  out ++ literal ++ normalize_vars post.
Proof.
  intros Hr Hok Hl Hs.
  unfold normalize_vars at 1.
  rewrite (sub_reaches var_re normalize_var _ _ _ var_consumes Hr).
  fold (normalize_vars (reference w1 name w2 fb ++ post)).
  rewrite (normalize_vars_at _ _ _ _ _ Hok).
  rewrite (normalize_var_literal _ _ _ _ Hl Hs). reflexivity.
Qed.

(** C6, as amended.  Whenever the scan arrives at a reference with a
    fallback whose name the table maps to a canonical name, it is rewritten to
    [var(<canonical>, <fallback>)]: the fallback text is carried over byte for
    byte (the spaces around the name and before the fallback become the fixed
    separator), and the scan resumes after the closing parenthesis. *)
Theorem normalize_canonical_keeps_fallback
        pre out w1 name w2 w3 fallback post canonical :
  reaches var_re normalize_var pre out
          (reference w1 name w2 (Some (w3, fallback)) ++ post) ->
  reference_ok w1 name w2 (Some (w3, fallback)) ->
  lookup name NORMALIZATION_MAP = Some canonical ->
  startswith (txt "--") canonical = true ->
  normalize_vars (pre ++ reference w1 name w2 (Some (w3, fallback)) ++ post) =
  out ++ (txt "var(" ++ canonical ++ txt ", " ++ fallback ++ txt ")")
      ++ normalize_vars post.
Proof.
  intros Hr Hok Hl Hs.
  unfold normalize_vars at 1.
  rewrite (sub_reaches var_re normalize_var _ _ _ var_consumes Hr).
  fold (normalize_vars (reference w1 name w2 (Some (w3, fallback)) ++ post)).
  rewrite (normalize_vars_at _ _ _ _ _ Hok).
  destruct fallback as [|c fallback]; [destruct Hok as [_ [_ [_ [_ [_ []]]]]]|].
  rewrite (normalize_var_canonical _ _ _ _ _ _ Hl Hs). reflexivity.
Qed.

(** C3, as amended.  The scanner does not track parenthesis depth: on a
    reference with a fallback the match ends at the first closing parenthesis
    after the comma, whatever text [post] comes next.  [group(2)] is the
    fallback up to that parenthesis, and [post] (which may start with the rest
    of a nested expression) is scanned afresh after the callback has replaced
    the matched text. *)
Theorem fallback_ends_at_first_paren w1 name w2 w3 fallback post :
  reference_ok w1 name w2 (Some (w3, fallback)) ->
  exists m,
    match_at var_re (reference w1 name w2 (Some (w3, fallback)) ++ post) =
      Some (m, post) /\
    m_text m = reference w1 name w2 (Some (w3, fallback)) /\
    group m 1 = Some name /\ group m 2 = Some fallback /\
    normalize_vars (reference w1 name w2 (Some (w3, fallback)) ++ post) =
      normalize_var m ++ normalize_vars post.
Proof.
  intros Hok. eexists. split; [apply var_match; exact Hok|].
  repeat split. apply normalize_vars_at. exact Hok.
Qed.

Ltac reach_by_skips :=
  cbn [txt list_ascii_of_string];
  repeat (apply reach_skip; [vm_compute; reflexivity|]);
  apply reach_here.

Ltac reference_is_ok n :=
  unfold reference_ok, all; cbn [txt list_ascii_of_string];
  repeat split; try (exists (txt n)); cbn [txt list_ascii_of_string];
  repeat split; try discriminate; repeat constructor.

Lemma normalize_literal_collapse_witness :
  normalize_vars (txt "a{margin:var(--ctc-spacing-0)}") = txt "a{margin:0}".
Proof.
  change (txt "a{margin:var(--ctc-spacing-0)}")
    with (txt "a{margin:" ++
          reference [] (txt "--ctc-spacing-0") [] None ++ txt "}").
  rewrite (normalize_literal_collapse
             (txt "a{margin:") (txt "a{margin:")
             [] (txt "--ctc-spacing-0") [] None (txt "}") (txt "0")).
  - reflexivity.
  - reach_by_skips.
  - reference_is_ok "spacing-0"%string.
  - reflexivity.
  - reflexivity.
Defined.

(** The claim of C5 fails as stated: a fallback that has a closing
    parenthesis of its own is only replaced up to it, and a reference inside
    the fallback of an earlier match is not replaced at all. *)
Lemma literal_collapse_incomplete :
  normalize_vars (txt "var(--ctc-spacing-0, var(--ctc-primary))") = txt "0)" /\
  normalize_vars (txt "var(--ctc-primary, var(--ctc-spacing-0))") =
    txt "var(--ctc-primary, var(--ctc-spacing-0))".
Proof. split; vm_compute; reflexivity. Qed.

Lemma normalize_canonical_keeps_fallback_witness :
  normalize_vars (txt "a{color:var(--ctc-neutral-700, #333)}") =
  txt "a{color:var(--ctc-neutral-dark, #333)}".
Proof.
  change (txt "a{color:var(--ctc-neutral-700, #333)}")
    with (txt "a{color:" ++
          reference [] (txt "--ctc-neutral-700") []
                    (Some (txt " ", txt "#333")) ++ txt "}").
  rewrite (normalize_canonical_keeps_fallback
             (txt "a{color:") (txt "a{color:")
             [] (txt "--ctc-neutral-700") [] (txt " ") (txt "#333") (txt "}")
             (txt "--ctc-neutral-dark")).
  - reflexivity.
  - reach_by_skips.
  - reference_is_ok "neutral-700"%string.
  - reflexivity.
  - reflexivity.
Defined.

(** The claim of C6 fails as stated: a reference that lies in the fallback
    of an earlier match is part of that match and is never visited, although
    its name is in the table. *)
Lemma nested_reference_not_rewritten :
  lookup (txt "--ctc-neutral-700") NORMALIZATION_MAP =
    Some (txt "--ctc-neutral-dark") /\
  normalize_vars (txt "var(--ctc-primary, var(--ctc-neutral-700, #333))") =
    txt "var(--ctc-primary, var(--ctc-neutral-700, #333))".
Proof. split; vm_compute; reflexivity. Qed.

Lemma fallback_ends_at_first_paren_witness :
  exists m,
    match_at var_re (txt "var(--ctc-spacing-1, calc(1px + 2px))") =
      Some (m, txt ")") /\
    m_text m = txt "var(--ctc-spacing-1, calc(1px + 2px)" /\
    group m 1 = Some (txt "--ctc-spacing-1") /\
    group m 2 = Some (txt "calc(1px + 2px") /\
    normalize_vars (txt "var(--ctc-spacing-1, calc(1px + 2px))") =
      normalize_var m ++ normalize_vars (txt ")").
Proof.
  apply (fallback_ends_at_first_paren
           [] (txt "--ctc-spacing-1") [] (txt " ") (txt "calc(1px + 2px")
           (txt ")")).
  reference_is_ok "spacing-1"%string.
Defined.

(** The claim of C3 fails as stated: the fallback extracted from a nested
    call stops at the first closing parenthesis, and a reference whose
    fallback has an unbalanced parenthesis is rewritten like any other. *)
Lemma nested_fallback_is_cut :
  option_map (fun x => group (fst x) 2)
             (match_at var_re (txt "var(--ctc-spacing-1, var(--ctc-primary))")) =
    Some (Some (txt "var(--ctc-primary")) /\
  normalize_vars (txt "var(--ctc-spacing-0, var(--ctc-primary))") = txt "0)" /\
  normalize_vars (txt "var(--ctc-spacing-1, calc(1px)") =
    txt "var(--ctc-spacing-xs, calc(1px)".
Proof. repeat split; vm_compute; reflexivity. Qed.

(** The claim of C8 fails as stated: the whole pass is not idempotent.
    Collapsing a reference to its literal can complete a reference that a
    second pass collapses in turn. *)
Lemma post_process_css_not_idempotent :
  post_process_css (txt "var(--ctc-spacing-var(--ctc-spacing-0))") =
    txt "var(--ctc-spacing-0)" /\
  post_process_css
    (post_process_css (txt "var(--ctc-spacing-var(--ctc-spacing-0))")) = txt "0".
Proof. split; vm_compute; reflexivity. Qed.

(** ** Every match of the reference pattern *)

Lemma rep_inv (A : Type) p s : forall lo hi (k : text -> option A) x,
  rep p lo hi s k = Some x ->
  exists a s', s = a ++ s' /\ all p a /\ lo <= length a /\ k s' = Some x.
Proof.
  induction s as [|c s IH]; intros lo hi k x; simpl.
  - destruct lo; [|discriminate]. intros H. exists [], [].
    repeat split; auto. constructor.
  - destruct (p c && more hi) eqn:Hp.
    + destruct (rep p (pred lo) (option_map pred hi) s k) eqn:E.
      * intros H. inversion H; subst. apply IH in E.
        destruct E as [a [s' [-> [Ha [Hlen Hk]]]]]. exists (c :: a), s'.
        apply andb_true_iff in Hp. destruct Hp as [Hp _].
        repeat split; auto; [constructor; assumption | simpl; lia].
      * destruct lo; [|discriminate]. intros H. exists [], (c :: s).
        repeat split; auto. constructor.
    + destruct lo; [|discriminate]. intros H. exists [], (c :: s).
      repeat split; auto. constructor.
Qed.

(** Backtracking is complete: a run after which the continuation succeeds is
    enough for the repetition to succeed. *)
Lemma rep_complete (A : Type) p (k : text -> option A) a s' : forall lo,
  all p a -> lo <= length a -> k s' <> None ->
  rep p lo None (a ++ s') k <> None.
Proof.
  intros lo Ha. revert lo. induction Ha as [|c a Hc Ha IH]; intros lo Hlo Hk.
  - simpl in Hlo. assert (lo = 0) by lia. subst lo.
    destruct s' as [|c s']; simpl; [exact Hk|].
    destruct (p c); simpl; [|exact Hk].
    destruct (rep p 0 None s' k); [discriminate | exact Hk].
  - simpl. rewrite Hc. simpl.
    specialize (IH (pred lo)). simpl in Hlo.
    destruct (rep p (pred lo) None (a ++ s') k); [discriminate|].
    exfalso. apply IH; [lia | exact Hk | reflexivity].
Qed.

(** What a match of [var_re] is made of.  [w4] stands for spaces between
    the end of the fallback and the closing parenthesis. *)
Lemma var_inv s mo rest :
  match_at var_re s = Some (mo, rest) ->
  exists w1 n w2 w4,
    all is_space w1 /\ n <> [] /\ all is_name_chr n /\
    all is_space w2 /\ all is_space w4 /\
    s = m_text mo ++ rest /\
    ((m_groups mo = [(1, txt "--ctc-" ++ n)] /\
      m_text mo =
        txt "var(" ++ w1 ++ (txt "--ctc-" ++ n) ++ w2 ++ w4 ++ txt ")")
     \/
     (exists w3 fb,
        all is_space w3 /\ fb <> [] /\ all (non (is_chr ")")) fb /\
        m_groups mo = [(2, fb); (1, txt "--ctc-" ++ n)] /\
        m_text mo =
          txt "var(" ++ w1 ++ (txt "--ctc-" ++ n) ++ w2 ++
          txt "," ++ w3 ++ fb ++ w4 ++ txt ")")).
Proof.
  intros H. pose proof (match_at_text _ _ _ _ H) as Htext.
  unfold match_at, var_re in H. cbn [exec] in H.
  destruct (strip_prefix (txt "var(") s) as [s1|] eqn:E1; [|discriminate].
  apply strip_prefix_inv in E1.
  apply rep_inv in H. destruct H as [w1 [s2 [-> [Hw1 [_ H]]]]].
  destruct (strip_prefix (txt "--ctc-") s2) as [s3|] eqn:E3; [|discriminate].
  apply strip_prefix_inv in E3.
  apply rep_inv in H. destruct H as [n [s4 [-> [Hn [Hlen H]]]]].
  apply rep_inv in H. destruct H as [w2 [s5 [-> [Hw2 [_ H]]]]].
  assert (Hg1 : taken s2 (w2 ++ s5) = txt "--ctc-" ++ n).
  { rewrite E3, app_assoc. apply taken_app. }
  rewrite Hg1 in H. clear Hg1.
  exists w1, n, w2.
  assert (Hn0 : n <> []) by (destruct n; [simpl in Hlen; lia | discriminate]).
  destruct (strip_prefix (txt ",") s5) as [s6|] eqn:E6.
  - (* the optional group is tried first *)
    destruct (rep is_space 0 None s6 _) as [x|] eqn:Einner.
    + inversion H; subst x. clear H.
      apply strip_prefix_inv in E6.
      apply rep_inv in Einner. destruct Einner as [w3 [s7 [-> [Hw3 [_ H]]]]].
      apply rep_inv in H. destruct H as [fb [s8 [-> [Hfb [Hlfb H]]]]].
      rewrite taken_app in H.
      apply rep_inv in H. destruct H as [w4 [s9 [-> [Hw4 [_ H]]]]].
      destruct (strip_prefix (txt ")") s9) as [rest'|] eqn:E9; [|discriminate].
      apply strip_prefix_inv in E9. inversion H; subst. clear H.
      exists w4. repeat split; auto. right. exists w3, fb.
      repeat split; auto.
      * destruct fb; [simpl in Hlfb; lia | discriminate].
      * apply (app_inv_tail rest). rewrite <- Htext.
        cbn [m_text]. rewrite <- !app_assoc. reflexivity.
    + apply rep_inv in H. destruct H as [w4 [s9 [-> [Hw4 [_ H]]]]].
      destruct (strip_prefix (txt ")") s9) as [rest'|] eqn:E9; [|discriminate].
      apply strip_prefix_inv in E9. inversion H; subst. clear H.
      exists w4. repeat split; auto. left. split; [reflexivity|].
      apply (app_inv_tail rest). rewrite <- Htext.
      cbn [m_text]. rewrite <- !app_assoc. reflexivity.
  - apply rep_inv in H. destruct H as [w4 [s9 [-> [Hw4 [_ H]]]]].
    destruct (strip_prefix (txt ")") s9) as [rest'|] eqn:E9; [|discriminate].
    apply strip_prefix_inv in E9. inversion H; subst. clear H.
    exists w4. repeat split; auto. left. split; [reflexivity|].
    apply (app_inv_tail rest). rewrite <- Htext.
    cbn [m_text]. rewrite <- !app_assoc. reflexivity.
Qed.

Lemma take_while_run p a s :
  all p a -> match s with c :: _ => p c = false | [] => True end ->
  take_while p (a ++ s) = a.
Proof.
  unfold all. intros Ha Hs. induction Ha as [|c a Hc Ha IH]; simpl.
  - destruct s as [|c s]; simpl; [reflexivity|]. rewrite Hs. reflexivity.
  - rewrite Hc, IH. reflexivity.
Qed.

Lemma drop_while_fixed p s :
  match s with c :: _ => p c = false | [] => True end -> drop_while p s = s.
Proof. destruct s as [|c s]; simpl; [reflexivity|]. intros ->. reflexivity. Qed.

Lemma all_app p a b : all p a -> all p b -> all p (a ++ b).
Proof. intros Ha Hb. apply Forall_app. split; assumption. Qed.

Lemma space_not_rparen c : is_space c = true -> non (is_chr ")") c = true.
Proof.
  destruct c as [[] [] [] [] [] [] [] []]; vm_compute; congruence.
Qed.

Lemma all_space_not_rparen w : all is_space w -> all (non (is_chr ")")) w.
Proof.
  intros H. induction H as [|c w Hc Hw IH]; constructor; auto.
  apply space_not_rparen. exact Hc.
Qed.

Lemma head_of_run (p q : ascii -> bool) w c s :
  all p w -> (forall x, p x = true -> q x = false) -> q c = false ->
  match w ++ c :: s with x :: _ => q x = false | [] => True end.
Proof.
  intros Hw Hpq Hc. destruct Hw as [|a w Ha Hw]; simpl; auto.
Qed.

(** The direct scanner on a text of the shape [var_inv] gives. *)
Lemma var_at_shape w1 n w2 tail rest :
  all is_space w1 -> n <> [] -> all is_name_chr n -> all is_space w2 ->
  (exists c t, tail = c :: t /\ is_space c = false /\ is_name_chr c = false) ->
  var_tail_at tail = Some rest ->
  var_at (txt "var(" ++ w1 ++ (txt "--ctc-" ++ n) ++ w2 ++ tail) =
  Some (txt "--ctc-" ++ n, rest).
Proof.
  intros Hw1 Hn0 Hn Hw2 [c [t [-> [Hcs Hcn]]]] Htail.
  unfold var_at, var_name_at. rewrite strip_prefix_app.
  rewrite (drop_while_run _ _ _ Hw1). rewrite <- app_assoc.
  change (drop_while is_space (txt "--ctc-" ++ n ++ w2 ++ c :: t))
    with (txt "--ctc-" ++ n ++ w2 ++ c :: t).
  rewrite strip_prefix_app.
  assert (Hhead : match w2 ++ c :: t with
                  | x :: _ => is_name_chr x = false
                  | [] => True
                  end).
  { apply head_of_run with (p := is_space); auto. apply space_not_name. }
  rewrite (take_while_run _ _ _ Hn Hhead).
  destruct n as [|x n]; [congruence|].
  rewrite (drop_while_run _ _ _ Hn),
    (drop_while_fixed is_name_chr (w2 ++ c :: t) Hhead).
  rewrite (drop_while_run _ _ _ Hw2), drop_while_fixed by exact Hcs.
  rewrite Htail. reflexivity.
Qed.

Lemma var_tail_at_close w4 rest :
  all is_space w4 ->
  var_tail_at (drop_while is_space (w4 ++ txt ")" ++ rest)) = Some rest.
Proof. intros Hw4. rewrite (drop_while_run _ _ _ Hw4). reflexivity. Qed.

Lemma var_tail_at_fallback u rest :
  u <> [] -> all (non (is_chr ")")) u ->
  var_tail_at (txt "," ++ u ++ txt ")" ++ rest) = Some rest.
Proof.
  intros Hu Hall. destruct u as [|d u]; [congruence|].
  cbn [var_tail_at txt list_ascii_of_string app].
  change (is_chr ")" ","%char) with false. change (is_chr "," ","%char) with true.
  cbv iota.
  assert (Hd : is_chr ")" d = false).
  { inversion Hall; subst. unfold non in *. apply negb_true_iff. assumption. }
  rewrite Hd.
  change (d :: u ++ ")"%char :: rest) with ((d :: u) ++ txt ")" ++ rest).
  rewrite (drop_while_run _ _ _ Hall). reflexivity.
Qed.

(** The matcher and the direct scanner agree on the name and on where the
    match ends; and a match does not depend on what follows it. *)
Lemma var_at_text s mo rest z :
  match_at var_re s = Some (mo, rest) ->
  var_at (m_text mo ++ z) = Some (group_or_empty mo 1, z).
Proof.
  intros H. apply var_inv in H.
  destruct H as [w1 [n [w2 [w4 [Hw1 [Hn0 [Hn [Hw2 [Hw4 [_ Hcase]]]]]]]]]].
  destruct Hcase as [[Hg Ht] | [w3 [fb [Hw3 [Hfb0 [Hfb [Hg Ht]]]]]]].
  - assert (Hname : group_or_empty mo 1 = txt "--ctc-" ++ n).
    { unfold group_or_empty, group. rewrite Hg. reflexivity. }
    rewrite Hname, Ht.
    replace ((txt "var(" ++ w1 ++ (txt "--ctc-" ++ n) ++ w2 ++ w4 ++ txt ")")
             ++ z)
      with (txt "var(" ++ w1 ++ (txt "--ctc-" ++ n) ++ (w2 ++ w4)
            ++ txt ")" ++ z)
      by (rewrite <- !app_assoc; reflexivity).
    apply var_at_shape; auto.
    + apply all_app; assumption.
    + eexists; eexists. split; [reflexivity | split; reflexivity].
  - assert (Hname : group_or_empty mo 1 = txt "--ctc-" ++ n).
    { unfold group_or_empty, group. rewrite Hg. reflexivity. }
    rewrite Hname, Ht.
    replace ((txt "var(" ++ w1 ++ (txt "--ctc-" ++ n) ++ w2 ++
              txt "," ++ w3 ++ fb ++ w4 ++ txt ")") ++ z)
      with (txt "var(" ++ w1 ++ (txt "--ctc-" ++ n) ++ w2 ++
            (txt "," ++ (w3 ++ fb ++ w4) ++ txt ")" ++ z))
      by (rewrite <- !app_assoc; reflexivity).
    apply var_at_shape; auto.
    + eexists; eexists. split; [reflexivity | split; reflexivity].
    + apply var_tail_at_fallback.
      * destruct w3; [destruct fb; [congruence | discriminate] | discriminate].
      * apply all_app; [apply all_space_not_rparen; assumption|].
        apply all_app; [assumption | apply all_space_not_rparen; assumption].
Qed.

Lemma var_at_spec s mo rest :
  match_at var_re s = Some (mo, rest) ->
  var_at s = Some (group_or_empty mo 1, rest).
Proof.
  intros H. rewrite (match_at_text _ _ _ _ H) at 1.
  apply (var_at_text _ _ _ _ H).
Qed.

Lemma is_chr_true a c : is_chr (String a EmptyString) c = true -> c = a.
Proof. unfold is_chr. intros H. apply Ascii.eqb_eq in H. congruence. Qed.

Lemma var_at_complete s name rest :
  var_at s = Some (name, rest) -> match_at var_re s <> None.
Proof.
  unfold var_at, var_name_at. intros H.
  destruct (strip_prefix (txt "var(") s) as [s1|] eqn:E1; [|discriminate].
  destruct (strip_prefix (txt "--ctc-") (drop_while is_space s1)) as [s3|] eqn:E3;
    [|discriminate].
  destruct (take_while is_name_chr s3) as [|x n] eqn:En; [discriminate|].
  destruct (var_tail_at (drop_while is_space (drop_while is_name_chr s3)))
    as [rest'|] eqn:Et; [|discriminate].
  clear H.
  pose proof (take_drop_while is_space s1) as D1.
  pose proof (take_while_all is_space s1) as A1.
  pose proof (take_drop_while is_name_chr s3) as D3.
  pose proof (take_while_all is_name_chr s3) as A3.
  pose proof (take_drop_while is_space (drop_while is_name_chr s3)) as D4.
  pose proof (take_while_all is_space (drop_while is_name_chr s3)) as A4.
  remember (drop_while is_space s1) as s2 eqn:Es2.
  remember (take_while is_space s1) as w1 eqn:Ew1.
  remember (drop_while is_name_chr s3) as s4 eqn:Es4.
  remember (drop_while is_space s4) as s5 eqn:Es5.
  remember (take_while is_space s4) as w2 eqn:Ew2.
  rewrite En in D3, A3.
  unfold match_at, var_re. cbn [exec]. rewrite E1.
  rewrite D1. apply rep_complete; [exact A1 | apply Nat.le_0_l |].
  rewrite E3. rewrite D3. apply rep_complete; [exact A3 | simpl; lia |].
  rewrite D4. apply rep_complete; [exact A4 | apply Nat.le_0_l |].
  clear - Et. destruct s5 as [|c s6]; [discriminate|].
  cbn [var_tail_at] in Et.
  destruct (is_chr ")" c) eqn:Ec.
  - apply is_chr_true in Ec. subst c. simpl. discriminate.
  - destruct (is_chr "," c) eqn:Ec'; [|discriminate].
    apply is_chr_true in Ec'. subst c.
    destruct s6 as [|d s6]; [discriminate|].
    destruct (is_chr ")" d) eqn:Ed; [discriminate|].
    apply strip_prefix_inv in Et.
    pose proof (take_drop_while (non (is_chr ")")) (d :: s6)) as D6.
    pose proof (take_while_all (non (is_chr ")")) (d :: s6)) as A6.
    rewrite Et in D6.
    assert (Hlen : 1 <= length (take_while (non (is_chr ")")) (d :: s6))).
    { simpl. unfold non at 1. rewrite Ed. simpl. lia. }
    rewrite strip_prefix_one. change (Ascii.eqb "," ",") with true. cbv iota.
    match goal with
    | |- match ?e with Some x => Some x | None => _ end <> None =>
        assert (He : e <> None); [|destruct e; [discriminate | congruence]]
    end.
    apply (rep_complete _ is_space _ [] (d :: s6));
      [constructor | apply Nat.le_0_l |].
    rewrite D6. apply rep_complete; [exact A6 | exact Hlen |].
    apply (rep_complete _ is_space _ [] (txt ")" ++ rest'));
      [constructor | apply Nat.le_0_l |].
    simpl. discriminate.
Qed.

Lemma var_at_match s name rest :
  var_at s = Some (name, rest) ->
  exists mo,
    match_at var_re s = Some (mo, rest) /\
    group_or_empty mo 1 = name /\ s = m_text mo ++ rest.
Proof.
  intros H. pose proof (var_at_complete _ _ _ H) as Hc.
  destruct (match_at var_re s) as [[mo rest']|] eqn:E; [|congruence].
  pose proof (var_at_spec _ _ _ E) as Hs. rewrite H in Hs.
  inversion Hs; subst. exists mo. repeat split.
  apply (match_at_text _ _ _ _ E).
Qed.

(** ** An attempt of the reference pattern that runs into a reference *)

Lemma drop_while_app_found p s c t z :
  drop_while p s = c :: t -> drop_while p (s ++ z) = c :: t ++ z.
Proof.
  induction s as [|x s IH]; simpl; [discriminate|].
  destruct (p x); [exact IH|]. intros H. inversion H; subst. reflexivity.
Qed.

Lemma take_while_app_found p s c t z :
  drop_while p s = c :: t -> take_while p (s ++ z) = take_while p s.
Proof.
  induction s as [|x s IH]; simpl; [discriminate|].
  destruct (p x); [|reflexivity]. intros H. rewrite (IH H). reflexivity.
Qed.

Lemma drop_while_nil_all p s : drop_while p s = [] -> all p s.
Proof.
  induction s as [|x s IH]; simpl; [constructor|].
  destruct (p x) eqn:E; [|discriminate]. intros H.
  constructor; [exact E | exact (IH H)].
Qed.

Lemma drop_to_rparen s :
  In ")"%char s -> exists t, drop_while (non (is_chr ")")) s = ")"%char :: t.
Proof.
  induction s as [|c s IH]; [contradiction|]. intros Hin. simpl.
  destruct (non (is_chr ")") c) eqn:E.
  - destruct Hin as [->|Hin]; [discriminate E | exact (IH Hin)].
  - unfold non in E. apply negb_false_iff in E. apply is_chr_true in E.
    subst c. eauto.
Qed.

Lemma strip_var_app b x s1 :
  b <> [] ->
  strip_prefix (txt "var(") (b ++ txt "var(" ++ x) = Some s1 ->
  exists b1, b = txt "var(" ++ b1 /\ s1 = b1 ++ txt "var(" ++ x.
Proof.
  intros Hb H.
  destruct b as [|x1 [|x2 [|x3 [|x4 b1]]]]; [congruence| | | |];
    cbn [txt list_ascii_of_string app] in H;
    repeat rewrite strip_prefix_cons in H.
  - destruct (Ascii.eqb "v" x1); [|discriminate]. simpl in H. discriminate.
  - destruct (Ascii.eqb "v" x1); [|discriminate].
    destruct (Ascii.eqb "a" x2); [|discriminate]. simpl in H. discriminate.
  - destruct (Ascii.eqb "v" x1); [|discriminate].
    destruct (Ascii.eqb "a" x2); [|discriminate].
    destruct (Ascii.eqb "r" x3); [|discriminate]. simpl in H. discriminate.
  - destruct (Ascii.eqb "v" x1) eqn:E1; [|discriminate].
    destruct (Ascii.eqb "a" x2) eqn:E2; [|discriminate].
    destruct (Ascii.eqb "r" x3) eqn:E3; [|discriminate].
    destruct (Ascii.eqb "(" x4) eqn:E4; [|discriminate].
    apply Ascii.eqb_eq in E1, E2, E3, E4. subst.
    simpl in H. inversion H. exists b1. split; reflexivity.
Qed.

Lemma var_name_at_app b x name s5 :
  b <> [] ->
  var_name_at (b ++ txt "var(" ++ x) = Some (name, s5) ->
  (exists e, s5 = e ++ txt "var(" ++ x /\
             forall x', var_name_at (b ++ txt "var(" ++ x') =
                        Some (name, e ++ txt "var(" ++ x'))
  \/ var_tail_at s5 = None.
Proof.
  intros Hb H. unfold var_name_at in H.
  destruct (strip_prefix (txt "var(") (b ++ txt "var(" ++ x)) as [s1|] eqn:E1;
    [|discriminate].
  apply strip_var_app in E1; [|exact Hb]. destruct E1 as [b1 [-> ->]].
  assert (Hd1 : forall y, drop_while is_space (b1 ++ txt "var(" ++ y) =
                          drop_while is_space b1 ++ txt "var(" ++ y).
  { intros y. apply (drop_while_app_stop is_space b1 "v" (txt "ar(" ++ y)).
    reflexivity. }
  rewrite Hd1 in H.
  destruct (strip_prefix (txt "--ctc-") (drop_while is_space b1 ++ txt "var(" ++ x))
    as [s3|] eqn:E3; [|discriminate].
  apply (strip_prefix_stop (txt "--ctc-") (drop_while is_space b1) "v"
                           (txt "ar(" ++ x)) in E3.
  2:{ simpl. intuition discriminate. }
  destruct E3 as [b3 [E3 ->]].
  change (b3 ++ "v"%char :: txt "ar(" ++ x) with (b3 ++ txt "var(" ++ x) in H.
  destruct (drop_while is_name_chr b3) as [|c t] eqn:Ed.
  - right. apply drop_while_nil_all in Ed.
    destruct (take_while is_name_chr (b3 ++ txt "var(" ++ x)); [discriminate|].
    inversion H; subst. rewrite (drop_while_run _ _ _ Ed). reflexivity.
  - left.
    rewrite (take_while_app_found _ _ _ _ (txt "var(" ++ x) Ed) in H.
    rewrite (drop_while_app_found _ _ _ _ (txt "var(" ++ x) Ed) in H.
    destruct (take_while is_name_chr b3) as [|n0 n] eqn:En; [discriminate|].
    inversion H; subst. clear H.
    assert (Hd4 : forall y, drop_while is_space ((c :: t) ++ txt "var(" ++ y) =
                            drop_while is_space (c :: t) ++ txt "var(" ++ y).
    { intros y. apply (drop_while_app_stop is_space (c :: t) "v" (txt "ar(" ++ y)).
      reflexivity. }
    exists (drop_while is_space (c :: t)). split; [apply Hd4|].
    intros x'. unfold var_name_at.
    rewrite <- app_assoc, strip_prefix_app, Hd1.
    rewrite (strip_prefix_more_app (txt "--ctc-") _ b3 (txt "var(" ++ x') E3).
    rewrite (take_while_app_found _ _ _ _ (txt "var(" ++ x') Ed).
    rewrite (drop_while_app_found _ _ _ _ (txt "var(" ++ x') Ed).
    rewrite En, <- Hd4. reflexivity.
Qed.

Lemma var_tail_at_app e x rest x' :
  var_tail_at (e ++ txt "var(" ++ x) = Some rest ->
  In ")"%char x' ->
  var_tail_at (e ++ txt "var(" ++ x') <> None.
Proof.
  intros H Hin. destruct e as [|c e]; [discriminate H|].
  cbn [app var_tail_at] in H |- *.
  destruct (is_chr ")" c); [discriminate|].
  destruct (is_chr "," c); [|discriminate].
  assert (Hin' : In ")"%char (e ++ txt "var(" ++ x')).
  { apply in_or_app. right. apply in_or_app. right. exact Hin. }
  destruct (drop_to_rparen _ Hin') as [t Ht].
  destruct e as [|d e].
  - cbn [app txt list_ascii_of_string] in *.
    change (is_chr ")" "v"%char) with false. cbv iota.
    rewrite Ht. discriminate.
  - cbn [app] in *. destruct (is_chr ")" d); [discriminate|].
    rewrite Ht. discriminate.
Qed.

(** An attempt begun before a reference succeeds or fails whatever the text
    of that reference is, as long as a closing parenthesis is to come. *)
Lemma var_at_transfer b x x' :
  b <> [] -> var_at (b ++ txt "var(" ++ x) <> None -> In ")"%char x' ->
  var_at (b ++ txt "var(" ++ x') <> None.
Proof.
  intros Hb H Hin. unfold var_at in *.
  destruct (var_name_at (b ++ txt "var(" ++ x)) as [[name s5]|] eqn:E;
    [|congruence].
  apply var_name_at_app in E; [|exact Hb].
  destruct E as [[e [-> He]] | Hnone].
  - rewrite He.
    destruct (var_tail_at (e ++ txt "var(" ++ x)) as [rest|] eqn:Et;
      [|congruence].
    pose proof (var_tail_at_app _ _ _ _ Et Hin) as Ht.
    destruct (var_tail_at (e ++ txt "var(" ++ x')); [discriminate | congruence].
  - rewrite Hnone in H. congruence.
Qed.

(** ** A second normalisation *)

Lemma finditer_eq r s :
  (forall s m rest, match_at r s = Some (m, rest) -> length rest < length s) ->
  finditer r s =
  match match_at r s with
  | Some (m, rest) => m :: finditer r rest
  | None => match s with [] => [] | _ :: s' => finditer r s' end
  end.
Proof.
  intros Hc. unfold finditer. rewrite (scan_all_eq r Hc).
  destruct (match_at r s) as [[m rest]|].
  - destruct (scan_all r rest). reflexivity.
  - destruct s as [|c s]; [reflexivity|].
    destruct (scan_all r s) as [[|[gap m] ms] tl]; reflexivity.
Qed.

Lemma normalizes_spec x : normalizes x (normalize_vars x).
Proof.
  remember (length x) as n eqn:Hn. revert x Hn.
  induction n as [n IH] using lt_wf_ind. intros x Hn.
  unfold normalize_vars. rewrite (sub_eq var_re var_consumes).
  destruct (match_at var_re x) as [[mo rest]|] eqn:E.
  - pose proof (match_at_text _ _ _ _ E) as Ht.
    pose proof (var_consumes _ _ _ E) as Hlen.
    rewrite Ht. rewrite Ht in E. apply nz_ref; [exact E|].
    apply (IH (length rest)); [lia | reflexivity].
  - destruct x as [|c x]; [constructor|].
    apply nz_copy; [exact E|].
    apply (IH (length x)); [simpl in Hn; lia | reflexivity].
Qed.

Lemma lookup_In name m v :
  lookup name m = Some v -> exists k, In (k, v) m.
Proof.
  induction m as [|[k v'] m IH]; simpl; [discriminate|].
  destruct (text_eqb name k).
  - intros H. inversion H; subst. exists k. left. reflexivity.
  - intros H. destruct (IH H) as [k' Hk]. exists k'. right. exact Hk.
Qed.

Lemma table_values_canonical :
  forallb (fun kv => implb (startswith (txt "--") (snd kv))
                           (canonical_ok (snd kv)))
          NORMALIZATION_MAP = true.
Proof. vm_compute. reflexivity. Qed.

Lemma table_canonical name v :
  lookup name NORMALIZATION_MAP = Some v ->
  startswith (txt "--") v = true ->
  exists n, v = txt "--ctc-" ++ n /\ n <> [] /\ all is_name_chr n /\
            lookup v NORMALIZATION_MAP = None.
Proof.
  intros Hl Hs. destruct (lookup_In _ _ _ Hl) as [k Hk].
  pose proof table_values_canonical as Ht.
  rewrite forallb_forall in Ht. specialize (Ht _ Hk). cbn [snd] in Ht.
  rewrite Hs in Ht. cbn [implb] in Ht. unfold canonical_ok in Ht.
  destruct (strip_prefix (txt "--ctc-") v) as [n|] eqn:E; [|discriminate].
  apply strip_prefix_inv in E.
  apply andb_true_iff in Ht. destruct Ht as [Ht Hnone].
  apply andb_true_iff in Ht. destruct Ht as [Hne Hall].
  exists n. repeat split.
  - exact E.
  - destruct n; [discriminate | discriminate].
  - unfold all. apply Forall_forall. rewrite forallb_forall in Hall. exact Hall.
  - destruct (lookup v NORMALIZATION_MAP); [discriminate | reflexivity].
Qed.

Lemma var_text_form s mo rest :
  match_at var_re s = Some (mo, rest) ->
  exists m1, m_text mo = txt "var(" ++ m1 /\ In ")"%char m1.
Proof.
  intros H. apply var_inv in H.
  destruct H as [w1 [n [w2 [w4 [_ [_ [_ [_ [_ [_ Hcase]]]]]]]]]].
  destruct Hcase as [[_ ->] | [w3 [fb [_ [_ [_ [_ ->]]]]]]];
    eexists; (split; [reflexivity|]);
    repeat (apply in_or_app; right); left; reflexivity.
Qed.

(** What the callback returns for a match it does not collapse starts with
    [var(], and is itself matched as one reference that the callback leaves
    alone, whatever follows. *)
Lemma normalize_var_stable s mo rest :
  match_at var_re s = Some (mo, rest) ->
  maps_to_literal mo = false ->
  (exists r1, normalize_var mo = txt "var(" ++ r1) /\
  forall z, exists mo',
    match_at var_re (normalize_var mo ++ z) = Some (mo', z) /\
    normalize_var mo' = normalize_var mo.
Proof.
  intros H Hlit.
  assert (Hstable : forall r name,
            (forall z, var_at (r ++ z) = Some (name, z)) ->
            lookup name NORMALIZATION_MAP = None ->
            forall z, exists mo',
              match_at var_re (r ++ z) = Some (mo', z) /\ normalize_var mo' = r).
  { intros r name Hat Hnone z.
    destruct (var_at_match _ _ _ (Hat z)) as [mo' [Hm [Hg Ht]]].
    exists mo'. split; [exact Hm|].
    unfold normalize_var. rewrite Hg, Hnone.
    apply (app_inv_tail z). symmetry. exact Ht. }
  unfold maps_to_literal in Hlit. unfold normalize_var.
  destruct (lookup (group_or_empty mo 1) NORMALIZATION_MAP) as [v|] eqn:El.
  - apply negb_false_iff in Hlit. rewrite Hlit. cbn [negb].
    destruct (table_canonical _ _ El Hlit) as [n [-> [Hn0 [Hn Hnone]]]].
    apply var_inv in H.
    destruct H as [w1 [n' [w2 [w4 [_ [_ [_ [_ [_ [_ Hcase]]]]]]]]]].
    assert (Hshape : forall tail z,
              var_tail_at (tail ++ txt ")" ++ z) = Some z ->
              (exists c t, tail ++ txt ")" ++ z = c :: t /\
                           is_space c = false /\ is_name_chr c = false) ->
              var_at ((txt "var(" ++ (txt "--ctc-" ++ n) ++ tail ++ txt ")") ++ z)
              = Some (txt "--ctc-" ++ n, z)).
    { intros tail z Htail Hhead.
      replace ((txt "var(" ++ (txt "--ctc-" ++ n) ++ tail ++ txt ")") ++ z)
        with (txt "var(" ++ [] ++ (txt "--ctc-" ++ n) ++ [] ++
              (tail ++ txt ")" ++ z))
        by (simpl; rewrite <- !app_assoc; reflexivity).
      apply var_at_shape; auto; constructor. }
    destruct Hcase as [[Hg _] | [w3 [fb [_ [Hfb0 [Hfb [Hg _]]]]]]].
    + unfold lastindex, group. rewrite Hg. cbn [Nat.leb assoc].
      split; [eexists; reflexivity|].
      apply (Hstable (txt "var(" ++ (txt "--ctc-" ++ n) ++ txt ")")
                     (txt "--ctc-" ++ n)); [|exact Hnone].
      intros z. apply (Hshape [] z); [reflexivity|].
      eexists; eexists. split; [reflexivity | split; reflexivity].
    + unfold lastindex, group. rewrite Hg. cbn [Nat.leb assoc Nat.eqb].
      destruct fb as [|c fb]; [congruence|].
      split; [eexists; reflexivity|].
      apply (Hstable (txt "var(" ++ (txt "--ctc-" ++ n) ++ txt ", "
                      ++ (c :: fb) ++ txt ")")
                     (txt "--ctc-" ++ n)); [|exact Hnone].
      intros z.
      replace (txt "var(" ++ (txt "--ctc-" ++ n) ++ txt ", " ++ (c :: fb) ++ txt ")")
        with (txt "var(" ++ (txt "--ctc-" ++ n) ++
              (txt "," ++ (" "%char :: c :: fb)) ++ txt ")")
        by reflexivity.
      apply (Hshape (txt "," ++ (" "%char :: c :: fb)) z).
      * rewrite <- app_assoc. apply var_tail_at_fallback; [discriminate|].
        constructor; [reflexivity | exact Hfb].
      * eexists; eexists. split; [reflexivity | split; reflexivity].
  - destruct (var_text_form _ _ _ H) as [m1 [Hm _]].
    split; [exists m1; exact Hm|].
    apply (Hstable (m_text mo) (group_or_empty mo 1)); [|exact El].
    intros z. exact (var_at_text _ _ _ z H).
Qed.

Lemma no_literal_copy c x :
  match_at var_re (c :: x) = None -> no_literal (c :: x) = no_literal x.
Proof.
  intros H. unfold no_literal. rewrite (finditer_eq var_re (c :: x) var_consumes), H.
  reflexivity.
Qed.

Lemma no_literal_ref mo x :
  match_at var_re (m_text mo ++ x) = Some (mo, x) ->
  no_literal (m_text mo ++ x) = negb (maps_to_literal mo) && no_literal x.
Proof.
  intros H. unfold no_literal.
  rewrite (finditer_eq var_re (m_text mo ++ x) var_consumes), H. reflexivity.
Qed.

Lemma match_var_at s : match_at var_re s <> None <-> var_at s <> None.
Proof.
  split; intros H.
  - destruct (match_at var_re s) as [[mo rest]|] eqn:E; [|congruence].
    rewrite (var_at_spec _ _ _ E). discriminate.
  - destruct (var_at s) as [[name rest]|] eqn:E; [|congruence].
    apply (var_at_complete _ _ _ E).
Qed.

(** An attempt that starts before a rewritten stretch succeeds on the output
    only if it succeeded on the input. *)
Lemma attempt_transfer x y :
  normalizes x y -> no_literal x = true ->
  forall b, b <> [] ->
    match_at var_re (b ++ y) <> None -> match_at var_re (b ++ x) <> None.
Proof.
  induction 1 as [| c x y Hn H IH | mo x y Hm H IH]; intros Hlit b Hb Hy.
  - exact Hy.
  - rewrite (no_literal_copy _ _ Hn) in Hlit.
    replace (b ++ c :: x) with ((b ++ [c]) ++ x)
      by (rewrite <- app_assoc; reflexivity).
    apply (IH Hlit).
    + destruct b; discriminate.
    + rewrite <- app_assoc. exact Hy.
  - rewrite (no_literal_ref _ _ Hm) in Hlit.
    apply andb_true_iff in Hlit. destruct Hlit as [Hmo Hlit].
    apply negb_true_iff in Hmo.
    destruct (normalize_var_stable _ _ _ Hm Hmo) as [[r1 Hr] _].
    destruct (var_text_form _ _ _ Hm) as [m1 [Ht Hin]].
    apply match_var_at. apply match_var_at in Hy.
    rewrite Hr, <- app_assoc in Hy. rewrite Ht, <- app_assoc.
    apply (var_at_transfer b (r1 ++ y) (m1 ++ x) Hb Hy).
    apply in_or_app. left. exact Hin.
Qed.

(** Without a collapse to a literal, normalising the output of a
    normalisation changes nothing. *)
Lemma normalize_twice x y :
  normalizes x y -> no_literal x = true -> normalize_vars y = y.
Proof.
  induction 1 as [| c x y Hn H IH | mo x y Hm H IH]; intros Hlit.
  - reflexivity.
  - pose proof (attempt_transfer _ _ H) as Ht.
    rewrite (no_literal_copy _ _ Hn) in Hlit.
    unfold normalize_vars. rewrite (sub_eq var_re var_consumes).
    destruct (match_at var_re (c :: y)) as [[mo rest]|] eqn:E.
    + exfalso. apply (Ht Hlit [c]); [discriminate | | exact Hn].
      simpl. rewrite E. discriminate.
    + f_equal. apply (IH Hlit).
  - rewrite (no_literal_ref _ _ Hm) in Hlit.
    apply andb_true_iff in Hlit. destruct Hlit as [Hmo Hlit].
    apply negb_true_iff in Hmo.
    destruct (normalize_var_stable _ _ _ Hm Hmo) as [_ Hst].
    destruct (Hst y) as [mo' [Hm' Hr]].
    unfold normalize_vars. rewrite (sub_eq var_re var_consumes), Hm', Hr.
    f_equal. apply (IH Hlit).
Qed.

Lemma normalize_vars_idempotent x :
  no_literal x = true -> normalize_vars (normalize_vars x) = normalize_vars x.
Proof. apply normalize_twice. apply normalizes_spec. Qed.

(** ** Blocks after a normalisation *)

Lemma prog_step_le k s c :
  k <= (if Nat.even k
        then match root_open s with Some _ => S k | None => k end
        else if is_chr "}" c then S k else k) <= S k.
Proof.
  destruct (Nat.even k); [destruct (root_open s) | destruct (is_chr "}" c)]; lia.
Qed.

Lemma prog_mono s : forall k1 k2, k1 <= k2 -> prog k1 s <= prog k2 s.
Proof.
  induction s as [|c s IH]; intros k1 k2 Hk; cbn [prog]; [exact Hk|].
  apply IH.
  destruct (Nat.eq_dec k1 k2) as [->|Hne]; [lia|].
  pose proof (prog_step_le k1 (c :: s) c). pose proof (prog_step_le k2 (c :: s) c).
  lia.
Qed.

Lemma prog_ge s : forall k, k <= prog k s.
Proof.
  induction s as [|c s IH]; intros k; cbn [prog app]; [lia|].
  pose proof (prog_step_le k (c :: s) c) as H.
  eapply Nat.le_trans; [|apply IH]. lia.
Qed.

Lemma prog_app a s : forall k, prog k s <= prog k (a ++ s).
Proof.
  induction a as [|c a IH]; intros k; cbn [prog app]; [lia|].
  eapply Nat.le_trans; [|apply IH]. apply prog_mono.
  pose proof (prog_step_le k (c :: a ++ s) c). lia.
Qed.

Lemma plain_not_open c s : plain c = true -> root_open (c :: s) = None.
Proof.
  unfold plain, root_open. intros H. apply negb_true_iff in H.
  apply orb_false_iff in H. destruct H as [H _].
  change (txt ":root") with (":"%char :: txt "root").
  rewrite strip_prefix_cons. unfold is_chr in H. rewrite H. reflexivity.
Qed.

Lemma prog_plain a s : all plain a -> forall k, prog k (a ++ s) = prog k s.
Proof.
  intros Ha. induction Ha as [|c a Hc Ha IH]; intros k; [reflexivity|].
  cbn [prog app]. rewrite (plain_not_open c (a ++ s) Hc).
  assert (Hb : is_chr "}" c = false).
  { unfold plain in Hc. apply negb_true_iff in Hc.
    apply orb_false_iff in Hc. tauto. }
  rewrite Hb. destruct (Nat.even k); apply IH.
Qed.

(** The same stretch in front of two continuations, the first of which
    starts with a stopper. *)
Lemma prog_mid u c y0 x :
  stopper c = true ->
  (forall k1 k2, k1 <= k2 -> prog k1 (c :: y0) <= prog k2 x) ->
  forall k1 k2, k1 <= k2 -> prog k1 (u ++ c :: y0) <= prog k2 (u ++ x).
Proof.
  intros Hc H0. induction u as [|a u IH]; intros k1 k2 Hk; [exact (H0 _ _ Hk)|].
  cbn [prog app]. apply IH.
  destruct (Nat.eq_dec k1 k2) as [->|Hne].
  - destruct (Nat.even k2); [|lia].
    destruct (root_open (a :: u ++ c :: y0)) as [s3|] eqn:E.
    + apply (root_open_stop a u c y0 s3 Hc) in E. destruct E as [b' [E _]].
      change (a :: u ++ x) with ((a :: u) ++ x).
      rewrite (root_open_app _ _ x E). lia.
    + destruct (root_open (a :: u ++ x)); lia.
  - pose proof (prog_step_le k1 (a :: u ++ c :: y0) a).
    pose proof (prog_step_le k2 (a :: u ++ x) a). lia.
Qed.

Lemma space_plain c : is_space c = true -> plain c = true.
Proof.
  destruct c as [[] [] [] [] [] [] [] []]; vm_compute; congruence.
Qed.

Lemma name_plain c : is_name_chr c = true -> plain c = true.
Proof.
  destruct c as [[] [] [] [] [] [] [] []]; vm_compute; congruence.
Qed.

Lemma all_impl (p q : ascii -> bool) w :
  (forall c, p c = true -> q c = true) -> all p w -> all q w.
Proof.
  intros Hpq H. induction H as [|c w Hc Hw IH]; constructor; auto.
Qed.

Lemma table_values_literal :
  forallb (fun kv => implb (negb (startswith (txt "--") (snd kv)))
                           (literal_ok (snd kv)))
          NORMALIZATION_MAP = true.
Proof. vm_compute. reflexivity. Qed.

Lemma table_literal name v :
  lookup name NORMALIZATION_MAP = Some v ->
  startswith (txt "--") v = false ->
  all plain v /\ exists c v', v = c :: v' /\ stopper c = true.
Proof.
  intros Hl Hs. destruct (lookup_In _ _ _ Hl) as [k Hk].
  pose proof table_values_literal as Ht.
  rewrite forallb_forall in Ht. specialize (Ht _ Hk). cbn [snd] in Ht.
  rewrite Hs in Ht. cbn [implb negb] in Ht. unfold literal_ok in Ht.
  apply andb_true_iff in Ht. destruct Ht as [Hall Hhead]. split.
  - unfold all. apply Forall_forall. rewrite forallb_forall in Hall. exact Hall.
  - destruct v as [|c v']; [discriminate|]. eauto.
Qed.

(** What the callback returns, next to the text it replaces: it starts with
    a stopper, and either is made of plain characters only or shares with the
    matched text everything but stretches of plain characters. *)
Lemma normalize_var_parts s mo rest :
  match_at var_re s = Some (mo, rest) ->
  (exists c r', normalize_var mo = c :: r' /\ stopper c = true) /\
  (all plain (normalize_var mo) \/
   exists a a' u v,
     normalize_var mo = a ++ u ++ txt ")" /\
     m_text mo = a' ++ u ++ v ++ txt ")" /\
     all plain a /\ all plain a' /\ all plain v).
Proof.
  intros H. apply var_inv in H.
  destruct H as [w1 [n [w2 [w4 [Hw1 [Hn0 [Hn [Hw2 [Hw4 [_ Hcase]]]]]]]]]].
  assert (Pw1 : all plain w1) by (apply (all_impl is_space); auto using space_plain).
  assert (Pw2 : all plain w2) by (apply (all_impl is_space); auto using space_plain).
  assert (Pw4 : all plain w4) by (apply (all_impl is_space); auto using space_plain).
  assert (Pn : all plain (txt "--ctc-" ++ n)).
  { apply all_app; [repeat constructor|].
    apply (all_impl is_name_chr); auto using name_plain. }
  assert (Pvar : all plain (txt "var(")) by (repeat constructor).
  unfold normalize_var.
  destruct (lookup (group_or_empty mo 1) NORMALIZATION_MAP) as [val|] eqn:El.
  - destruct (startswith (txt "--") val) eqn:Es; cbn [negb].
    + destruct (table_canonical _ _ El Es) as [n0 [-> [_ [Hn0' _]]]].
      assert (Pc : all plain (txt "--ctc-" ++ n0)).
      { apply all_app; [repeat constructor|].
        apply (all_impl is_name_chr); auto using name_plain. }
      destruct Hcase as [[Hg Ht] | [w3 [fb [Hw3 [Hfb0 [Hfb [Hg Ht]]]]]]].
      * unfold lastindex, group. rewrite Hg. cbn [Nat.leb assoc].
        split; [eexists; eexists; split; reflexivity|].
        left. apply all_app; [exact Pvar|].
        apply all_app; [exact Pc | repeat constructor].
      * unfold lastindex, group. rewrite Hg. cbn [Nat.leb assoc Nat.eqb].
        destruct fb as [|c fb]; [congruence|].
        split; [eexists; eexists; split; reflexivity|].
        right.
        exists (txt "var(" ++ (txt "--ctc-" ++ n0) ++ txt ", "),
               (txt "var(" ++ w1 ++ (txt "--ctc-" ++ n) ++ w2 ++ txt "," ++ w3),
               (c :: fb), w4.
        repeat split.
        -- rewrite <- !app_assoc. reflexivity.
        -- rewrite Ht, <- !app_assoc. reflexivity.
        -- apply all_app; [exact Pvar|].
           apply all_app; [exact Pc | repeat constructor].
        -- apply all_app; [exact Pvar|]. apply all_app; [exact Pw1|].
           apply all_app; [exact Pn|]. apply all_app; [exact Pw2|].
           apply all_app; [repeat constructor|].
           apply (all_impl is_space); auto using space_plain.
        -- exact Pw4.
    + destruct (table_literal _ _ El Es) as [Hall Hhead].
      split; [exact Hhead | left; exact Hall].
  - assert (Hform : exists t, m_text mo = txt "var(" ++ t ++ txt ")").
    { destruct Hcase as [[_ ->] | [w3 [fb [_ [_ [_ [_ ->]]]]]]].
      - exists (w1 ++ (txt "--ctc-" ++ n) ++ w2 ++ w4).
        rewrite <- !app_assoc. reflexivity.
      - exists (w1 ++ (txt "--ctc-" ++ n) ++ w2 ++ txt "," ++ w3 ++ fb ++ w4).
        rewrite <- !app_assoc. reflexivity. }
    destruct Hform as [t Ht]. rewrite Ht.
    split; [eexists; eexists; split; reflexivity|].
    right. exists [], [], (txt "var(" ++ t), [].
    repeat split; constructor.
Qed.

(** An attempt of [:root\s*\{] that succeeds on the normalised text
    succeeds on the text before the normalisation: whatever the callback
    returns starts with a character at which such an attempt stops. *)
Lemma open_transfer x y :
  normalizes x y ->
  forall b, b <> [] -> root_open (b ++ y) <> None -> root_open (b ++ x) <> None.
Proof.
  induction 1 as [| c x y Hn H IH | mo x y Hm H IH]; intros b Hb Ho.
  - exact Ho.
  - replace (b ++ c :: x) with ((b ++ [c]) ++ x)
      by (rewrite <- app_assoc; reflexivity).
    apply IH.
    + destruct b; discriminate.
    + rewrite <- app_assoc. exact Ho.
  - destruct (normalize_var_parts _ _ _ Hm) as [[c [r' [Hnv Hc]]] _].
    rewrite Hnv in Ho. destruct b as [|x0 b]; [congruence|].
    destruct (root_open ((x0 :: b) ++ (c :: r') ++ y)) as [s3|] eqn:E;
      [|congruence].
    rewrite <- app_comm_cons in E.
    apply (root_open_stop x0 b c (r' ++ y) s3 Hc) in E.
    destruct E as [b' [E _]].
    rewrite (root_open_app _ _ (m_text mo ++ x) E). discriminate.
Qed.

(** The search for two blocks gets no further on the normalised text than
    on the text before the normalisation. *)
Lemma prog_normalizes x y :
  normalizes x y -> forall k1 k2, k1 <= k2 -> prog k1 y <= prog k2 x.
Proof.
  induction 1 as [| c x y Hn H IH | mo x y Hm H IH]; intros k1 k2 Hk.
  - exact Hk.
  - cbn [prog]. apply IH.
    destruct (Nat.eq_dec k1 k2) as [->|Hne].
    + destruct (Nat.even k2); [|lia].
      destruct (root_open (c :: y)) as [s3|] eqn:E.
      * assert (Hx : root_open ([c] ++ x) <> None).
        { apply (open_transfer x y H [c]); [discriminate|].
          cbn [app]. rewrite E. discriminate. }
        cbn [app] in Hx. destruct (root_open (c :: x)); [lia|congruence].
      * destruct (root_open (c :: x)); lia.
    + pose proof (prog_step_le k1 (c :: y) c).
      pose proof (prog_step_le k2 (c :: x) c). lia.
  - destruct (normalize_var_parts _ _ _ Hm)
      as [_ [Hp | [a [a' [u [v [Hnv [Hmt [Pa [Pa' Pv]]]]]]]]]].
    + rewrite (prog_plain _ y Hp).
      eapply Nat.le_trans; [apply (IH k1 k2 Hk) | apply prog_app].
    + rewrite Hnv, Hmt, <- !app_assoc.
      rewrite (prog_plain a _ Pa), (prog_plain a' _ Pa').
      change (txt ")" ++ y) with (")"%char :: y).
      apply (prog_mid u ")" y (v ++ txt ")" ++ x)); [reflexivity | | exact Hk].
      intros j1 j2 Hj. rewrite (prog_plain v _ Pv).
      assert (Pr : all plain (txt ")")) by (repeat constructor).
      change (")"%char :: y) with (txt ")" ++ y).
      rewrite (prog_plain _ y Pr), (prog_plain _ x Pr). apply (IH _ _ Hj).
Qed.

(** ** The search for two blocks and the scan *)

Lemma prog_odd_run a s :
  all (non (is_chr "}")) a ->
  forall k, Nat.even k = false -> prog k (a ++ s) = prog k s.
Proof.
  intros Ha. induction Ha as [|c a Hc Ha IH]; intros k Hk; [reflexivity|].
  cbn [prog app]. rewrite Hk. unfold non in Hc. apply negb_true_iff in Hc.
  rewrite Hc. apply (IH k Hk).
Qed.

Lemma even_S k : Nat.even k = true -> Nat.even (S k) = false.
Proof.
  intros H. rewrite Nat.even_succ, <- Nat.negb_even, H. reflexivity.
Qed.

Lemma space_not_rbrace c : is_space c = true -> non (is_chr "}") c = true.
Proof.
  destruct c as [[] [] [] [] [] [] [] []]; vm_compute; congruence.
Qed.

(** A block at the head of the text takes the search two states further. *)
Lemma prog_block s rest k :
  root_at s = Some rest -> Nat.even k = true -> prog k s = prog (S (S k)) rest.
Proof.
  intros H Hk. apply root_at_shape in H. destruct H as [w [body [Hw [Hb ->]]]].
  pose proof (root_open_build w (body ++ txt "}" ++ rest) Hw) as Ho.
  change (txt ":root") with (":"%char :: txt "root") in *.
  rewrite <- app_comm_cons in *.
  cbn [prog]. rewrite Hk, Ho.
  replace (txt "root" ++ w ++ txt "{" ++ body ++ txt "}" ++ rest)
    with ((txt "root" ++ w ++ txt "{" ++ body) ++ "}"%char :: rest)
    by (rewrite <- !app_assoc; reflexivity).
  rewrite prog_odd_run; [| |apply even_S; exact Hk].
  - cbn [prog]. rewrite (even_S k Hk). reflexivity.
  - apply all_app; [repeat constructor|].
    apply all_app; [|apply all_app; [repeat constructor | exact Hb]].
    apply (all_impl is_space); [exact space_not_rbrace | exact Hw].
Qed.

Lemma open_rbrace s s3 :
  root_open s = Some s3 -> In "}"%char s -> In "}"%char s3.
Proof.
  intros H Hin. apply root_open_shape in H. destruct H as [w [Hw ->]].
  apply in_app_or in Hin. destruct Hin as [Hin|Hin].
  { simpl in Hin. intuition discriminate. }
  apply in_app_or in Hin. destruct Hin as [Hin|Hin].
  { rewrite Forall_forall in Hw. apply Hw in Hin. discriminate Hin. }
  apply in_app_or in Hin. destruct Hin as [Hin|Hin]; [|exact Hin].
  simpl in Hin. intuition discriminate.
Qed.

Lemma not_in_rbrace s : ~ In "}"%char s -> all (non (is_chr "}")) s.
Proof.
  induction s as [|c s IH]; intros H; constructor.
  - destruct (non (is_chr "}") c) eqn:E; [reflexivity|].
    apply non_rbrace_false in E. exfalso. apply H. left. exact E.
  - apply IH. intros Hin. apply H. right. exact Hin.
Qed.

(** The text before a block leaves the search where it was. *)
Lemma prog_gap g y k :
  quiet PostProcessor.root_re g y -> In "}"%char y -> Nat.even k = true ->
  prog k (g ++ y) = prog k y.
Proof.
  intros Hq Hy Hk. induction g as [|c g IH]; [reflexivity|].
  apply quiet_cons_inv in Hq. destruct Hq as [Hm Hq].
  cbn [prog app]. rewrite Hk.
  destruct (root_open (c :: g ++ y)) as [s3|] eqn:E; [|apply (IH Hq)].
  exfalso. apply match_root_none in Hm.
  apply (root_at_of_open ((c :: g) ++ y) s3 E); [|exact Hm].
  apply (open_rbrace _ _ E). right. apply in_or_app. right. exact Hy.
Qed.

(** Where the scan finds nothing the search does not complete a block. *)
Lemma prog_quiet s :
  quiet PostProcessor.root_re s [] ->
  forall k, Nat.even k = true -> prog k s <= S k.
Proof.
  induction s as [|c s IH]; intros Hq k Hk; cbn [prog]; [lia|].
  apply quiet_cons_inv in Hq. destruct Hq as [Hm Hq].
  rewrite app_nil_r in Hm. apply match_root_none in Hm. rewrite Hk.
  destruct (root_open (c :: s)) as [s3|] eqn:E; [|apply (IH Hq k Hk)].
  assert (Hn : ~ In "}"%char s).
  { intros Hin. apply (root_at_of_open (c :: s) s3 E); [|exact Hm].
    apply (open_rbrace _ _ E). right. exact Hin. }
  pose proof (prog_odd_run s [] (not_in_rbrace s Hn) (S k) (even_S k Hk)) as Hp.
  rewrite app_nil_r in Hp. rewrite Hp. cbn [prog]. lia.
Qed.

(** The state the search ends in counts the blocks of the scan. *)
Lemma prog_scan : forall ms s tl k,
  scan_all PostProcessor.root_re s = (ms, tl) -> Nat.even k = true ->
  k + 2 * length ms <= prog k s <= S (k + 2 * length ms).
Proof.
  induction ms as [|[g m] ms IH]; intros s tl k H Hk.
  - apply (@scan_nil_inv _ root_consumes) in H. destruct H as [_ Hq].
    pose proof (prog_ge s k). pose proof (prog_quiet s Hq k Hk).
    cbn [length]. lia.
  - apply (@scan_cons_inv _ root_consumes) in H.
    destruct H as [rest [Hs [Hq [Hm Hr]]]].
    rewrite match_at_root in Hm.
    destruct (root_at (m_text m ++ rest)) as [r0|] eqn:Ea; [|discriminate].
    assert (r0 = rest) by congruence. subst r0.
    assert (Hin : In "}"%char (m_text m ++ rest)).
    { destruct (root_at_shape _ _ Ea) as [w [body [_ [_ ->]]]].
      apply in_or_app. right. apply in_or_app. right.
      apply in_or_app. right. apply in_or_app. right. left. reflexivity. }
    rewrite Hs, (prog_gap g _ k Hq Hin Hk), (prog_block _ _ k Ea Hk).
    specialize (IH rest tl (S (S k)) Hr Hk). cbn [length]. lia.
Qed.

(** The normalisation adds no [:root] block. *)
Lemma root_count_normalize x :
  length (findall0 PostProcessor.root_re (normalize_vars x)) <=
  length (findall0 PostProcessor.root_re x).
Proof.
  unfold findall0, finditer. rewrite !length_map.
  pose proof (prog_normalizes x _ (normalizes_spec x) 0 0 (Nat.le_refl 0)) as Hp.
  destruct (scan_all PostProcessor.root_re x) as [ms tl] eqn:Ex.
  destruct (scan_all PostProcessor.root_re (normalize_vars x)) as [ms' tl'] eqn:Ey.
  pose proof (prog_scan ms x tl 0 Ex eq_refl).
  pose proof (prog_scan ms' _ tl' 0 Ey eq_refl).
  cbn [fst]. lia.
Qed.

(** ** A second pass *)

Lemma strip_count css :
  length (findall0 PostProcessor.root_re (strip_duplicate_roots css)) <= 1.
Proof.
  pose proof (strip_shape css) as Hshape.
  unfold findall0, finditer. rewrite !length_map.
  destruct (scan_all PostProcessor.root_re css) as [ms tail] eqn:E.
  cbn [fst snd] in Hshape.
  destruct ms as [|[g0 m1] [|gm2 ms]].
  - rewrite Hshape, E. cbn [fst length]. lia.
  - rewrite Hshape, E. cbn [fst length]. lia.
  - rewrite Hshape, (scan_stripped _ _ _ _ _ _ E). cbn [fst length]. lia.
Qed.

Lemma strip_fixed css :
  length (findall0 PostProcessor.root_re css) <= 1 ->
  strip_duplicate_roots css = css.
Proof.
  unfold findall0, finditer. rewrite !length_map. intros H.
  rewrite strip_shape.
  destruct (fst (scan_all PostProcessor.root_re css)) as [|[g0 m1] [|gm2 ms]];
    try reflexivity.
  cbn [length] in H. lia.
Qed.

Lemma post_process_count css :
  length (findall0 PostProcessor.root_re (post_process_css css)) <= 1.
Proof.
  unfold post_process_css.
  eapply Nat.le_trans; [apply root_count_normalize | apply strip_count].
Qed.

(** C8, as amended.  A second pass strips nothing, whatever the input: the
    block pattern finds at most one [:root] block in the output of
    [post_process_css], so step 1 returns that output as it is.  And when
    none of the references that the first pass rewrites is collapsed to a
    literal value of the table, the second pass rewrites nothing either:
    [post_process_css] applied to its own output returns it unchanged. *)
Theorem second_pass_changes_nothing css :
  length (findall0 PostProcessor.root_re (post_process_css css)) <= 1 /\
  strip_duplicate_roots (post_process_css css) = post_process_css css /\
  (no_literal (strip_duplicate_roots css) = true ->
   post_process_css (post_process_css css) = post_process_css css).
Proof.
  pose proof (post_process_count css) as Hc.
  pose proof (strip_fixed _ Hc) as Hs.
  split; [exact Hc|]. split; [exact Hs|].
  intros Hl. unfold post_process_css at 1. rewrite Hs.
  unfold post_process_css. apply normalize_vars_idempotent. exact Hl.
Qed.

Lemma second_pass_changes_nothing_witness :
  no_literal
    (strip_duplicate_roots
       (txt ":root{--ctc-primary:#111} :root{--ctc-primary:#222} a{margin:var(--ctc-spacing-4, 1px);color:var( --ctc-neutral-700 )}"))
  = true /\
  post_process_css
    (post_process_css
       (txt ":root{--ctc-primary:#111} :root{--ctc-primary:#222} a{margin:var(--ctc-spacing-4, 1px);color:var( --ctc-neutral-700 )}"))
  = post_process_css
      (txt ":root{--ctc-primary:#111} :root{--ctc-primary:#222} a{margin:var(--ctc-spacing-4, 1px);color:var( --ctc-neutral-700 )}").
Proof.
  split; [vm_compute; reflexivity|].
  apply (proj2 (proj2 (second_pass_changes_nothing _))).
  vm_compute. reflexivity.
Defined.

(** ** The first block through the whole pass *)

Lemma sub_quiet r f a b :
  (forall s m rest, match_at r s = Some (m, rest) -> length rest < length s) ->
  quiet r a b -> sub r f (a ++ b) = a ++ sub r f b.
Proof.
  intros Hc. induction a as [|c a IH]; intros Hq; [reflexivity|].
  apply quiet_cons_inv in Hq. destruct Hq as [Hn Hq].
  rewrite (sub_eq r Hc), Hn. simpl. rewrite (IH Hq). reflexivity.
Qed.

(** C9, as amended.  When the block pattern finds at least one block, step 1
    keeps the first block byte for byte at the same offset: its output starts
    with the same text up to the end of that block, and the block pattern
    finds that block first in the output.  Step 2 then runs over the whole
    text; the first block comes out of the whole pass unchanged when no match
    of the reference pattern starts in it or before it. *)
Theorem first_root_block_kept css g0 m1 ms tail :
  scan_all PostProcessor.root_re css = ((g0, m1) :: ms, tail) ->
  let rest' := match ms with [] => tail | _ :: _ => stripped_rest ms tail end in
  css = g0 ++ m_text m1 ++ unscanned ms tail /\
  strip_duplicate_roots css = g0 ++ m_text m1 ++ rest' /\
  hd_error (fst (scan_all PostProcessor.root_re (strip_duplicate_roots css)))
    = Some (g0, m1) /\
  (quiet var_re (g0 ++ m_text m1) rest' ->
   post_process_css css = g0 ++ m_text m1 ++ normalize_vars rest').
Proof.
  intros E rest'.
  pose proof (strip_shape css) as Hshape.
  pose proof (unscanned_scan css) as Hin.
  rewrite E in Hshape, Hin. cbn [fst snd] in Hshape, Hin.
  assert (Hcss : css = g0 ++ m_text m1 ++ unscanned ms tail).
  { rewrite Hin at 1. unfold unscanned. cbn [map concat fst snd].
    rewrite <- !app_assoc. reflexivity. }
  assert (Hstrip : strip_duplicate_roots css = g0 ++ m_text m1 ++ rest').
  { destruct ms as [|gm2 ms]; [|exact Hshape].
    rewrite Hshape. rewrite Hcss at 1. unfold unscanned. reflexivity. }
  split; [exact Hcss|]. split; [exact Hstrip|]. split.
  - destruct ms as [|gm2 ms].
    + rewrite Hshape, E. reflexivity.
    + rewrite Hshape, (scan_stripped _ _ _ _ _ _ E). reflexivity.
  - intros Hq. unfold post_process_css, normalize_vars.
    rewrite Hstrip, app_assoc.
    rewrite (sub_quiet var_re normalize_var _ _ var_consumes Hq).
    rewrite <- app_assoc. reflexivity.
Qed.

Ltac quiet_by_steps :=
  cbn [txt list_ascii_of_string app];
  repeat (apply quiet_cons; [vm_compute; reflexivity|]);
  apply quiet_nil.

Lemma first_root_block_kept_witness :
  post_process_css
    (txt ":root{--a:1}b{}:root{--a:2}c{d:var(--ctc-spacing-0)}") =
  txt ":root{--a:1}" ++
  txt "b{}/* [PostProcessor] Stripped duplicate :root */c{d:0}".
Proof.
  destruct (first_root_block_kept
              (txt ":root{--a:1}b{}:root{--a:2}c{d:var(--ctc-spacing-0)}")
              [] (MObj (txt ":root{--a:1}") [])
              [(txt "b{}", MObj (txt ":root{--a:2}") [])]
              (txt "c{d:var(--ctc-spacing-0)}"))
    as [_ [_ [_ H]]].
  - vm_compute. reflexivity.
  - rewrite H.
    + vm_compute. reflexivity.
    + quiet_by_steps.
Defined.

(** The claim of C9 fails as stated: step 2 rewrites the references that
    stand inside the first block, so its text in the output differs from its
    text in the input. *)
Lemma first_root_block_rewritten :
  findall0 PostProcessor.root_re (txt ":root{--gap:var(--ctc-spacing-0)}:root{}") =
    [txt ":root{--gap:var(--ctc-spacing-0)}"; txt ":root{}"] /\
  post_process_css (txt ":root{--gap:var(--ctc-spacing-0)}:root{}") =
    txt ":root{--gap:0}/* [PostProcessor] Stripped duplicate :root */" /\
  contains (txt ":root{--gap:var(--ctc-spacing-0)}")
           (post_process_css (txt ":root{--gap:var(--ctc-spacing-0)}:root{}"))
    = false.
Proof. repeat split; vm_compute; reflexivity. Qed.

(** ** The validator *)

Lemma extends_refl v : extends v v.
Proof.
  split; [reflexivity|]. split; exists []; symmetry; apply app_nil_r.
Qed.

Lemma extends_trans v1 v2 v3 : extends v1 v2 -> extends v2 v3 -> extends v1 v3.
Proof.
  intros [Hc1 [[i1 Hi1] [w1 Hw1]]] [Hc2 [[i2 Hi2] [w2 Hw2]]].
  split; [congruence|]. split.
  - exists (i1 ++ i2). rewrite Hi2, Hi1, app_assoc. reflexivity.
  - exists (w1 ++ w2). rewrite Hw2, Hw1, app_assoc. reflexivity.
Qed.

Lemma extends_add_issue msg v : extends v (add_issue msg v).
Proof.
  split; [reflexivity|]. split; [exists [msg]; reflexivity|].
  exists []. symmetry. apply app_nil_r.
Qed.

Lemma extends_add_warning msg v : extends v (add_warning msg v).
Proof.
  split; [reflexivity|]. split; [|exists [msg]; reflexivity].
  exists []. symmetry. apply app_nil_r.
Qed.

Lemma extends_issue v v' msg : extends v v' -> In msg (issues v) -> In msg (issues v').
Proof.
  intros [_ [[i Hi] _]] H. rewrite Hi. apply in_or_app. left. exact H.
Qed.

Lemma extends_warning v v' msg :
  extends v v' -> In msg (warnings v) -> In msg (warnings v').
Proof.
  intros [_ [_ [w Hw]]] H. rewrite Hw. apply in_or_app. left. exact H.
Qed.

Ltac extends_step :=
  first [ apply extends_refl
        | eapply extends_trans; [|apply extends_add_issue]
        | eapply extends_trans; [|apply extends_add_warning] ].

Lemma check_duplicate_roots_extends v : extends v (check_duplicate_roots v).
Proof.
  unfold check_duplicate_roots.
  destruct (1 <? length (findall0 Quality.root_re (css v))); [|apply extends_refl].
  destruct (1 <? count_distinct _).
  - eapply extends_trans; apply extends_add_issue.
  - apply extends_add_issue.
Qed.

Lemma invalid_step_frame st x :
  css (snd (invalid_step st x)) = css (snd st) /\
  issues (snd (invalid_step st x)) = issues (snd st) /\
  exists w, warnings (snd (invalid_step st x)) = warnings (snd st) ++ w.
Proof.
  destruct st as [inv v]. unfold invalid_step.
  destruct (negb (mem x Quality.VALID_VARIABLES) && _); simpl.
  - repeat split. exists [msg_unknown_variable x]. reflexivity.
  - repeat split. exists []. symmetry. apply app_nil_r.
Qed.

Lemma invalid_fold_frame usages : forall st,
  css (snd (fold_left invalid_step usages st)) = css (snd st) /\
  issues (snd (fold_left invalid_step usages st)) = issues (snd st) /\
  exists w, warnings (snd (fold_left invalid_step usages st)) = warnings (snd st) ++ w.
Proof.
  induction usages as [|u us IH]; intros st; simpl.
  - repeat split. exists []. symmetry. apply app_nil_r.
  - destruct (IH (invalid_step st u)) as [Hc [Hi [w Hw]]].
    destruct (invalid_step_frame st u) as [Hc' [Hi' [w' Hw']]].
    repeat split; try congruence.
    exists (w' ++ w). rewrite Hw, Hw', app_assoc. reflexivity.
Qed.

Lemma set_add_In x u inv : In x (set_add u inv) -> x = u \/ In x inv.
Proof.
  unfold set_add. destruct (mem u inv); [tauto|].
  intros H. apply in_app_or in H. destruct H as [H|[H|[]]]; auto.
Qed.

(** Only names that match one of [INVALID_PATTERNS] enter [invalid_vars]. *)
Lemma invalid_fold_members usages : forall st x,
  In x (fst (fold_left invalid_step usages st)) ->
  In x (fst st) \/ (In x usages /\ matches_invalid_pattern x = true).
Proof.
  induction usages as [|u us IH]; intros st x H; simpl in H; [tauto|].
  apply IH in H. destruct H as [H|[H Hm]]; [|right; split; [right|]; assumption].
  destruct st as [inv v]. unfold invalid_step in H.
  assert (Hin : In x (if matches_invalid_pattern u then set_add u inv else inv)).
  { destruct (negb (mem u Quality.VALID_VARIABLES) && _); exact H. }
  clear H. destruct (matches_invalid_pattern u) eqn:E; [|tauto].
  apply set_add_In in Hin. destruct Hin as [->|Hin]; [|tauto].
  right. split; [left; reflexivity | exact E].
Qed.

Lemma invalid_fold_warns name usages : forall st,
  In name usages ->
  matches_invalid_pattern name = false ->
  mem name Quality.VALID_VARIABLES = false ->
  (forall x, In x (fst st) -> matches_invalid_pattern x = true) ->
  In (msg_unknown_variable name)
     (warnings (snd (fold_left invalid_step usages st))).
Proof.
  induction usages as [|u us IH]; intros st Hin Hm Hv Hinv; [contradiction|].
  simpl. destruct Hin as [->|Hin].
  - destruct (invalid_fold_frame us (invalid_step st name)) as [_ [_ [w Hw]]].
    rewrite Hw. apply in_or_app. left.
    destruct st as [inv v]. unfold invalid_step. rewrite Hm, Hv.
    assert (Hni : mem name inv = false).
    { destruct (mem name inv) eqn:E; [|reflexivity].
      apply mem_In in E. apply Hinv in E. congruence. }
    rewrite Hni. simpl. apply in_or_app. right. left. reflexivity.
  - apply IH; auto. intros x Hx.
    destruct (invalid_fold_members [u] st x Hx) as [H|[[H|[]] H']]; auto.
Qed.

Lemma check_invalid_variables_extends v : extends v (check_invalid_variables v).
Proof.
  unfold check_invalid_variables.
  destruct (invalid_fold_frame (findall1 var_usage_re (css v)) ([], v))
    as [Hc [Hi Hw]].
  destruct (fold_left invalid_step _ _) as [inv v1]. simpl in *.
  assert (H1 : extends v v1).
  { split; [exact Hc|]. split; [|exact Hw].
    exists []. rewrite Hi. symmetry. apply app_nil_r. }
  destruct inv; [exact H1|].
  eapply extends_trans; [exact H1 | apply extends_add_issue].
Qed.

Lemma fold_warnings_extends (A : Type) (c : A -> bool) (m : A -> text) l :
  forall v,
    extends v (fold_left (fun v' x => if c x then add_warning (m x) v' else v') l v)
    /\ issues (fold_left (fun v' x => if c x then add_warning (m x) v' else v') l v)
       = issues v.
Proof.
  induction l as [|x l IH]; intros v; simpl.
  - split; [apply extends_refl | reflexivity].
  - destruct (IH (if c x then add_warning (m x) v else v)) as [He Hi].
    split.
    + eapply extends_trans; [|exact He].
      destruct (c x); [apply extends_add_warning | apply extends_refl].
    + rewrite Hi. destruct (c x); reflexivity.
Qed.

Lemma check_brand_colors_extends v : extends v (check_brand_colors v).
Proof.
  unfold check_brand_colors.
  destruct (search root_body_re (css v)); [|apply extends_add_issue].
  apply (fold_warnings_extends _
           (fun color => negb (contains color (group_or_empty m 1)))
           msg_missing_color).
Qed.

Lemma check_typography_frame v :
  extends v (check_typography v) /\ issues (check_typography v) = issues v.
Proof.
  unfold check_typography.
  destruct (search root_body_re (css v)) as [m|];
    [|split; [apply extends_refl | reflexivity]].
  destruct (contains (txt "Arial, sans-serif") _ || _);
    destruct (negb (contains (txt "--ctc-font-heading") _));
    destruct (negb (contains (txt "--ctc-font-body") _));
    (split; [repeat extends_step | reflexivity]).
Qed.

Lemma check_generic_styles_frame v :
  extends v (check_generic_styles v) /\ issues (check_generic_styles v) = issues v.
Proof.
  unfold check_generic_styles.
  destruct (10 <? _); split;
    try reflexivity; [apply extends_add_warning | apply extends_refl].
Qed.

Lemma scan_positions r r' :
  (forall s, match_at r s = None -> match_at r' s = None) ->
  forall n s, fst (scan n r s) = [] -> fst (scan n r' s) = [].
Proof.
  intros Hn. induction n as [|n IH]; intros s H; simpl in *; [reflexivity|].
  destruct (match_at r s) as [[m rest]|] eqn:E.
  - destruct (scan n r rest); discriminate.
  - rewrite (Hn s E). destruct s as [|c s]; [reflexivity|].
    specialize (IH s).
    destruct (scan n r s) as [[|[gap m] ms] tl]; [|discriminate].
    destruct (scan n r' s) as [[|[gap' m'] ms'] tl']; [reflexivity|].
    specialize (IH eq_refl). discriminate.
Qed.

Lemma findall_root_nil_search_body c :
  findall0 Quality.root_re c = [] <-> search root_body_re c = None.
Proof.
  unfold findall0, search, finditer, scan_all. split; intros H.
  - apply map_eq_nil in H. apply map_eq_nil in H.
    rewrite (scan_positions Quality.root_re root_body_re); [reflexivity | | exact H].
    intros s Hs. apply match_at_root_body_none. apply match_root_none. exact Hs.
  - assert (H' : fst (scan (S (length c)) root_body_re c) = []).
    { destruct (fst (scan (S (length c)) root_body_re c)); [reflexivity|discriminate]. }
    rewrite (scan_positions root_body_re Quality.root_re); [reflexivity | | exact H'].
    intros s Hs. apply match_root_none. apply match_at_root_body_none. exact Hs.
Qed.

Lemma passed_false_of_issue r msg :
  In msg (issues r) -> (length (issues r) =? 0) = false.
Proof. destruct (issues r); [contradiction | reflexivity]. Qed.

(** C7.  The report of [validate]: the score is 100 minus 25 per critical
    issue minus 5 per warning, floored at 0 (so it lies between 0 and 100),
    and [passed] holds exactly when the list of critical issues is empty,
    whatever the warnings. *)
Theorem validate_score_and_passed c :
  score (validate c) =
    Z.max 0 (100 - 25 * Z.of_nat (length (r_issues (validate c)))
                 - 5 * Z.of_nat (length (r_warnings (validate c)))) /\
  (passed (validate c) = true <-> r_issues (validate c) = []) /\
  (0 <= score (validate c) <= 100)%Z.
Proof.
  unfold validate, validate_from. cbn [score passed r_issues r_warnings].
  unfold calculate_score.
  set (v := run_checks (init c)).
  split; [f_equal; lia|]. split; [|lia].
  destruct (issues v); simpl; split; congruence.
Qed.

(** C10.  When the block pattern finds no [:root] block in the text (the
    empty text included), the report carries the critical issue
    "CRITICAL: No :root declaration found" and [passed] is false. *)
Theorem no_root_block_never_passes c :
  findall0 Quality.root_re c = [] ->
  In msg_no_root (r_issues (validate c)) /\ passed (validate c) = false.
Proof.
  intros H. apply findall_root_nil_search_body in H.
  assert (Hin : In msg_no_root (issues (run_checks (init c)))).
  { unfold run_checks.
    set (v2 := check_invalid_variables (check_duplicate_roots (init c))).
    assert (Hc : css v2 = c).
    { destruct (check_invalid_variables_extends (check_duplicate_roots (init c)))
        as [Hc2 _].
      destruct (check_duplicate_roots_extends (init c)) as [Hc1 _].
      unfold v2. rewrite Hc2, Hc1. reflexivity. }
    apply (extends_issue (check_typography (check_brand_colors v2)));
      [apply check_generic_styles_frame|].
    apply (extends_issue (check_brand_colors v2));
      [apply check_typography_frame|].
    unfold check_brand_colors. rewrite Hc, H. simpl.
    apply in_or_app. right. left. reflexivity. }
  split; [exact Hin|].
  unfold validate, validate_from. cbn [passed].
  apply (passed_false_of_issue _ _ Hin).
Qed.

Lemma no_root_block_never_passes_witness :
  In msg_no_root (r_issues (validate [])) /\ passed (validate []) = false.
Proof. apply no_root_block_never_passes. reflexivity. Defined.

(** C4, as amended.  When the block pattern finds two or more blocks and
    the [--ctc-primary] values collected from them (one per declaring block,
    stripped and lower-cased, see [primaries_of]) are not all equal, the
    report carries the critical issue on conflicting values, whose text lists
    every collected value in source order, repeats included; [passed] is
    false. *)
Theorem conflicting_primary_reported c :
  1 < length (findall0 Quality.root_re c) ->
  1 < count_distinct (primaries_of (findall0 Quality.root_re c)) ->
  In (msg_conflicting_primary (primaries_of (findall0 Quality.root_re c)))
     (r_issues (validate c)) /\
  passed (validate c) = false.
Proof.
  intros Hn Hd.
  assert (Hin : In (msg_conflicting_primary
                      (primaries_of (findall0 Quality.root_re c)))
                   (issues (run_checks (init c)))).
  { unfold run_checks.
    apply (extends_issue (check_duplicate_roots (init c))).
    - eapply extends_trans; [apply check_invalid_variables_extends|].
      eapply extends_trans; [apply check_brand_colors_extends|].
      eapply extends_trans; [apply check_typography_frame|].
      apply check_generic_styles_frame.
    - unfold check_duplicate_roots. cbn [css init].
      apply Nat.ltb_lt in Hn, Hd. rewrite Hn, Hd. simpl.
      right. left. reflexivity. }
  split; [exact Hin|].
  unfold validate, validate_from. cbn [passed].
  apply (passed_false_of_issue _ _ Hin).
Qed.

Lemma conflicting_primary_reported_witness :
  In (txt "CRITICAL: Brand color --ctc-primary has conflicting values: ['#00637b', '#0047ab']")
     (r_issues (validate
        (txt ":root{--ctc-primary: #00637B;}:root{--ctc-primary: #0047AB;}")))
  /\ passed (validate
        (txt ":root{--ctc-primary: #00637B;}:root{--ctc-primary: #0047AB;}"))
     = false.
Proof.
  apply (conflicting_primary_reported
           (txt ":root{--ctc-primary: #00637B;}:root{--ctc-primary: #0047AB;}"));
    vm_compute; lia.
Defined.

(** The claim of C4 fails as stated: with three blocks declaring [#111],
    [#222] and [#111] again, the issue lists three values, not the two
    distinct ones. *)
Lemma conflicting_primary_lists_repeats :
  r_issues (validate
    (txt ":root{--ctc-primary:#111;}:root{--ctc-primary:#222;}:root{--ctc-primary:#111;}")) =
  [ txt "CRITICAL: Found 3 :root declarations (should be 1)";
    txt "CRITICAL: Brand color --ctc-primary has conflicting values: ['#111', '#222', '#111']" ]
  /\
  ~ In (msg_conflicting_primary [txt "#111"; txt "#222"])
       (r_issues (validate
          (txt ":root{--ctc-primary:#111;}:root{--ctc-primary:#222;}:root{--ctc-primary:#111;}"))).
Proof.
  split; [vm_compute; reflexivity|].
  vm_compute. intros [H|[H|[]]]; discriminate.
Qed.

Lemma check_invalid_variables_quiet v :
  (forall x, In x (findall1 var_usage_re (css v)) ->
             matches_invalid_pattern x = false) ->
  issues (check_invalid_variables v) = issues v.
Proof.
  intros Hno. unfold check_invalid_variables.
  pose proof (invalid_fold_members (findall1 var_usage_re (css v)) ([], v)) as Hm.
  destruct (invalid_fold_frame (findall1 var_usage_re (css v)) ([], v))
    as [_ [Hi _]].
  destruct (fold_left invalid_step _ _) as [inv v1]. simpl in *.
  destruct inv as [|x inv]; [exact Hi|].
  destruct (Hm x (or_introl eq_refl)) as [[]|[Hin Hx]].
  rewrite (Hno x Hin) in Hx. discriminate.
Qed.

Lemma check_brand_colors_quiet v :
  search root_body_re (css v) <> None ->
  issues (check_brand_colors v) = issues v.
Proof.
  intros H. unfold check_brand_colors.
  destruct (search root_body_re (css v)) as [m|]; [|congruence].
  apply (fold_warnings_extends _
           (fun color => negb (contains color (group_or_empty m 1)))
           msg_missing_color).
Qed.

(** C2, as amended.  The validator does not consult the normalisation
    table.  A referenced name that is not in [VALID_VARIABLES] and matches
    none of [INVALID_PATTERNS] adds the warning "Unknown variable: <name>";
    and when no referenced name matches one of [INVALID_PATTERNS], a text with
    exactly one [:root] block has no critical issue and passes. *)
Theorem unknown_reference_is_a_warning c name :
  In name (findall1 var_usage_re c) ->
  mem name Quality.VALID_VARIABLES = false ->
  matches_invalid_pattern name = false ->
  In (msg_unknown_variable name) (r_warnings (validate c)) /\
  ((forall x, In x (findall1 var_usage_re c) ->
              matches_invalid_pattern x = false) ->
   length (findall0 Quality.root_re c) = 1 ->
   r_issues (validate c) = [] /\ passed (validate c) = true).
Proof.
  intros Hin Hv Hm.
  pose proof (check_duplicate_roots_extends (init c)) as H1.
  set (v1 := check_duplicate_roots (init c)) in *.
  assert (Hc1 : css v1 = c) by (destruct H1 as [Hc _]; exact Hc).
  pose proof (check_invalid_variables_extends v1) as H2.
  set (v2 := check_invalid_variables v1) in *.
  assert (Hc2 : css v2 = c) by (destruct H2 as [Hc _]; congruence).
  split.
  - unfold validate, validate_from. cbn [r_warnings]. unfold run_checks.
    fold v1. fold v2.
    apply (extends_warning v2).
    + eapply extends_trans; [apply check_brand_colors_extends|].
      eapply extends_trans; [apply check_typography_frame|].
      apply check_generic_styles_frame.
    + unfold v2, check_invalid_variables. rewrite Hc1.
      pose proof (invalid_fold_warns name (findall1 var_usage_re c) ([], v1)
                    Hin Hm Hv) as Hw.
      destruct (fold_left invalid_step _ _) as [inv v'].
      assert (Hw' : In (msg_unknown_variable name) (warnings v')).
      { apply Hw. intros x []. }
      destruct inv; [exact Hw'|]. exact Hw'.
  - intros Hno Hone.
    assert (Hi : issues (run_checks (init c)) = []).
    { unfold run_checks. fold v1. fold v2.
      destruct (check_generic_styles_frame (check_typography (check_brand_colors v2)))
        as [_ ->].
      destruct (check_typography_frame (check_brand_colors v2)) as [_ ->].
      rewrite check_brand_colors_quiet.
      - unfold v2. rewrite check_invalid_variables_quiet.
        + unfold v1, check_duplicate_roots. cbn [css init]. rewrite Hone.
          reflexivity.
        + rewrite Hc1. exact Hno.
      - rewrite Hc2. intros Hs. apply findall_root_nil_search_body in Hs.
        rewrite Hs in Hone. discriminate. }
    unfold validate, validate_from. cbn [r_issues passed].
    rewrite Hi. split; reflexivity.
Qed.

Lemma unknown_reference_is_a_warning_witness :
  In (txt "Unknown variable: --ctc-totally-made-up")
     (r_warnings (validate (txt ":root{} a{color:var(--ctc-totally-made-up)}")))
  /\ r_issues (validate (txt ":root{} a{color:var(--ctc-totally-made-up)}")) = []
  /\ passed (validate (txt ":root{} a{color:var(--ctc-totally-made-up)}")) = true.
Proof.
  destruct (unknown_reference_is_a_warning
              (txt ":root{} a{color:var(--ctc-totally-made-up)}")
              (txt "--ctc-totally-made-up")) as [Hw Hp].
  - vm_compute. left. reflexivity.
  - reflexivity.
  - reflexivity.
  - split; [exact Hw|]. apply Hp.
    + vm_compute. intros x [<-|[]]. reflexivity.
    + reflexivity.
Defined.

(** The claim of C2 fails as stated: a reference to a name that is neither
    in [VALID_VARIABLES] nor in [NORMALIZATION_MAP] yields no critical issue,
    and the text passes. *)
Lemma unknown_reference_passes :
  In (txt "--ctc-totally-made-up")
     (findall1 var_usage_re (txt ":root{} a{color:var(--ctc-totally-made-up)}")) /\
  mem (txt "--ctc-totally-made-up") Quality.VALID_VARIABLES = false /\
  lookup (txt "--ctc-totally-made-up") NORMALIZATION_MAP = None /\
  r_issues (validate (txt ":root{} a{color:var(--ctc-totally-made-up)}")) = [] /\
  passed (validate (txt ":root{} a{color:var(--ctc-totally-made-up)}")) = true.
Proof.
  split; [vm_compute; left; reflexivity|].
  repeat split; vm_compute; reflexivity.
Qed.

(** ** What the checks add, exactly *)

Lemma mem_set_add x inv : mem x (set_add x inv) = true.
Proof.
  unfold set_add. destruct (mem x inv) eqn:E; [exact E|].
  apply mem_In. apply in_or_app. right. left. reflexivity.
Qed.

Lemma set_add_spec x inv y : In y (set_add x inv) <-> y = x \/ In y inv.
Proof.
  unfold set_add. destruct (mem x inv) eqn:E.
  - apply mem_In in E. split; [tauto|]. intros [->|H]; assumption.
  - rewrite in_app_iff. simpl. split; intros H; intuition congruence.
Qed.

Lemma set_add_NoDup x inv : NoDup inv -> NoDup (set_add x inv).
Proof.
  intros H. unfold set_add. destruct (mem x inv) eqn:E; [exact H|].
  assert (Hn : ~ In x inv).
  { intros Hin. apply mem_In in Hin. congruence. }
  clear E. induction H as [|a l Ha Hl IH]; simpl.
  - constructor; [intros []|constructor].
  - constructor.
    + rewrite in_app_iff. simpl. intros [H|[H|[]]]; [tauto|].
      apply Hn. left. congruence.
    + apply IH. intros Hin. apply Hn. right. exact Hin.
Qed.

(** One turn of the loop of [_check_invalid_variables], when the set holds
    names that match an invalid pattern only. *)
Lemma invalid_step_exact inv v x :
  (forall y, In y inv -> matches_invalid_pattern y = true) ->
  invalid_step (inv, v) x =
  (if matches_invalid_pattern x then set_add x inv else inv,
   if unknown_name x then add_warning (msg_unknown_variable x) v else v).
Proof.
  intros Hinv. unfold invalid_step, unknown_name.
  destruct (matches_invalid_pattern x) eqn:Em.
  - rewrite mem_set_add. rewrite !andb_false_r. reflexivity.
  - assert (Hni : mem x inv = false).
    { destruct (mem x inv) eqn:E; [|reflexivity].
      apply mem_In in E. apply Hinv in E. congruence. }
    rewrite Hni. cbn [negb]. rewrite !andb_true_r.
    destruct (negb (mem x Quality.VALID_VARIABLES)); reflexivity.
Qed.

Lemma invalid_fold_exact usages : forall inv v,
  (forall y, In y inv -> matches_invalid_pattern y = true) ->
  NoDup inv ->
  NoDup (fst (fold_left invalid_step usages (inv, v))) /\
  (forall y, In y (fst (fold_left invalid_step usages (inv, v))) <->
             In y inv \/ (In y usages /\ matches_invalid_pattern y = true)) /\
  css (snd (fold_left invalid_step usages (inv, v))) = css v /\
  issues (snd (fold_left invalid_step usages (inv, v))) = issues v /\
  warnings (snd (fold_left invalid_step usages (inv, v))) =
    warnings v ++ map msg_unknown_variable (filter unknown_name usages).
Proof.
  induction usages as [|u us IH]; intros inv v Hinv Hnd; cbn [fold_left].
  - cbn [fst snd filter map]. rewrite app_nil_r.
    repeat split; try assumption; try tauto. intros [H|[[] _]]. exact H.
  - rewrite (invalid_step_exact inv v u Hinv).
    set (inv' := if matches_invalid_pattern u then set_add u inv else inv).
    set (v' := if unknown_name u then add_warning (msg_unknown_variable u) v
               else v).
    assert (Hinv' : forall y, In y inv' -> matches_invalid_pattern y = true).
    { unfold inv'. intros y Hy. destruct (matches_invalid_pattern u) eqn:E;
        [|auto]. apply set_add_spec in Hy. destruct Hy as [->|Hy]; auto. }
    assert (Hnd' : NoDup inv').
    { unfold inv'. destruct (matches_invalid_pattern u);
        [apply set_add_NoDup|]; exact Hnd. }
    destruct (IH inv' v' Hinv' Hnd') as [H1 [H2 [H3 [H4 H5]]]].
    split; [exact H1|]. split; [|split; [|split]].
    + intros y. rewrite H2. unfold inv'. cbn [In].
      destruct (matches_invalid_pattern u) eqn:E.
      * rewrite set_add_spec. split; intros H; [|intuition congruence].
        destruct H as [[->|H]|[H Hm]]; auto.
      * split; intros H; [tauto|].
        destruct H as [H|[[<-|H] Hm]]; auto. congruence.
    + rewrite H3. unfold v'. destruct (unknown_name u); reflexivity.
    + rewrite H4. unfold v'. destruct (unknown_name u); reflexivity.
    + rewrite H5. unfold v'. cbn [filter].
      destruct (unknown_name u); cbn [warnings add_warning map].
      * rewrite <- app_assoc. reflexivity.
      * reflexivity.
Qed.

(** The loop of [_check_invalid_variables] on the references of [v]. *)
Lemma invalid_loop v :
  exists l v1,
    fold_left invalid_step (findall1 var_usage_re (css v)) ([], v) = (l, v1) /\
    NoDup l /\
    (forall y, In y l <->
               In y (findall1 var_usage_re (css v)) /\
               matches_invalid_pattern y = true) /\
    css v1 = css v /\ issues v1 = issues v /\
    warnings v1 = warnings v ++
      map msg_unknown_variable
          (filter unknown_name (findall1 var_usage_re (css v))).
Proof.
  destruct (invalid_fold_exact (findall1 var_usage_re (css v)) [] v)
    as [H1 [H2 [H3 [H4 H5]]]]; [intros y [] | constructor |].
  destruct (fold_left invalid_step _ _) as [l v1] eqn:E. cbn [fst snd] in *.
  exists l, v1. split; [reflexivity|]. split; [exact H1|].
  split; [|split; [exact H3 | split; [exact H4 | exact H5]]].
  intros y. rewrite H2. cbn [In]. tauto.
Qed.

Lemma check_invalid_variables_issues v :
  exists l,
    NoDup l /\
    (forall y, In y l <->
               In y (findall1 var_usage_re (css v)) /\
               matches_invalid_pattern y = true) /\
    issues (check_invalid_variables v) =
      issues v ++ match l with [] => [] | _ :: _ => [msg_invalid_variables l] end.
Proof.
  destruct (invalid_loop v) as [l [v1 [E [Hnd [Hl [_ [Hi _]]]]]]].
  exists l. split; [exact Hnd|]. split; [exact Hl|].
  unfold check_invalid_variables. rewrite E.
  destruct l; cbn [issues add_issue]; rewrite Hi;
    [symmetry; apply app_nil_r | reflexivity].
Qed.

Lemma check_brand_colors_issues v :
  issues (check_brand_colors v) =
    issues v ++ match search root_body_re (css v) with
                | None => [msg_no_root]
                | Some _ => []
                end.
Proof.
  unfold check_brand_colors.
  destruct (search root_body_re (css v)) as [m|]; [|reflexivity].
  rewrite app_nil_r.
  apply (fold_warnings_extends _
           (fun color => negb (contains color (group_or_empty m 1)))
           msg_missing_color).
Qed.

Lemma search_root_body_count c :
  match search root_body_re c with
  | None => [msg_no_root]
  | Some _ => []
  end = if length (findall0 Quality.root_re c) =? 0 then [msg_no_root] else [].
Proof.
  destruct (search root_body_re c) as [m|] eqn:E.
  - destruct (findall0 Quality.root_re c) as [|b bs] eqn:Ef; [|reflexivity].
    apply findall_root_nil_search_body in Ef. congruence.
  - apply findall_root_nil_search_body in E. rewrite E. reflexivity.
Qed.

(** The critical issues of a run of the five checks on a fresh validator. *)
Lemma run_checks_issues c :
  exists l,
    NoDup l /\
    (forall y, In y l <->
               In y (findall1 var_usage_re c) /\
               matches_invalid_pattern y = true) /\
    issues (run_checks (init c)) =
      (if 1 <? length (findall0 Quality.root_re c) then
         msg_duplicate_roots (length (findall0 Quality.root_re c)) ::
         (if 1 <? count_distinct (primaries_of (findall0 Quality.root_re c))
          then [msg_conflicting_primary
                  (primaries_of (findall0 Quality.root_re c))]
          else [])
       else []) ++
      match l with [] => [] | _ :: _ => [msg_invalid_variables l] end ++
      (if length (findall0 Quality.root_re c) =? 0 then [msg_no_root] else []).
Proof.
  unfold run_checks.
  pose proof (check_duplicate_roots_extends (init c)) as [Hc1 _].
  set (v1 := check_duplicate_roots (init c)) in *.
  pose proof (check_invalid_variables_extends v1) as [Hc2 _].
  destruct (check_invalid_variables_issues v1) as [l [Hnd [Hl Hi2]]].
  set (v2 := check_invalid_variables v1) in *.
  cbn [css init] in Hc1. rewrite Hc1 in Hl, Hc2.
  exists l. split; [exact Hnd|]. split; [exact Hl|].
  destruct (check_generic_styles_frame (check_typography (check_brand_colors v2)))
    as [_ ->].
  destruct (check_typography_frame (check_brand_colors v2)) as [_ ->].
  rewrite check_brand_colors_issues, Hc2, search_root_body_count, Hi2.
  rewrite <- app_assoc. f_equal.
  unfold v1, check_duplicate_roots. cbn [css init].
  destruct (1 <? length (findall0 Quality.root_re c)); [|reflexivity].
  destruct (1 <? count_distinct _); reflexivity.
Qed.

Lemma valid_names_match_no_pattern :
  forallb (fun x => negb (matches_invalid_pattern x)) Quality.VALID_VARIABLES
  = true.
Proof. vm_compute. reflexivity. Qed.

Lemma valid_not_invalid x :
  mem x Quality.VALID_VARIABLES = true -> matches_invalid_pattern x = false.
Proof.
  intros H. apply mem_In in H.
  pose proof valid_names_match_no_pattern as Ht.
  rewrite forallb_forall in Ht. apply Ht in H. apply negb_true_iff in H. exact H.
Qed.

Lemma filter_none (A : Type) (p : A -> bool) l :
  (forall x, In x l -> p x = false) -> filter p l = [].
Proof.
  induction l as [|a l IH]; intros H; [reflexivity|]. cbn [filter].
  rewrite (H a (or_introl eq_refl)). apply IH. intros x Hx. apply H. right. exact Hx.
Qed.

(** X1.  [validate] passes exactly when the block pattern finds one [:root]
    block and no referenced name matches one of [INVALID_PATTERNS]: nothing
    else the five checks look at (unknown names, missing colours, fonts,
    hard-coded colours) can make it fail. *)
Theorem validate_passes_iff c :
  passed (validate c) = true <->
  length (findall0 Quality.root_re c) = 1 /\
  (forall x, In x (findall1 var_usage_re c) ->
             matches_invalid_pattern x = false).
Proof.
  destruct (run_checks_issues c) as [l [_ [Hl Hi]]].
  unfold validate, validate_from. cbn [passed]. rewrite Hi. clear Hi.
  split.
  - intros H. apply Nat.eqb_eq in H. apply length_zero_iff_nil in H.
    apply app_eq_nil in H. destruct H as [Hd H].
    apply app_eq_nil in H. destruct H as [Hinv Hr]. split.
    + destruct (length (findall0 Quality.root_re c)) as [|[|n]];
        [discriminate Hr | reflexivity | discriminate Hd].
    + intros x Hx. destruct (matches_invalid_pattern x) eqn:E; [|reflexivity].
      assert (Hin : In x l) by (apply Hl; split; assumption).
      destruct l; [contradiction | discriminate].
  - intros [H1 Hno]. rewrite H1. cbn [Nat.ltb Nat.leb Nat.eqb app].
    destruct l as [|y l']; [reflexivity|].
    destruct (proj1 (Hl y) (or_introl eq_refl)) as [Hy Hm].
    rewrite (Hno y Hy) in Hm. discriminate.
Qed.

(** X2.  The critical issues of a report, in order: the count of [:root]
    blocks when there are two or more, followed by the conflicting
    [--ctc-primary] values when these differ; one issue for the set of
    referenced names that match an invalid pattern, when there is one; the
    missing [:root] block when there is none.  A report never has more than
    three critical issues. *)
Theorem report_issues c :
  exists l,
    NoDup l /\
    (forall y, In y l <->
               In y (findall1 var_usage_re c) /\
               matches_invalid_pattern y = true) /\
    r_issues (validate c) =
      (if 1 <? length (findall0 Quality.root_re c) then
         msg_duplicate_roots (length (findall0 Quality.root_re c)) ::
         (if 1 <? count_distinct (primaries_of (findall0 Quality.root_re c))
          then [msg_conflicting_primary
                  (primaries_of (findall0 Quality.root_re c))]
          else [])
       else []) ++
      match l with [] => [] | _ :: _ => [msg_invalid_variables l] end ++
      (if length (findall0 Quality.root_re c) =? 0 then [msg_no_root] else [])
    /\ length (r_issues (validate c)) <= 3.
Proof.
  destruct (run_checks_issues c) as [l [Hnd [Hl Hi]]].
  exists l. split; [exact Hnd|]. split; [exact Hl|].
  unfold validate, validate_from. cbn [r_issues]. split; [exact Hi|].
  rewrite Hi, !length_app.
  set (b := 1 <? count_distinct _).
  destruct (length (findall0 Quality.root_re c)) as [|[|n]];
    destruct l; destruct b; cbn [Nat.ltb Nat.leb Nat.eqb length]; lia.
Qed.

(** X3.  [_check_invalid_variables] warns once per occurrence, in source
    order, about exactly the references whose name is neither in
    [VALID_VARIABLES] nor matched by one of [INVALID_PATTERNS]: a name used
    twice is warned about twice, and a name that matches an invalid pattern
    is never warned about. *)
Theorem unknown_warnings_per_occurrence v :
  warnings (check_invalid_variables v) =
    warnings v ++
    map msg_unknown_variable
        (filter unknown_name (findall1 var_usage_re (css v))).
Proof.
  destruct (invalid_loop v) as [l [v1 [E [_ [_ [_ [_ Hw]]]]]]].
  unfold check_invalid_variables. rewrite E.
  destruct l; cbn [warnings add_issue]; exact Hw.
Qed.

(** X4.  [_check_invalid_variables] raises at most one critical issue: none
    when no referenced name matches one of [INVALID_PATTERNS], and otherwise
    one issue for the set of such names, each counted once however often it
    is referenced. *)
Theorem invalid_variables_reported_once v :
  exists l,
    NoDup l /\
    (forall y, In y l <->
               In y (findall1 var_usage_re (css v)) /\
               matches_invalid_pattern y = true) /\
    issues (check_invalid_variables v) =
      issues v ++ match l with [] => [] | _ :: _ => [msg_invalid_variables l] end.
Proof.
  destruct (invalid_loop v) as [l [v1 [E [Hnd [Hl [_ [Hi _]]]]]]].
  exists l. split; [exact Hnd|]. split; [exact Hl|].
  unfold check_invalid_variables. rewrite E.
  destruct l; cbn [issues add_issue]; rewrite Hi;
    [symmetry; apply app_nil_r | reflexivity].
Qed.

(** X5.  When every referenced name is in [VALID_VARIABLES],
    [_check_invalid_variables] leaves the validator as it is: no name of
    [VALID_VARIABLES] matches one of [INVALID_PATTERNS]. *)
Theorem valid_references_are_silent v :
  (forall x, In x (findall1 var_usage_re (css v)) ->
             mem x Quality.VALID_VARIABLES = true) ->
  check_invalid_variables v = v.
Proof.
  intros Hv.
  destruct (invalid_loop v) as [l [v1 [E [_ [Hl [Hc [Hi Hw]]]]]]].
  unfold check_invalid_variables. rewrite E.
  assert (Hnil : l = []).
  { destruct l as [|y l']; [reflexivity|].
    destruct (proj1 (Hl y) (or_introl eq_refl)) as [Hy Hm].
    rewrite (valid_not_invalid y (Hv y Hy)) in Hm. discriminate. }
  rewrite Hnil. rewrite filter_none in Hw.
  - rewrite app_nil_r in Hw. destruct v, v1. cbn in *. congruence.
  - intros x Hx. unfold unknown_name. rewrite (Hv x Hx). reflexivity.
Qed.

Lemma valid_references_are_silent_witness :
  check_invalid_variables
    (init (txt "a{color:var(--ctc-primary);margin:var( --ctc-spacing-md , 4px )}")) =
  init (txt "a{color:var(--ctc-primary);margin:var( --ctc-spacing-md , 4px )}").
Proof.
  apply valid_references_are_silent.
  vm_compute. intros x [<-|[<-|[]]]; reflexivity.
Defined.

(** X6.  After the repair pass the validator reports neither duplicate
    [:root] blocks nor conflicting [--ctc-primary] values: the only critical
    issues that can remain are the one on invalid variable names and the one
    on a missing [:root] block. *)
Theorem repaired_issues c :
  exists l,
    NoDup l /\
    (forall y, In y l <->
               In y (findall1 var_usage_re (post_process_css c)) /\
               matches_invalid_pattern y = true) /\
    r_issues (validate (post_process_css c)) =
      match l with [] => [] | _ :: _ => [msg_invalid_variables l] end ++
      (if length (findall0 Quality.root_re (post_process_css c)) =? 0
       then [msg_no_root] else []).
Proof.
  destruct (run_checks_issues (post_process_css c)) as [l [Hnd [Hl Hi]]].
  exists l. split; [exact Hnd|]. split; [exact Hl|].
  unfold validate, validate_from. cbn [r_issues]. rewrite Hi.
  pose proof (post_process_count c) as Hc.
  change Quality.root_re with PostProcessor.root_re.
  destruct (length (findall0 PostProcessor.root_re (post_process_css c)))
    as [|[|n]]; [reflexivity | reflexivity | lia].
Qed.

(** ** The tables *)

Lemma lookup_key name m v : lookup name m = Some v -> In (name, v) m.
Proof.
  induction m as [|[k v'] m IH]; simpl; [discriminate|].
  destruct (text_eqb name k) eqn:E.
  - apply text_eqb_eq in E. intros H. left. congruence.
  - intros H. right. apply IH. exact H.
Qed.

Lemma table_entries_checked :
  forallb
    (fun kv =>
       matches_invalid_pattern (fst kv)
       && Analysis.matches_invalid_pattern (fst kv)
       && negb (mem (fst kv) Quality.VALID_VARIABLES)
       && (text_eqb (snd kv) (txt "0")
           || (mem (snd kv) Quality.VALID_VARIABLES
               && negb (matches_invalid_pattern (snd kv))
               && match lookup (snd kv) NORMALIZATION_MAP with
                  | None => true
                  | Some _ => false
                  end)))
    NORMALIZATION_MAP = true.
Proof. vm_compute. reflexivity. Qed.

(** X7.  The three tables agree.  Every name that [NORMALIZATION_MAP]
    rewrites is a name that both lists of [INVALID_PATTERNS] flag and that is
    not in [VALID_VARIABLES]; and what it is rewritten to is either the
    literal [0] or a name of [VALID_VARIABLES] that no invalid pattern
    matches and that the table does not rewrite again. *)
Theorem normalization_table_consistent name v :
  lookup name NORMALIZATION_MAP = Some v ->
  matches_invalid_pattern name = true /\
  Analysis.matches_invalid_pattern name = true /\
  mem name Quality.VALID_VARIABLES = false /\
  (v = txt "0" \/
   (mem v Quality.VALID_VARIABLES = true /\
    matches_invalid_pattern v = false /\
    lookup v NORMALIZATION_MAP = None)).
Proof.
  intros H. apply lookup_key in H.
  pose proof table_entries_checked as Ht. rewrite forallb_forall in Ht.
  specialize (Ht _ H). cbn [fst snd] in Ht.
  apply andb_true_iff in Ht. destruct Ht as [Ht Hv].
  apply andb_true_iff in Ht. destruct Ht as [Ht Hn].
  apply andb_true_iff in Ht. destruct Ht as [Hq Ha].
  split; [exact Hq|]. split; [exact Ha|].
  split; [apply negb_true_iff; exact Hn|].
  apply orb_true_iff in Hv. destruct Hv as [Hv|Hv].
  - left. apply text_eqb_eq. exact Hv.
  - right. apply andb_true_iff in Hv. destruct Hv as [Hv Hl].
    apply andb_true_iff in Hv. destruct Hv as [Hv Hm].
    split; [exact Hv|]. split; [apply negb_true_iff; exact Hm|].
    destruct (lookup v NORMALIZATION_MAP); [discriminate | reflexivity].
Qed.

Lemma normalization_table_consistent_witness :
  lookup (txt "--ctc-neutral-700") NORMALIZATION_MAP
    = Some (txt "--ctc-neutral-dark") /\
  mem (txt "--ctc-neutral-700") Quality.VALID_VARIABLES = false /\
  matches_invalid_pattern (txt "--ctc-neutral-700") = true.
Proof.
  split; [reflexivity|].
  destruct (normalization_table_consistent
              (txt "--ctc-neutral-700") (txt "--ctc-neutral-dark") eq_refl)
    as [Hq [_ [Hn _]]].
  split; [exact Hn | exact Hq].
Defined.

(** ** Counting [:root {] *)

Lemma root_open_consumes s m rest :
  match_at root_open_re s = Some (m, rest) -> length rest < length s.
Proof. apply match_consumes. reflexivity. Qed.

Lemma not_colon_not_open c s : is_chr ":" c = false -> root_open (c :: s) = None.
Proof.
  unfold root_open. intros H.
  change (txt ":root") with (":"%char :: txt "root").
  rewrite strip_prefix_cons. unfold is_chr in H. rewrite H. reflexivity.
Qed.

Lemma opens_skip a s :
  all (fun c => negb (is_chr ":" c)) a -> opens (a ++ s) = opens s.
Proof.
  intros Ha. induction Ha as [|c a Hc Ha IH]; [reflexivity|].
  cbn [opens app]. apply negb_true_iff in Hc.
  rewrite (not_colon_not_open c (a ++ s) Hc). exact IH.
Qed.

Lemma opens_app_le a s : opens s <= opens (a ++ s).
Proof.
  induction a as [|c a IH]; cbn [opens app]; lia.
Qed.

Lemma space_not_colon c : is_space c = true -> negb (is_chr ":" c) = true.
Proof.
  destruct c as [[] [] [] [] [] [] [] []]; vm_compute; congruence.
Qed.

Lemma opens_at s s3 : root_open s = Some s3 -> opens s = S (opens s3).
Proof.
  intros H. pose proof H as Hs. apply root_open_shape in Hs.
  destruct Hs as [w [Hw Hs]]. subst s.
  change (txt ":root") with (":"%char :: txt "root") in *.
  rewrite <- app_comm_cons in *. cbn [opens]. rewrite H.
  replace (txt "root" ++ w ++ txt "{" ++ s3)
    with ((txt "root" ++ w ++ txt "{") ++ s3)
    by (rewrite <- !app_assoc; reflexivity).
  rewrite opens_skip; [reflexivity|].
  apply all_app; [repeat constructor|].
  apply all_app; [|repeat constructor].
  apply (all_impl is_space); [exact space_not_colon | exact Hw].
Qed.

Lemma cons_gap_length c x : length (fst (cons_gap c x)) = length (fst x).
Proof. destruct x as [[|[g m] ms] tl]; reflexivity. Qed.

Lemma count_opens s : count_root_declarations s = opens s.
Proof.
  unfold count_root_declarations, findall0, finditer. rewrite !length_map.
  remember (length s) as n eqn:Hn. revert s Hn.
  induction n as [n IH] using lt_wf_ind. intros s Hn.
  rewrite (scan_all_eq root_open_re root_open_consumes).
  destruct (match_at root_open_re s) as [[m rest]|] eqn:E.
  - pose proof (root_open_consumes _ _ _ E) as Hlen.
    rewrite match_at_root_open in E.
    destruct (root_open s) as [s3|] eqn:Eo; [|discriminate].
    assert (s3 = rest) by congruence. subst s3.
    rewrite (opens_at _ _ Eo).
    assert (Hlt : length rest < n) by lia.
    pose proof (IH _ Hlt rest eq_refl) as IH'.
    destruct (scan_all root_open_re rest) as [ms tl]. cbn [fst length] in *.
    rewrite IH'. reflexivity.
  - rewrite match_at_root_open in E.
    destruct s as [|c s]; [reflexivity|].
    rewrite cons_gap_length. cbn [opens].
    destruct (root_open (c :: s)); [discriminate|].
    apply (IH (length s)); [subst n; simpl; lia | reflexivity].
Qed.

Lemma blocks_le_opens : forall ms s tl,
  scan_all PostProcessor.root_re s = (ms, tl) -> length ms <= opens s.
Proof.
  induction ms as [|[g m] ms IH]; intros s tl H; cbn [length]; [lia|].
  apply (@scan_cons_inv _ root_consumes) in H.
  destruct H as [rest [Hs [_ [Hm Hr]]]].
  rewrite match_at_root in Hm.
  destruct (root_at (m_text m ++ rest)) as [r0|] eqn:Ea; [|discriminate].
  assert (r0 = rest) by congruence. subst r0.
  specialize (IH rest tl Hr). rewrite Hs.
  eapply Nat.le_trans; [|apply opens_app_le].
  unfold root_at in Ea.
  destruct (root_open (m_text m ++ rest)) as [s3|] eqn:Eo; [|discriminate].
  rewrite (opens_at _ _ Eo).
  apply strip_prefix_inv in Ea.
  rewrite (take_drop_while (non (is_chr "}")) s3), Ea.
  apply le_n_S. eapply Nat.le_trans; [exact IH|].
  eapply Nat.le_trans; [|apply opens_app_le].
  change (txt "}" ++ rest) with ([ "}"%char ] ++ rest). apply opens_app_le.
Qed.

(** X8.  [count_root_declarations] counts every place at which [:root],
    optional white space and an opening brace are written, whether or not the
    block is ever closed; so it is at least the number of blocks that step 1
    of [post_process_css] works on. *)
Theorem root_count_bounds_blocks css :
  count_root_declarations css = opens css /\
  length (findall0 PostProcessor.root_re css) <= count_root_declarations css.
Proof.
  split; [apply count_opens|].
  rewrite count_opens. unfold findall0, finditer. rewrite !length_map.
  destruct (scan_all PostProcessor.root_re css) as [ms tl] eqn:E.
  apply (blocks_le_opens ms css tl E).
Qed.

(** ** The names [find_invalid_variables] returns *)

Lemma analysis_patterns_included x :
  Analysis.matches_invalid_pattern x = true -> matches_invalid_pattern x = true.
Proof.
  unfold Analysis.matches_invalid_pattern, matches_invalid_pattern.
  change Quality.INVALID_PATTERNS
    with (Analysis.INVALID_PATTERNS ++
          [ Lit (txt "--ctc-text") >> NotAhead (Lit (txt "-"));
            Lit (txt "--ctc-bg") >> NotAhead (Lit (txt "-"));
            Lit (txt "--ctc-font-display");
            Lit (txt "--ctc-rounded") ]).
  rewrite existsb_app. intros ->. reflexivity.
Qed.

Lemma find_invalid_fold usages : forall inv x,
  In x (fold_left
          (fun invalid var_name =>
             if Analysis.matches_invalid_pattern var_name
             then set_add var_name invalid else invalid)
          usages inv) <->
  In x inv \/ (In x usages /\ Analysis.matches_invalid_pattern x = true).
Proof.
  induction usages as [|u us IH]; intros inv x; cbn [fold_left In].
  - tauto.
  - rewrite IH. destruct (Analysis.matches_invalid_pattern u) eqn:E.
    + rewrite set_add_spec. split; intros H; [|intuition congruence].
      destruct H as [[->|H]|[H Hm]]; auto.
    + split; intros H; [tauto|].
      destruct H as [H|[[<-|H] Hm]]; auto. congruence.
Qed.

Lemma run_checks_clean c :
  issues (run_checks (init c)) = [] <->
  length (findall0 Quality.root_re c) = 1 /\
  (forall x, In x (findall1 var_usage_re c) ->
             matches_invalid_pattern x = false).
Proof.
  destruct (run_checks_issues c) as [l [_ [Hl Hi]]]. rewrite Hi. clear Hi.
  split.
  - intros H. apply app_eq_nil in H. destruct H as [Hd H].
    apply app_eq_nil in H. destruct H as [Hinv Hr]. split.
    + destruct (length (findall0 Quality.root_re c)) as [|[|n]];
        [discriminate Hr | reflexivity | discriminate Hd].
    + intros x Hx. destruct (matches_invalid_pattern x) eqn:E; [|reflexivity].
      assert (Hin : In x l) by (apply Hl; split; assumption).
      destruct l; [contradiction | discriminate].
  - intros [H1 Hno]. rewrite H1. cbn [Nat.ltb Nat.leb Nat.eqb app].
    destruct l as [|y l']; [reflexivity|].
    destruct (proj1 (Hl y) (or_introl eq_refl)) as [Hy Hm].
    rewrite (Hno y Hy) in Hm. discriminate.
Qed.

(** X9.  Every name [find_invalid_variables] returns is referenced in the
    text and matches one of the validator's [INVALID_PATTERNS] as well (the
    four patterns of [tmp/test_postprocessor.py] are the first four of the
    eight of [tmp/test_css_quality.py]); so a text in which
    [find_invalid_variables] finds a name does not pass [validate]. *)
Theorem find_invalid_variables_sound css x :
  In x (Analysis.find_invalid_variables css) ->
  In x (findall1 var_usage_re css) /\
  matches_invalid_pattern x = true /\
  passed (validate css) = false.
Proof.
  intros H. unfold Analysis.find_invalid_variables in H.
  apply find_invalid_fold in H. destruct H as [[]|[Hin Hm]].
  apply analysis_patterns_included in Hm.
  split; [exact Hin|]. split; [exact Hm|].
  unfold validate, validate_from. cbn [passed].
  destruct (issues (run_checks (init css))) eqn:E; [|reflexivity].
  apply run_checks_clean in E. destruct E as [_ Hno].
  rewrite (Hno x Hin) in Hm. discriminate.
Qed.

Lemma find_invalid_variables_sound_witness :
  In (txt "--ctc-spacing-4")
     (findall1 var_usage_re (txt ":root{} a{margin:var(--ctc-spacing-4)}")) /\
  matches_invalid_pattern (txt "--ctc-spacing-4") = true /\
  passed (validate (txt ":root{} a{margin:var(--ctc-spacing-4)}")) = false.
Proof.
  apply find_invalid_variables_sound. vm_compute. left. reflexivity.
Defined.

(** ** The bodies of the blocks *)

Lemma taken_take_while p s : taken s (drop_while p s) = take_while p s.
Proof.
  rewrite (take_drop_while p s) at 1. apply taken_app.
Qed.

Lemma exec_root_body (A : Type) s g (k : text -> groups -> option A) :
  exec root_body_re s g k =
  match root_open s with
  | Some s3 =>
      match strip_prefix (txt "}") (drop_while (non (is_chr "}")) s3) with
      | Some rest => k rest ((1, take_while (non (is_chr "}")) s3) :: g)
      | None => None
      end
  | None => None
  end.
Proof.
  unfold root_body_re, root_open. cbn [exec].
  destruct (strip_prefix (txt ":root") s) as [s1|]; [|reflexivity].
  rewrite rep_skip.
  - destruct (strip_prefix (txt "{") (drop_while is_space s1)) as [s3|];
      [|reflexivity].
    rewrite rep_skip.
    + rewrite taken_take_while. reflexivity.
    + intros c t Hc. rewrite strip_prefix_one, (non_rbrace _ Hc). reflexivity.
  - intros c t Hc. rewrite strip_prefix_one, (space_not_lbrace _ Hc). reflexivity.
Qed.

Lemma body_of_block s rest s3 :
  root_open s = Some s3 ->
  strip_prefix (txt "}") (drop_while (non (is_chr "}")) s3) = Some rest ->
  body_of (taken s rest) = take_while (non (is_chr "}")) s3.
Proof.
  intros Ho Hs. apply root_open_shape in Ho. destruct Ho as [w [Hw ->]].
  apply strip_prefix_inv in Hs.
  set (body := take_while (non (is_chr "}")) s3).
  assert (E3 : s3 = body ++ txt "}" ++ rest).
  { rewrite (take_drop_while (non (is_chr "}")) s3), Hs. reflexivity. }
  rewrite E3.
  replace (txt ":root" ++ w ++ txt "{" ++ body ++ txt "}" ++ rest)
    with ((txt ":root" ++ w ++ txt "{" ++ body ++ txt "}") ++ rest)
    by (rewrite <- !app_assoc; reflexivity).
  rewrite taken_app. unfold body_of.
  rewrite (root_open_build w (body ++ txt "}") Hw).
  apply (take_while_run (non (is_chr "}")) body (txt "}")).
  - apply take_while_all.
  - reflexivity.
Qed.

Lemma match_at_root_body s :
  match_at root_body_re s =
  option_map
    (fun x => (MObj (m_text (fst x)) [(1, body_of (m_text (fst x)))], snd x))
    (match_at PostProcessor.root_re s).
Proof.
  rewrite match_at_root. unfold match_at, root_at. rewrite exec_root_body.
  destruct (root_open s) as [s3|] eqn:Eo; [|reflexivity].
  destruct (strip_prefix (txt "}") (drop_while (non (is_chr "}")) s3))
    as [rest|] eqn:Es; [|reflexivity].
  cbn [option_map fst snd m_text].
  rewrite (body_of_block s rest s3 Eo Es). reflexivity.
Qed.

(** The bodies [re.findall] returns for the grouped pattern are the bodies
    of the blocks it returns for the pattern without group. *)
Lemma findall1_root_body css :
  findall1 root_body_re css = map body_of (findall0 PostProcessor.root_re css).
Proof.
  unfold findall1, findall0, finditer, scan_all.
  rewrite (scan_map
             (fun m => MObj (m_text m) [(1, body_of (m_text m))])
             PostProcessor.root_re root_body_re match_at_root_body).
  cbn [fst]. rewrite !map_map. apply map_ext. intros [g m]. reflexivity.
Qed.

Lemma nodup_length (l : list text) :
  length (nodup (list_eq_dec ascii_dec) l) <= length l.
Proof.
  induction l as [|a l IH]; cbn [nodup length]; [lia|].
  destruct (in_dec (list_eq_dec ascii_dec) a l); cbn [length]; lia.
Qed.

Lemma primaries_length (f : text -> list text) l :
  (forall x, length (f x) <= 1) -> length (flat_map f l) <= length l.
Proof.
  intros Hf. induction l as [|a l IH]; cbn [flat_map length]; [lia|].
  rewrite length_app. specialize (Hf a). lia.
Qed.

Lemma brand_colors_le_blocks css :
  length (Analysis.find_brand_color_conflicts css) <=
  length (findall0 PostProcessor.root_re css).
Proof.
  unfold Analysis.find_brand_color_conflicts, Analysis.root_pattern.
  eapply Nat.le_trans.
  - apply primaries_length. intros x.
    destruct (search primary_re x); cbn [length]; lia.
  - rewrite findall1_root_body, length_map. lia.
Qed.

(** X10.  On the output of the repair pass [find_brand_color_conflicts]
    returns at most one value, so the test [len(set(brand_colors)) > 1] that
    [main] makes for a brand colour conflict is false after the pass. *)
Theorem no_brand_conflict_after_repair css :
  length (Analysis.find_brand_color_conflicts (post_process_css css)) <= 1 /\
  (1 <? count_distinct
          (Analysis.find_brand_color_conflicts (post_process_css css))) = false.
Proof.
  pose proof (brand_colors_le_blocks (post_process_css css)) as Hb.
  pose proof (post_process_count css) as Hc.
  pose proof (nodup_length
                (Analysis.find_brand_color_conflicts (post_process_css css)))
    as Hn.
  split; [lia|]. apply Nat.ltb_ge. unfold count_distinct. lia.
Qed.

(** ** Style elements *)

Lemma contains_tail n c s : contains n (c :: s) = false -> contains n s = false.
Proof.
  cbn [contains]. intros H. apply orb_false_iff in H. tauto.
Qed.

Lemma contains_head n s : contains n s = false -> startswith n s = false.
Proof.
  destruct s; cbn [contains]; intros H; apply orb_false_iff in H; tauto.
Qed.

Lemma contains_suffix n a s : contains n (a ++ s) = false -> contains n s = false.
Proof.
  induction a as [|c a IH]; intros H; [exact H|].
  apply IH. apply (contains_tail n c). exact H.
Qed.

Lemma startswith_strip p s : startswith p s = false -> strip_prefix p s = None.
Proof.
  unfold startswith. destruct (strip_prefix p s); [discriminate | reflexivity].
Qed.

Lemma non_rangle c : non (is_chr ">") c = true -> Ascii.eqb ">" c = false.
Proof. unfold non, is_chr. apply negb_true_iff. Qed.

(** The opening piece read as a direct scanner. *)
Lemma exec_style_open (A : Type) s g (k : text -> groups -> option A) :
  exec Analysis.style_open_re s g k =
  match strip_prefix (txt "<style") s with
  | Some s1 =>
      match strip_prefix (txt ">") (drop_while (non (is_chr ">")) s1) with
      | Some s2 => k s2 g
      | None => None
      end
  | None => None
  end.
Proof.
  unfold Analysis.style_open_re. cbn [exec].
  destruct (strip_prefix (txt "<style") s) as [s1|]; [|reflexivity].
  rewrite rep_skip; [reflexivity|].
  intros c t Hc. rewrite strip_prefix_one, (non_rangle _ Hc). reflexivity.
Qed.

Lemma lazy_any_inv (A : Type) (k : text -> option A) x : forall s,
  Analysis.lazy_any s k = Some x -> exists a t, s = a ++ t /\ k t = Some x.
Proof.
  induction s as [|c s IH]; cbn [Analysis.lazy_any]; intros H.
  - destruct (k []) eqn:E; [|discriminate]. exists [], [].
    split; [reflexivity | congruence].
  - destruct (k (c :: s)) eqn:E.
    + exists [], (c :: s). split; [reflexivity | congruence].
    + destruct (IH H) as [a [t [-> Ht]]]. exists (c :: a), t.
      split; [reflexivity | exact Ht].
Qed.

Lemma lazy_any_none (A : Type) n (k : text -> option A) :
  (forall t, startswith n t = false -> k t = None) ->
  forall s, contains n s = false -> Analysis.lazy_any s k = None.
Proof.
  intros Hk. induction s as [|c s IH]; intros H; cbn [Analysis.lazy_any];
    rewrite (Hk _ (contains_head _ _ H)); [reflexivity|].
  apply IH. apply (contains_tail n c). exact H.
Qed.

(** The closing tag does not start inside a text that does not contain it,
    whatever follows: it has a single [<], at its head. *)
Lemma close_not_inside c css post :
  contains (txt "</style>") (c :: css) = false ->
  startswith (txt "</style>") ((c :: css) ++ txt "</style>" ++ post) = false.
Proof.
  intros H. apply contains_head in H. unfold startswith in *.
  change (txt "</style>") with ("<"%char :: txt "/style>") in *.
  rewrite <- app_comm_cons. rewrite strip_prefix_cons in *.
  destruct (Ascii.eqb "<" c); [|reflexivity].
  change (("<"%char :: txt "/style>") ++ post)
    with ("<"%char :: txt "/style>" ++ post).
  destruct (strip_prefix (txt "/style>") (css ++ "<"%char :: txt "/style>" ++ post))
    as [s1|] eqn:E; [|reflexivity].
  apply strip_prefix_stop in E.
  - destruct E as [b1 [E _]]. rewrite E in H. discriminate.
  - cbn. intuition discriminate.
Qed.

Lemma lazy_any_found (A : Type) (k : text -> option A) post x :
  (forall t, startswith (txt "</style>") t = false -> k t = None) ->
  k (txt "</style>" ++ post) = Some x ->
  forall css, contains (txt "</style>") css = false ->
  Analysis.lazy_any (css ++ txt "</style>" ++ post) k = Some x.
Proof.
  intros Hk Hx b. induction b as [|c b IH]; intros H.
  - change ([] ++ txt "</style>" ++ post) with ("<"%char :: txt "/style>" ++ post).
    cbn [Analysis.lazy_any].
    change ("<"%char :: txt "/style>" ++ post) with (txt "</style>" ++ post).
    rewrite Hx. reflexivity.
  - rewrite <- app_comm_cons. cbn [Analysis.lazy_any].
    rewrite app_comm_cons, (Hk _ (close_not_inside c b post H)).
    apply IH. apply (contains_tail _ c). exact H.
Qed.

(** A match of the pattern of [extract_css_from_html], read directly. *)
Lemma style_match_eq s :
  Analysis.style_match_at s =
  match strip_prefix (txt "<style") s with
  | Some s1 =>
      match strip_prefix (txt ">") (drop_while (non (is_chr ">")) s1) with
      | Some s2 =>
          Analysis.lazy_any s2
            (fun t =>
               match strip_prefix (txt "</style>") t with
               | Some s3 => Some (MObj (taken s s3) [(1, taken s2 t)], s3)
               | None => None
               end)
      | None => None
      end
  | None => None
  end.
Proof.
  unfold Analysis.style_match_at. rewrite exec_style_open.
  destruct (strip_prefix (txt "<style") s) as [s1|]; [|reflexivity].
  destruct (strip_prefix (txt ">") (drop_while (non (is_chr ">")) s1));
    reflexivity.
Qed.

Lemma style_match_consumes s m rest :
  Analysis.style_match_at s = Some (m, rest) -> length rest < length s.
Proof.
  rewrite style_match_eq.
  destruct (strip_prefix (txt "<style") s) as [s1|] eqn:E1; [|discriminate].
  destruct (strip_prefix (txt ">") (drop_while (non (is_chr ">")) s1))
    as [s2|] eqn:E2; [|discriminate].
  intros H. apply lazy_any_inv in H. destruct H as [a [t [-> Ht]]].
  destruct (strip_prefix (txt "</style>") t) as [s3|] eqn:E3; [|discriminate].
  inversion Ht; subst. clear Ht.
  apply strip_prefix_inv in E1, E2, E3.
  rewrite E1, (take_drop_while (non (is_chr ">")) s1), E2, E3.
  rewrite !length_app. cbn [length txt list_ascii_of_string]. lia.
Qed.

Lemma scan_style_fuel : forall n n' s,
  length s < n -> length s < n' ->
  Analysis.scan_style n s = Analysis.scan_style n' s.
Proof.
  induction n as [|n IH]; intros n' s Hn Hn'; [lia|].
  destruct n' as [|n']; [lia|]. cbn [Analysis.scan_style].
  destruct (Analysis.style_match_at s) as [[m rest]|] eqn:E.
  - apply style_match_consumes in E. rewrite (IH n' rest); [reflexivity|lia|lia].
  - destruct s as [|c s]; [reflexivity|]. cbn [length] in Hn, Hn'.
    apply IH; lia.
Qed.

Lemma scan_style_none (P : text -> Prop) :
  (forall c s, P (c :: s) -> P s) ->
  (forall s, P s -> Analysis.style_match_at s = None) ->
  forall n s, P s -> Analysis.scan_style n s = [].
Proof.
  intros Ht Hm. induction n as [|n IH]; intros s Hs; [reflexivity|].
  cbn [Analysis.scan_style]. rewrite (Hm s Hs).
  destruct s as [|c s]; [reflexivity|]. apply IH. apply (Ht c). exact Hs.
Qed.

Lemma style_match_needs_open s :
  contains (txt "<style") s = false -> Analysis.style_match_at s = None.
Proof.
  intros H. rewrite style_match_eq.
  rewrite (startswith_strip _ _ (contains_head _ _ H)). reflexivity.
Qed.

Lemma style_match_needs_close s :
  contains (txt "</style>") s = false -> Analysis.style_match_at s = None.
Proof.
  intros H. rewrite style_match_eq.
  destruct (strip_prefix (txt "<style") s) as [s1|] eqn:E1; [|reflexivity].
  destruct (strip_prefix (txt ">") (drop_while (non (is_chr ">")) s1))
    as [s2|] eqn:E2; [|reflexivity].
  apply (lazy_any_none _ (txt "</style>")).
  - intros t Ht. rewrite (startswith_strip _ _ Ht). reflexivity.
  - apply strip_prefix_inv in E1, E2.
    rewrite E1, (take_drop_while (non (is_chr ">")) s1), E2 in H.
    apply contains_suffix in H. apply contains_suffix in H.
    apply contains_suffix in H. exact H.
Qed.

(** A style element at the head of the text. *)
Lemma style_match_element attrs css post :
  all (non (is_chr ">")) attrs ->
  contains (txt "</style>") css = false ->
  Analysis.style_match_at
    (txt "<style" ++ attrs ++ txt ">" ++ css ++ txt "</style>" ++ post) =
  Some (MObj (txt "<style" ++ attrs ++ txt ">" ++ css ++ txt "</style>")
             [(1, css)],
        post).
Proof.
  intros Ha Hc. rewrite style_match_eq, strip_prefix_app.
  rewrite drop_while_run by exact Ha.
  change (drop_while (non (is_chr ">"))
            (txt ">" ++ css ++ txt "</style>" ++ post))
    with (txt ">" ++ css ++ txt "</style>" ++ post).
  rewrite strip_prefix_app.
  apply (lazy_any_found _ _ post).
  - intros t Ht. rewrite (startswith_strip _ _ Ht). reflexivity.
  - rewrite strip_prefix_app. f_equal. f_equal. f_equal.
    + replace (txt "<style" ++ attrs ++ txt ">" ++ css ++ txt "</style>" ++ post)
        with ((txt "<style" ++ attrs ++ txt ">" ++ css ++ txt "</style>") ++ post)
        by (rewrite <- !app_assoc; reflexivity).
      apply taken_app.
    + f_equal. f_equal. apply taken_app.
  - exact Hc.
Qed.

Lemma style_matches_element attrs css post :
  all (non (is_chr ">")) attrs ->
  contains (txt "</style>") css = false ->
  Analysis.style_matches
    (txt "<style" ++ attrs ++ txt ">" ++ css ++ txt "</style>" ++ post) =
  css :: Analysis.style_matches post.
Proof.
  intros Ha Hc. unfold Analysis.style_matches.
  remember (Analysis.scan_style (S (length post)) post) as R eqn:ER.
  cbn [Analysis.scan_style].
  rewrite (style_match_element attrs css post Ha Hc). cbn [map].
  f_equal. f_equal. subst R. apply scan_style_fuel; [|lia].
  rewrite !length_app. cbn [length txt list_ascii_of_string]. lia.
Qed.

(** X11.  A style element at the head of the text, whose attributes have
    no [>] and whose content does not contain the closing tag: its content
    is the first string [re.findall] returns, followed by what it returns for
    the text after the element; and [extract_css_from_html] applied to the
    element alone gives back its content, whatever that content is (line
    breaks included). *)
Theorem extract_css_round_trip attrs css post :
  all (non (is_chr ">")) attrs ->
  contains (txt "</style>") css = false ->
  Analysis.style_matches
    (txt "<style" ++ attrs ++ txt ">" ++ css ++ txt "</style>" ++ post) =
    css :: Analysis.style_matches post /\
  Analysis.extract_css_from_html
    (txt "<style" ++ attrs ++ txt ">" ++ css ++ txt "</style>") = css.
Proof.
  intros Ha Hc. split; [apply style_matches_element; assumption|].
  unfold Analysis.extract_css_from_html.
  pose proof (style_matches_element attrs css [] Ha Hc) as H.
  rewrite app_nil_r in H. rewrite H. reflexivity.
Qed.

Lemma extract_css_round_trip_witness :
  Analysis.extract_css_from_html
    (txt "<style type='text/css'>:root{--ctc-primary:#111}</style>") =
  txt ":root{--ctc-primary:#111}".
Proof.
  refine (proj2 (extract_css_round_trip
                   (txt " type='text/css'") (txt ":root{--ctc-primary:#111}") []
                   _ _)).
  - repeat constructor.
  - reflexivity.
Defined.

(** X12.  A text without an opening [<style], or without a closing
    [</style>], has no style element: [extract_css_from_html] returns the
    empty string. *)
Theorem extract_css_nothing html :
  contains (txt "<style") html = false \/
  contains (txt "</style>") html = false ->
  Analysis.style_matches html = [] /\ Analysis.extract_css_from_html html = [].
Proof.
  intros H.
  assert (Hm : Analysis.style_matches html = []).
  { unfold Analysis.style_matches. destruct H as [H|H].
    - rewrite (scan_style_none (fun s => contains (txt "<style") s = false));
        [reflexivity | | | exact H].
      + intros c s. apply contains_tail.
      + apply style_match_needs_open.
    - rewrite (scan_style_none (fun s => contains (txt "</style>") s = false));
        [reflexivity | | | exact H].
      + intros c s. apply contains_tail.
      + apply style_match_needs_close. }
  split; [exact Hm|]. unfold Analysis.extract_css_from_html. rewrite Hm.
  reflexivity.
Qed.

Lemma extract_css_nothing_witness :
  Analysis.extract_css_from_html (txt "<style>a{color:red}") = [].
Proof.
  refine (proj2 (extract_css_nothing (txt "<style>a{color:red}") _)).
  right. reflexivity.
Defined.

(** ** A text the pass has nothing to do on *)

Lemma findall1_var_copy c x :
  match_at var_re (c :: x) = None ->
  findall1 var_re (c :: x) = findall1 var_re x.
Proof.
  intros H. unfold findall1.
  rewrite (finditer_eq var_re (c :: x) var_consumes), H. reflexivity.
Qed.

Lemma findall1_var_ref s mo rest :
  match_at var_re s = Some (mo, rest) ->
  findall1 var_re s = group_or_empty mo 1 :: findall1 var_re rest.
Proof.
  intros H. unfold findall1.
  rewrite (finditer_eq var_re s var_consumes), H. reflexivity.
Qed.

Lemma normalizes_unlisted x y :
  normalizes x y ->
  (forall name, In name (findall1 var_re x) ->
                lookup name NORMALIZATION_MAP = None) ->
  y = x.
Proof.
  induction 1 as [| c x y Hn H IH | mo x y Hm H IH]; intros Hno.
  - reflexivity.
  - f_equal. apply IH. intros name Hin. apply Hno.
    rewrite (findall1_var_copy c x Hn). exact Hin.
  - rewrite (findall1_var_ref _ _ _ Hm) in Hno. f_equal.
    + unfold normalize_var. rewrite (Hno _ (or_introl eq_refl)). reflexivity.
    + apply IH. intros name Hin. apply Hno. right. exact Hin.
Qed.

(** X13.  A text the pass has nothing to do on comes back unchanged, byte
    for byte: at most one [:root] block, and no reference whose name is a key
    of [NORMALIZATION_MAP]. *)
Theorem clean_text_unchanged css :
  length (findall0 PostProcessor.root_re css) <= 1 ->
  (forall name, In name (findall1 var_re css) ->
                lookup name NORMALIZATION_MAP = None) ->
  post_process_css css = css.
Proof.
  intros Hb Hno. unfold post_process_css. rewrite (strip_fixed css Hb).
  apply (normalizes_unlisted css _ (normalizes_spec css) Hno).
Qed.

Lemma clean_text_unchanged_witness :
  post_process_css
    (txt ":root{--ctc-primary:#111} a{color:var(--ctc-primary);margin:var(--my-gap, 2px)}") =
  txt ":root{--ctc-primary:#111} a{color:var(--ctc-primary);margin:var(--my-gap, 2px)}".
Proof.
  apply clean_text_unchanged.
  - vm_compute. lia.
  - vm_compute. intros name [<-|[]]. reflexivity.
Defined.

(** ** The same pattern without one of its groups *)

Lemma drop_group_cons_same n t g :
  drop_group n ((n, t) :: g) = drop_group n g.
Proof.
  unfold drop_group. cbn [filter fst]. rewrite Nat.eqb_refl. reflexivity.
Qed.

Lemma drop_group_cons_other n m t g :
  (m =? n) = false -> drop_group n ((m, t) :: g) = (m, t) :: drop_group n g.
Proof.
  intros H. unfold drop_group. cbn [filter fst]. rewrite H. reflexivity.
Qed.

(** Making a group non-capturing changes nothing to where a pattern
    matches: the matcher takes the same decisions, and the continuation sees
    the same groups but that one. *)
Lemma exec_erase n r :
  forall (A B : Type) (h : A -> B) s g
         (k : text -> groups -> option A) (k' : text -> groups -> option B),
    (forall s' g', k' s' (drop_group n g') = option_map h (k s' g')) ->
    exec (erase_group n r) s (drop_group n g) k' = option_map h (exec r s g k).
Proof.
  induction r as [l | p | p lo hi | r1 IH1 r2 IH2 | r1 IH1 r2 IH2 | r1 IH1
                  | m r1 IH1 | r1 IH1 | ];
    intros A B h s g k k' Hk; cbn [erase_group exec].
  - destruct (strip_prefix l s); [apply Hk | reflexivity].
  - destruct s as [|c s]; [reflexivity|]. destruct (p c); [apply Hk | reflexivity].
  - rewrite <- rep_map. apply rep_ext. intros s'. apply Hk.
  - apply IH1. intros s' g'. apply IH2. exact Hk.
  - rewrite (IH1 A B h s g k k' Hk), (IH2 A B h s g k k' Hk).
    destruct (exec r1 s g k); reflexivity.
  - rewrite (IH1 A B h s g k k' Hk), Hk.
    destruct (exec r1 s g k); reflexivity.
  - destruct (m =? n) eqn:E.
    + apply Nat.eqb_eq in E. subst m.
      apply IH1. intros s' g'.
      rewrite <- (drop_group_cons_same n (taken s s') g'). apply Hk.
    + cbn [exec]. apply IH1. intros s' g'.
      rewrite <- (drop_group_cons_other n m (taken s s') g' E). apply Hk.
  - rewrite (IH1 unit unit (fun x => x) s g (fun _ _ => Some tt)
                 (fun _ _ => Some tt)); [|reflexivity].
    destruct (exec r1 s g (fun _ _ => Some tt)); [reflexivity | apply Hk].
  - destruct s as [|c [|d s]]; [apply Hk | | reflexivity].
    destruct (Ascii.eqb newline c); [apply Hk | reflexivity].
Qed.

Lemma match_at_erase n r s :
  match_at (erase_group n r) s =
  option_map (fun x => (erase_mobj n (fst x), snd x)) (match_at r s).
Proof.
  unfold match_at.
  apply (exec_erase n r _ _ (fun x => (erase_mobj n (fst x), snd x)) s []).
  intros s' g'. reflexivity.
Qed.

Lemma group_erase n m i : (i =? n) = false ->
  group_or_empty (erase_mobj n m) i = group_or_empty m i.
Proof.
  intros Hi. unfold group_or_empty, group, erase_mobj. cbn [m_groups].
  induction (m_groups m) as [|[j t] g IH]; [reflexivity|].
  unfold drop_group in *. cbn [filter fst assoc].
  destruct (j =? n) eqn:Ej; cbn [negb assoc].
  - apply Nat.eqb_eq in Ej. subst j. rewrite Nat.eqb_sym, Hi. exact IH.
  - destruct (j =? i); [reflexivity | exact IH].
Qed.

(** The references [_check_invalid_variables] reads are the references the
    normalisation visits, with the same names: the two patterns differ by
    the parentheses around the fallback only. *)
Lemma usages_eq s : findall1 var_usage_re s = findall1 var_re s.
Proof.
  unfold findall1, finditer, scan_all.
  change var_usage_re with (erase_group 2 var_re).
  rewrite (scan_map (erase_mobj 2) var_re (erase_group 2 var_re)
                    (match_at_erase 2 var_re)).
  cbn [fst]. rewrite !map_map. apply map_ext. intros [g m]. cbn [snd].
  apply group_erase. reflexivity.
Qed.

(** ** The names of the references after a normalisation *)

Lemma canonical_shape n z tail :
  n <> [] -> all is_name_chr n ->
  var_tail_at (tail ++ txt ")" ++ z) = Some z ->
  (exists c t, tail ++ txt ")" ++ z = c :: t /\
               is_space c = false /\ is_name_chr c = false) ->
  var_at ((txt "var(" ++ (txt "--ctc-" ++ n) ++ tail ++ txt ")") ++ z)
  = Some (txt "--ctc-" ++ n, z).
Proof.
  intros Hn0 Hn Htail Hhead.
  replace ((txt "var(" ++ (txt "--ctc-" ++ n) ++ tail ++ txt ")") ++ z)
    with (txt "var(" ++ [] ++ (txt "--ctc-" ++ n) ++ [] ++
          (tail ++ txt ")" ++ z))
    by (simpl; rewrite <- !app_assoc; reflexivity).
  apply var_at_shape; auto; constructor.
Qed.

(** What the callback returns for a match it does not collapse is read as a
    reference to the canonical name, whatever follows. *)
Lemma normalize_var_name s mo rest :
  match_at var_re s = Some (mo, rest) ->
  maps_to_literal mo = false ->
  forall z, var_at (normalize_var mo ++ z) =
            Some (canonical_name (group_or_empty mo 1), z).
Proof.
  intros H Hlit z.
  unfold maps_to_literal in Hlit. unfold normalize_var, canonical_name.
  destruct (lookup (group_or_empty mo 1) NORMALIZATION_MAP) as [v|] eqn:El.
  - apply negb_false_iff in Hlit. rewrite Hlit. cbn [negb].
    destruct (table_canonical _ _ El Hlit) as [n [-> [Hn0 [Hn Hnone]]]].
    apply var_inv in H.
    destruct H as [w1 [n' [w2 [w4 [_ [_ [_ [_ [_ [_ Hcase]]]]]]]]]].
    destruct Hcase as [[Hg _] | [w3 [fb [_ [Hfb0 [Hfb [Hg _]]]]]]].
    + unfold lastindex, group. rewrite Hg. cbn [Nat.leb assoc].
      apply (canonical_shape n z [] Hn0 Hn); [reflexivity|].
      eexists; eexists. split; [reflexivity | split; reflexivity].
    + unfold lastindex, group. rewrite Hg. cbn [Nat.leb assoc Nat.eqb].
      destruct fb as [|c fb]; [congruence|].
      replace (txt "var(" ++ (txt "--ctc-" ++ n) ++ txt ", " ++ (c :: fb) ++ txt ")")
        with (txt "var(" ++ (txt "--ctc-" ++ n) ++
              (txt "," ++ (" "%char :: c :: fb)) ++ txt ")")
        by reflexivity.
      apply (canonical_shape n z (txt "," ++ (" "%char :: c :: fb)) Hn0 Hn).
      * rewrite <- app_assoc. apply var_tail_at_fallback; [discriminate|].
        constructor; [reflexivity | exact Hfb].
      * eexists; eexists. split; [reflexivity | split; reflexivity].
  - exact (var_at_text _ _ _ z H).
Qed.

Lemma rename_along x y :
  normalizes x y -> no_literal x = true ->
  findall1 var_re y = map canonical_name (findall1 var_re x).
Proof.
  induction 1 as [| c x y Hn H IH | mo x y Hm H IH]; intros Hlit.
  - reflexivity.
  - pose proof (attempt_transfer _ _ H) as Ht.
    rewrite (no_literal_copy _ _ Hn) in Hlit.
    rewrite (findall1_var_copy c x Hn).
    destruct (match_at var_re (c :: y)) as [[mo rest]|] eqn:E.
    + exfalso. apply (Ht Hlit [c]); [discriminate | | exact Hn].
      simpl. rewrite E. discriminate.
    + rewrite (findall1_var_copy c y E). apply (IH Hlit).
  - rewrite (no_literal_ref _ _ Hm) in Hlit.
    apply andb_true_iff in Hlit. destruct Hlit as [Hmo Hlit].
    apply negb_true_iff in Hmo.
    destruct (normalize_var_stable _ _ _ Hm Hmo) as [_ Hst].
    destruct (Hst y) as [mo' [Hm' _]].
    pose proof (var_at_spec _ _ _ Hm') as Hv.
    rewrite (normalize_var_name _ _ _ Hm Hmo y) in Hv.
    rewrite (findall1_var_ref _ _ _ Hm'), (findall1_var_ref _ _ _ Hm).
    cbn [map]. f_equal; [congruence | apply (IH Hlit)].
Qed.

(** X14.  When no reference of the text it normalises is collapsed to a
    literal, the repair pass leaves the references where they are and renames
    them one by one: the names [_check_invalid_variables] reads in the output
    are, in order, the names it reads in the text after step 1, each replaced
    by its entry in [NORMALIZATION_MAP] when it has one. *)
Theorem repaired_reference_names css :
  no_literal (strip_duplicate_roots css) = true ->
  findall1 var_usage_re (post_process_css css) =
  map canonical_name (findall1 var_usage_re (strip_duplicate_roots css)).
Proof.
  intros Hlit. rewrite !usages_eq. unfold post_process_css.
  apply (rename_along _ _ (normalizes_spec _) Hlit).
Qed.

Lemma repaired_reference_names_witness :
  findall1 var_usage_re
    (post_process_css
       (txt "a{margin:var(--ctc-spacing-4, 1px);color:var( --ctc-neutral-700 );top:var(--ctc-top)}")) =
  [txt "--ctc-spacing-lg"; txt "--ctc-neutral-dark"; txt "--ctc-top"].
Proof.
  rewrite repaired_reference_names; vm_compute; reflexivity.
Defined.

Lemma canonical_not_invalid name :
  lookup name NORMALIZATION_MAP <> None ->
  startswith (txt "--") (canonical_name name) = true ->
  matches_invalid_pattern (canonical_name name) = false.
Proof.
  unfold canonical_name.
  destruct (lookup name NORMALIZATION_MAP) as [v|] eqn:El; [|congruence].
  intros _ Hs. apply lookup_key in El.
  pose proof table_entries_checked as Ht. rewrite forallb_forall in Ht.
  specialize (Ht _ El). cbn [fst snd] in Ht.
  apply andb_true_iff in Ht. destruct Ht as [_ Hv].
  apply orb_true_iff in Hv. destruct Hv as [Hv|Hv].
  - apply text_eqb_eq in Hv. subst v. discriminate Hs.
  - apply andb_true_iff in Hv. destruct Hv as [Hv _].
    apply andb_true_iff in Hv. destruct Hv as [_ Hm].
    apply negb_true_iff. exact Hm.
Qed.

Lemma no_literal_names x name :
  no_literal x = true -> In name (findall1 var_re x) ->
  lookup name NORMALIZATION_MAP <> None ->
  startswith (txt "--") (canonical_name name) = true.
Proof.
  unfold no_literal, findall1. intros Hl Hin Hk.
  apply in_map_iff in Hin. destruct Hin as [mo [<- Hmo]].
  rewrite forallb_forall in Hl. specialize (Hl mo Hmo).
  unfold maps_to_literal in Hl. unfold canonical_name.
  destruct (lookup (group_or_empty mo 1) NORMALIZATION_MAP); [|congruence].
  apply negb_true_iff in Hl. apply negb_false_iff in Hl. exact Hl.
Qed.

(** X15.  The repair pass does its job: when no reference is collapsed to a
    literal, every referenced name that matches one of [INVALID_PATTERNS] is
    a key of [NORMALIZATION_MAP], and the output has a [:root] block, the
    output passes [validate]. *)
Theorem repaired_text_passes css :
  no_literal (strip_duplicate_roots css) = true ->
  (forall name, In name (findall1 var_usage_re (strip_duplicate_roots css)) ->
                matches_invalid_pattern name = true ->
                lookup name NORMALIZATION_MAP <> None) ->
  findall0 PostProcessor.root_re (post_process_css css) <> [] ->
  passed (validate (post_process_css css)) = true.
Proof.
  intros Hlit Hkeys Hroot.
  unfold validate, validate_from. cbn [passed].
  replace (issues (run_checks (init (post_process_css css)))) with (@nil text);
    [reflexivity|].
  symmetry. apply run_checks_clean. split.
  - pose proof (post_process_count css) as Hc.
    change Quality.root_re with PostProcessor.root_re.
    destruct (findall0 PostProcessor.root_re (post_process_css css))
      as [|b [|b' bs]]; [congruence | reflexivity | cbn [length] in Hc; lia].
  - intros x Hx. rewrite usages_eq in Hx. unfold post_process_css in Hx.
    rewrite (rename_along _ _ (normalizes_spec _) Hlit) in Hx.
    apply in_map_iff in Hx. destruct Hx as [name [<- Hin]].
    destruct (lookup name NORMALIZATION_MAP) as [v|] eqn:El.
    + apply canonical_not_invalid; [congruence|].
      apply (no_literal_names _ name Hlit Hin). congruence.
    + unfold canonical_name. rewrite El.
      destruct (matches_invalid_pattern name) eqn:Em; [|reflexivity].
      exfalso. apply (Hkeys name); [rewrite usages_eq; exact Hin | exact Em | exact El].
Qed.

Lemma repaired_text_passes_witness :
  passed
    (validate
       (post_process_css
          (txt ":root{--ctc-primary:#111} :root{--ctc-primary:#222} a{margin:var(--ctc-spacing-4, 1px);color:var( --ctc-neutral-700 )}")))
  = true.
Proof.
  apply repaired_text_passes.
  - vm_compute. reflexivity.
  - vm_compute. intros name [<-|[<-|[]]] _; discriminate.
  - vm_compute. discriminate.
Defined.

(** ** What is left to rewrite after the pass *)



Lemma find_invalid_nil css :
  (forall x, In x (findall1 var_usage_re css) ->
             Analysis.matches_invalid_pattern x = false) ->
  Analysis.find_invalid_variables css = [].
Proof.
  intros Hno.
  destruct (Analysis.find_invalid_variables css) as [|x l] eqn:E; [reflexivity|].
  exfalso.
  assert (Hx : In x (Analysis.find_invalid_variables css))
    by (rewrite E; left; reflexivity).
  unfold Analysis.find_invalid_variables, Analysis.var_pattern in Hx.
  apply find_invalid_fold in Hx. destruct Hx as [[]|[Hin Hm]].
  rewrite (Hno x Hin) in Hm. discriminate.
Qed.

(** The names left after the pass are not names the four patterns flag. *)
Lemma repaired_names_not_flagged css x :
  no_literal (strip_duplicate_roots css) = true ->
  (forall name, In name (findall1 var_usage_re (strip_duplicate_roots css)) ->
                Analysis.matches_invalid_pattern name = true ->
                lookup name NORMALIZATION_MAP <> None) ->
  In x (findall1 var_usage_re (post_process_css css)) ->
  Analysis.matches_invalid_pattern x = false.
Proof.
  intros Hlit Hkeys Hin.
  rewrite usages_eq in Hin. unfold post_process_css in Hin.
  rewrite (rename_along _ _ (normalizes_spec _) Hlit) in Hin.
  apply in_map_iff in Hin. destruct Hin as [name [<- Hin]].
  destruct (Analysis.matches_invalid_pattern (canonical_name name)) eqn:Hm;
    [|reflexivity].
  exfalso. destruct (lookup name NORMALIZATION_MAP) as [v|] eqn:El.
  - apply analysis_patterns_included in Hm.
    rewrite canonical_not_invalid in Hm; [discriminate | congruence |].
    apply (no_literal_names _ name Hlit Hin). congruence.
  - unfold canonical_name in Hm. rewrite El in Hm.
    apply (Hkeys name); [rewrite usages_eq; exact Hin | exact Hm | exact El].
Qed.

(** X17.  When no reference is collapsed to a literal and every referenced
    name that matches one of the four [INVALID_PATTERNS] of
    [tmp/test_postprocessor.py] is a key of [NORMALIZATION_MAP],
    [find_invalid_variables] finds nothing in the output of the pass. *)
Theorem no_invalid_variable_left css :
  no_literal (strip_duplicate_roots css) = true ->
  (forall name, In name (findall1 var_usage_re (strip_duplicate_roots css)) ->
                Analysis.matches_invalid_pattern name = true ->
                lookup name NORMALIZATION_MAP <> None) ->
  Analysis.find_invalid_variables (post_process_css css) = [].
Proof.
  intros Hlit Hkeys. apply find_invalid_nil. intros x Hx.
  apply (repaired_names_not_flagged css x Hlit Hkeys Hx).
Qed.

Lemma no_invalid_variable_left_witness :
  Analysis.find_invalid_variables
    (post_process_css
       (txt "a{margin:var(--ctc-spacing-4, 1px);color:var( --ctc-neutral-700 )}"))
  = [].
Proof.
  apply no_invalid_variable_left.
  - vm_compute. reflexivity.
  - vm_compute. intros name [<-|[<-|[]]] _; discriminate.
Defined.

(** ** The count of [:root {] after the pass *)

Lemma opens_app_ge a s : opens a + opens s <= opens (a ++ s).
Proof.
  induction a as [|c a IH]; cbn [opens app]; [lia|].
  destruct (root_open (c :: a)) as [s3|] eqn:E.
  - change (c :: a ++ s) with ((c :: a) ++ s).
    rewrite (root_open_app _ _ s E). lia.
  - destruct (root_open (c :: a ++ s)); lia.
Qed.

(** In front of a character at which an attempt stops, a text has the places
    it has on its own. *)
Lemma opens_app_stop a c s :
  stopper c = true -> opens (a ++ c :: s) = opens a + opens (c :: s).
Proof.
  intros Hc. remember (opens (c :: s)) as k eqn:Ek.
  induction a as [|x a IH]; [subst k; reflexivity|].
  cbn [app opens]. rewrite IH.
  destruct (root_open (x :: a ++ c :: s)) as [s3|] eqn:E.
  - apply (root_open_stop x a c s s3 Hc) in E. destruct E as [b' [E _]].
    rewrite E. lia.
  - destruct (root_open (x :: a)) as [b'|] eqn:E'; [|lia].
    change (x :: a ++ c :: s) with ((x :: a) ++ c :: s) in E.
    rewrite (root_open_app _ _ (c :: s) E') in E. discriminate.
Qed.

(** The same behind such a character, when it is not a colon. *)
Lemma opens_app_end a c s :
  stopper c = true -> is_chr ":" c = false ->
  opens ((a ++ [c]) ++ s) = opens (a ++ [c]) + opens s.
Proof.
  intros Hc Hn. rewrite <- app_assoc. cbn [app].
  rewrite !(opens_app_stop a c _ Hc). cbn [opens].
  rewrite !(not_colon_not_open c _ Hn). lia.
Qed.

Lemma plain_not_colon c : plain c = true -> negb (is_chr ":" c) = true.
Proof.
  unfold plain. intros H. apply negb_true_iff in H.
  apply orb_false_iff in H. destruct H as [H _]. rewrite H. reflexivity.
Qed.

Lemma opens_plain a s : all plain a -> opens (a ++ s) = opens s.
Proof.
  intros H. apply opens_skip. apply (all_impl plain); [exact plain_not_colon | exact H].
Qed.

(** The normalisation adds no place at which [:root {] is written. *)
Lemma opens_normalizes x y : normalizes x y -> opens y <= opens x.
Proof.
  induction 1 as [| c x y Hn H IH | mo x y Hm H IH].
  - lia.
  - cbn [opens].
    destruct (root_open (c :: y)) as [s3|] eqn:E; [|destruct (root_open (c :: x)); lia].
    assert (Hx : root_open ([c] ++ x) <> None).
    { apply (open_transfer x y H [c]); [discriminate|].
      cbn [app]. rewrite E. discriminate. }
    cbn [app] in Hx. destruct (root_open (c :: x)); [lia | congruence].
  - destruct (normalize_var_parts _ _ _ Hm)
      as [_ [Hp | [a [a' [u [v [Hnv [Hmt [Pa [Pa' Pv]]]]]]]]]].
    + rewrite (opens_plain _ y Hp).
      eapply Nat.le_trans; [exact IH | apply opens_app_le].
    + rewrite Hnv, Hmt, <- !app_assoc.
      rewrite (opens_plain a _ Pa), (opens_plain a' _ Pa').
      change (txt ")" ++ y) with (")"%char :: y).
      rewrite (opens_app_stop u ")" y eq_refl).
      assert (Pr : all plain (txt ")")) by (repeat constructor).
      change (")"%char :: y) with (txt ")" ++ y). rewrite (opens_plain _ y Pr).
      eapply Nat.le_trans; [|apply opens_app_ge].
      rewrite (opens_plain v _ Pv), (opens_plain _ x Pr). lia.
Qed.

(** The places in a text with a block at its head. *)
Lemma opens_block g m rest :
  match_at PostProcessor.root_re (m_text m ++ rest) = Some (m, rest) ->
  opens (g ++ m_text m ++ rest) = opens g + opens (m_text m) + opens rest /\
  1 <= opens (m_text m).
Proof.
  intros Hm. apply match_root_inv in Hm.
  destruct Hm as [t0 [-> [_ [Ho _]]]]. cbn [m_text].
  destruct (root_open t0) as [b'|] eqn:E; [|congruence].
  pose proof (opens_at _ _ (root_open_app _ _ (txt "}") E)) as H1.
  apply root_open_shape in E. destruct E as [w [_ E]].
  split; [|lia].
  assert (Hh : exists T, (t0 ++ txt "}") ++ rest = ":"%char :: T).
  { rewrite E. eexists. reflexivity. }
  destruct Hh as [T HT]. rewrite HT.
  rewrite (opens_app_stop g ":" T colon_stopper). rewrite <- HT.
  change (txt "}") with ([ "}"%char ]).
  rewrite (opens_app_end t0 "}" rest eq_refl eq_refl). lia.
Qed.

Lemma opens_scan : forall ms s tl,
  scan_all PostProcessor.root_re s = (ms, tl) ->
  list_sum (map (fun gm => opens (fst gm)) ms) + opens tl + length ms <= opens s.
Proof.
  induction ms as [|[g m] ms IH]; intros s tl H.
  - apply (@scan_nil_inv _ root_consumes) in H. destruct H as [-> _].
    simpl. lia.
  - apply (@scan_cons_inv _ root_consumes) in H.
    destruct H as [rest [Hs [_ [Hm Hr]]]].
    destruct (opens_block g m rest Hm) as [Ho H1].
    specialize (IH rest tl Hr). rewrite Hs, Ho.
    cbn [map length fst]. unfold list_sum in *. cbn [fold_right]. lia.
Qed.

Lemma opens_marker_app s : opens (MARKER ++ s) = opens s.
Proof.
  change MARKER
    with (txt "/* [PostProcessor] Stripped duplicate :root *" ++ [ "/"%char ]).
  rewrite (opens_app_end _ "/" s eq_refl eq_refl). reflexivity.
Qed.

Lemma opens_stripped_rest ms tl :
  opens (stripped_rest ms tl) <=
  list_sum (map (fun gm => opens (fst gm)) ms) + opens tl.
Proof.
  unfold stripped_rest. induction ms as [|[g m] ms IH].
  - unfold list_sum. cbn [map concat fold_right app]. unfold tail_part.
    destruct (root_open tl); [|lia].
    pose proof (opens_marker_app []) as H. rewrite app_nil_r in H.
    rewrite H. cbn [opens]. lia.
  - unfold list_sum in *. cbn [map concat fold_right fst]. rewrite <- !app_assoc.
    destruct marker_head as [y [Hy Hst]].
    rewrite Hy at 1. rewrite <- app_comm_cons.
    rewrite (opens_app_stop g "/" _ Hst). rewrite app_comm_cons, <- Hy.
    rewrite opens_marker_app. lia.
Qed.

(** When every [:root {] of the text opens one of the blocks step 1 finds,
    step 1 leaves at most one. *)
Lemma opens_strip css :
  opens css = length (findall0 PostProcessor.root_re css) ->
  opens (strip_duplicate_roots css) <= 1.
Proof.
  unfold findall0, finditer. rewrite !length_map. intros Hw.
  rewrite strip_shape.
  destruct (scan_all PostProcessor.root_re css) as [ms tl] eqn:E.
  cbn [fst snd] in *.
  destruct ms as [|[g0 m1] [|gm2 ms]]; try (cbn [length] in Hw; lia).
  remember (gm2 :: ms) as ms' eqn:Ems.
  apply (@scan_cons_inv _ root_consumes) in E.
  destruct E as [rest [Hs [_ [Hm Hr]]]].
  destruct (opens_block g0 m1 rest Hm) as [Ho H1].
  destruct (opens_block g0 m1 (stripped_rest ms' tl)) as [Ho' _].
  { apply match_root_inv in Hm. destruct Hm as [t0 [-> [_ [_ Hat]]]].
    cbn [m_text]. rewrite match_at_root, (root_at_app _ _ (stripped_rest ms' tl) Hat).
    cbn [app]. rewrite taken_app. reflexivity. }
  pose proof (opens_scan ms' rest tl Hr) as Hsum.
  pose proof (opens_stripped_rest ms' tl) as Hsr.
  rewrite Ho'. rewrite Hs, Ho in Hw. cbn [length] in Hw. lia.
Qed.

Lemma opens_after_repair css :
  opens css = length (findall0 PostProcessor.root_re css) ->
  findall0 PostProcessor.root_re (post_process_css css) <> [] ->
  opens (post_process_css css) = 1.
Proof.
  intros Hw Hb.
  pose proof (opens_strip css Hw) as H1.
  pose proof (opens_normalizes _ _ (normalizes_spec (strip_duplicate_roots css)))
    as H2.
  fold (post_process_css css) in H2.
  assert (H3 : 1 <= opens (post_process_css css)).
  { destruct (scan_all PostProcessor.root_re (post_process_css css))
      as [ms tl] eqn:E.
    pose proof (blocks_le_opens ms _ tl E) as Hle.
    unfold findall0, finditer in Hb. rewrite E in Hb. cbn [fst] in Hb.
    destruct ms; [exfalso; apply Hb; reflexivity | cbn [length] in Hle; lia]. }
  lia.
Qed.

(** X18.  When every place at which [:root {] is written in the input opens
    one of the blocks that step 1 finds (no block left open, none written
    inside another), and the output still has a block, the count that [main]
    takes after the pass, [count_root_declarations(processed_css)], is 1. *)
Theorem root_count_after_repair css :
  count_root_declarations css = length (findall0 PostProcessor.root_re css) ->
  findall0 PostProcessor.root_re (post_process_css css) <> [] ->
  count_root_declarations (post_process_css css) = 1.
Proof.
  intros Hw Hb. rewrite count_opens in *.
  apply (opens_after_repair css Hw Hb).
Qed.

Lemma root_count_after_repair_witness :
  count_root_declarations
    (post_process_css
       (txt ":root{--ctc-primary:#111} :root{--ctc-primary:#222} a{margin:var(--ctc-spacing-4, 1px)}"))
  = 1.
Proof.
  apply root_count_after_repair.
  - vm_compute. reflexivity.
  - vm_compute. discriminate.
Defined.

(** ** [main] of [tmp/test_postprocessor.py] *)

Lemma extract_css_empty html :
  contains (txt "<style") html = false \/
  contains (txt "</style>") html = false ->
  Analysis.extract_css_from_html html = [].
Proof.
  intros H. unfold Analysis.extract_css_from_html, Analysis.style_matches.
  destruct H as [H|H].
  - rewrite (scan_style_none (fun s => contains (txt "<style") s = false));
      [reflexivity | | | exact H].
    + intros c s. apply contains_tail.
    + apply style_match_needs_open.
  - rewrite (scan_style_none (fun s => contains (txt "</style>") s = false));
      [reflexivity | | | exact H].
    + intros c s. apply contains_tail.
    + apply style_match_needs_close.
Qed.

(** X19.  On a file without a style element ([<style] or [</style>] is
    missing) [main] extracts nothing, writes an empty
    [tmp/processed_css.css] and ends with status 1: the count of [:root {]
    after the pass is 0, not 1. *)
Theorem main_without_style_element html :
  contains (txt "<style") html = false \/
  contains (txt "</style>") html = false ->
  Analysis.exit_code (Analysis.main (Some html)) = 1%Z /\
  Analysis.saved (Analysis.main (Some html)) = Some [].
Proof.
  intros H. unfold Analysis.main.
  cbn [Analysis.exit_code Analysis.saved].
  rewrite (extract_css_empty html H). split; reflexivity.
Qed.

Lemma main_without_style_element_witness :
  Analysis.exit_code (Analysis.main (Some (txt "<html><body>no css</body></html>")))
  = 1%Z.
Proof.
  refine (proj1 (main_without_style_element
                   (txt "<html><body>no css</body></html>") _)).
  left. reflexivity.
Defined.

(** X20.  [main] ends with status 0, having written the repaired text to
    [tmp/processed_css.css], when the text it extracts from the file is well
    formed and within reach of the table: every [:root {] opens one of the
    blocks step 1 finds, the output of the pass still has a block, no
    reference is collapsed to a literal, and every referenced name that
    matches one of the four [INVALID_PATTERNS] is a key of
    [NORMALIZATION_MAP]. *)
Theorem main_passes html :
  count_root_declarations (Analysis.extract_css_from_html html) =
    length (findall0 PostProcessor.root_re
                     (Analysis.extract_css_from_html html)) ->
  findall0 PostProcessor.root_re
           (post_process_css (Analysis.extract_css_from_html html)) <> [] ->
  no_literal (strip_duplicate_roots (Analysis.extract_css_from_html html))
    = true ->
  (forall name,
      In name (findall1 var_usage_re
                 (strip_duplicate_roots (Analysis.extract_css_from_html html))) ->
      Analysis.matches_invalid_pattern name = true ->
      lookup name NORMALIZATION_MAP <> None) ->
  Analysis.exit_code (Analysis.main (Some html)) = 0%Z /\
  Analysis.saved (Analysis.main (Some html)) =
    Some (post_process_css (Analysis.extract_css_from_html html)).
Proof.
  intros Hw Hb Hlit Hkeys.
  set (css0 := Analysis.extract_css_from_html html) in *.
  unfold Analysis.main. cbn [Analysis.exit_code Analysis.saved]. fold css0.
  split; [|reflexivity].
  rewrite count_opens in Hw.
  rewrite count_opens, (opens_after_repair css0 Hw Hb).
  rewrite find_invalid_nil; [reflexivity|].
  intros x Hx. apply (repaired_names_not_flagged css0 x Hlit Hkeys Hx).
Qed.

Lemma main_passes_witness :
  Analysis.exit_code
    (Analysis.main
       (Some (txt "<style>:root{--ctc-primary:#111} :root{--ctc-primary:#222} a{margin:var(--ctc-spacing-4, 1px)}</style>")))
  = 0%Z.
Proof.
  refine (proj1 (main_passes
                   (txt "<style>:root{--ctc-primary:#111} :root{--ctc-primary:#222} a{margin:var(--ctc-spacing-4, 1px)}</style>")
                   _ _ _ _)).
  - vm_compute. reflexivity.
  - vm_compute. discriminate.
  - vm_compute. reflexivity.
  - vm_compute. intros name [<-|[]] _. discriminate.
Defined.

(** Step 1 takes a [:root {] away with every block it replaces. *)
Lemma opens_strip_le css :
  opens (strip_duplicate_roots css) +
  (length (findall0 PostProcessor.root_re css) - 1) <= opens css.
Proof.
  unfold findall0, finditer. rewrite !length_map.
  rewrite strip_shape.
  destruct (scan_all PostProcessor.root_re css) as [ms tl] eqn:E.
  cbn [fst snd].
  destruct ms as [|[g0 m1] [|gm2 ms]]; try (cbn [length]; lia).
  remember (gm2 :: ms) as ms' eqn:Ems.
  apply (@scan_cons_inv _ root_consumes) in E.
  destruct E as [rest [Hs [_ [Hm Hr]]]].
  destruct (opens_block g0 m1 rest Hm) as [Ho H1].
  destruct (opens_block g0 m1 (stripped_rest ms' tl)) as [Ho' _].
  { apply match_root_inv in Hm. destruct Hm as [t0 [-> [_ [_ Hat]]]].
    cbn [m_text]. rewrite match_at_root, (root_at_app _ _ (stripped_rest ms' tl) Hat).
    cbn [app]. rewrite taken_app. reflexivity. }
  pose proof (opens_scan ms' rest tl Hr) as Hsum.
  pose proof (opens_stripped_rest ms' tl) as Hsr.
  rewrite Ho'.
  assert (Hc : opens css = opens g0 + opens (m_text m1) + opens rest)
    by (rewrite Hs at 1; exact Ho).
  cbn [length]. lia.
Qed.

(** X21.  The pass never adds a [:root {], and takes one away with every
    block it replaces: on a text with N blocks, the count
    [count_root_declarations] takes after the pass is at most the count
    before it minus N - 1. *)
Theorem root_count_never_grows css :
  count_root_declarations (post_process_css css) +
  (length (findall0 PostProcessor.root_re css) - 1) <=
  count_root_declarations css.
Proof.
  rewrite !count_opens.
  pose proof (opens_strip_le css) as H1.
  pose proof (opens_normalizes _ _ (normalizes_spec (strip_duplicate_roots css)))
    as H2.
  fold (post_process_css css) in H2. lia.
Qed.

(** ** The examples of the source and of the specification *)

(** The self-test of [tmp/test_css_quality.py] passes, with this report. *)
Example self_test_passes :
  test_css_validator_directly = true /\
  r_issues (validate sample_css) =
    [ txt "CRITICAL: Found 2 :root declarations (should be 1)";
      txt "CRITICAL: Brand color --ctc-primary has conflicting values: ['#00637b', '#0047ab']";
      txt "CRITICAL: Found 7 invalid CSS variables: --ctc-neutral-1, --ctc-neutral-100, --ctc-neutral-7, --ctc-neutral-700, --ctc-radius-0, --ctc-spacing-2, --ctc-spacing-4" ] /\
  r_warnings (validate sample_css) =
    [ txt "Typography uses generic Arial - may not match brand" ] /\
  score (validate sample_css) = 20%Z.
Proof. repeat split; vm_compute; reflexivity. Qed.

(** After the repair pass the sample has one [:root {] and passes. *)
Example sample_repaired :
  count_root_declarations (post_process_css sample_css) = 1 /\
  r_issues (validate (post_process_css sample_css)) = [] /\
  passed (validate (post_process_css sample_css)) = true /\
  score (validate (post_process_css sample_css)) = 95%Z.
Proof. repeat split; vm_compute; reflexivity. Qed.

Example literal_collapse_spacing_0 :
  normalize_vars (txt "var(--ctc-spacing-0)") = txt "0".
Proof. vm_compute. reflexivity. Qed.

Example fallback_preserved_neutral_700 :
  normalize_vars (txt "var(--ctc-neutral-700, #333)") =
  txt "var(--ctc-neutral-dark, #333)".
Proof. vm_compute. reflexivity. Qed.

Example three_blocks_stripped :
  strip_duplicate_roots (txt ":root{a} x :root{b} y :root {c} z") =
  txt ":root{a} x " ++ MARKER ++ txt " y " ++ MARKER ++ txt " z".
Proof. vm_compute. reflexivity. Qed.

(** The text after the last block, when it opens a [:root {] that is never
    closed, is replaced as well. *)
Example open_block_after_last :
  strip_duplicate_roots (txt ":root{a}:root{b}:root{c") =
  txt ":root{a}" ++ MARKER ++ MARKER.
Proof. vm_compute. reflexivity. Qed.

(** A block written inside a fallback goes with the reference: the output
    can have no block where the input had one. *)
Example block_inside_fallback :
  findall0 PostProcessor.root_re (txt "a{m:var(--ctc-spacing-0, :root{})}") =
    [txt ":root{}"] /\
  post_process_css (txt "a{m:var(--ctc-spacing-0, :root{})}") = txt "a{m:0}" /\
  findall0 PostProcessor.root_re
           (post_process_css (txt "a{m:var(--ctc-spacing-0, :root{})}")) = [].
Proof. repeat split; vm_compute; reflexivity. Qed.

(** A declaration that is not closed by a semicolon: [_check_duplicate_roots]
    searches the text of the whole block and reads the closing brace into the
    value, [find_brand_color_conflicts] searches the body and does not; the
    validator then reports a conflict between two blocks that declare the
    same colour. *)
Example unterminated_primary :
  primaries_of
    (findall0 Quality.root_re
       (txt ":root{--ctc-primary:#fff}:root{--ctc-primary:#fff;}")) =
    [txt "#fff}"; txt "#fff"] /\
  Analysis.find_brand_color_conflicts
    (txt ":root{--ctc-primary:#fff}:root{--ctc-primary:#fff;}") =
    [txt "#fff"; txt "#fff"] /\
  r_issues (validate (txt ":root{--ctc-primary:#fff}:root{--ctc-primary:#fff;}")) =
    [ txt "CRITICAL: Found 2 :root declarations (should be 1)";
      txt "CRITICAL: Brand color --ctc-primary has conflicting values: ['#fff}', '#fff']" ].
Proof. repeat split; vm_compute; reflexivity. Qed.

(** [main] when the file does not exist. *)
Example main_missing_file :
  Analysis.exit_code (Analysis.main None) = 1%Z /\
  Analysis.saved (Analysis.main None) = None /\
  last (Analysis.stdout (Analysis.main None)) [] =
    txt "ERROR: File not found: tmp/stylizer_new/example_output_mvgm_vvebeheer_2.html".
Proof. repeat split; vm_compute; reflexivity. Qed.

(** A [:root {] that is never closed is counted by
    [count_root_declarations] and is no block for [post_process_css]. *)
Example unclosed_root_counted :
  count_root_declarations (txt ":root{a:b} x :root { c") = 2 /\
  findall0 PostProcessor.root_re (txt ":root{a:b} x :root { c") =
    [txt ":root{a:b}"].
Proof. split; vm_compute; reflexivity. Qed.

(** [_check_brand_colors] tests for a substring: a block that declares
    [--ctc-primary-dark] is not warned about a missing [--ctc-primary]. *)
Example primary_found_in_longer_name :
  r_warnings
    (validate (txt ":root{--ctc-primary-dark:#000;--ctc-font-heading:a;--ctc-font-body:b}")) =
    [ txt "Missing recommended color: --ctc-secondary";
      txt "Missing recommended color: --ctc-accent" ].
Proof. vm_compute. reflexivity. Qed.

Example empty_text_report :
  r_issues (validate []) = [msg_no_root] /\ score (validate []) = 75%Z.
Proof. split; vm_compute; reflexivity. Qed.
